(** * Emoji tape sampler: tokenizer, prime mapper and Gödel encoder

    A shallow embedding of [src/utils/llm-sampler.ts], [src/types/llm.ts] and
    of the functions of the display components ([getPrimeForEmoji],
    [getEmojiColor], the splitting of the tape into segments,
    [calculateGodelNumber], [getPrimeActivationColor],
    [calculatePrime2Variance]), with the properties of the specification
    proved about it, and further properties of the code after them.

    JavaScript values are modelled as the language defines them:
    - a string is its sequence of UTF-16 code units, and iterating it yields
      code points;
    - a [number] is an IEEE 754 binary64 value, Rocq's primitive [float],
      whose operations the kernel computes and [FloatAxioms] specifies;
      numbers that only ever hold integers (lengths, hashes, the registry
      primes, ranks) are kept in [Z] or [nat];
    - a [bigint] is a [Z], with the arithmetic of ECMAScript, which sets no
      bound on its size; the limit an engine puts on the size of a bigint
      is not modelled, and the general statements conclude a return of
      the Gödel encoder only where every exponent is at most 5;
    - a [Map] is a [gmap];
    - a [throw] is the left injection of a sum;
    - [Math.tanh], which ECMAScript leaves implementation-approximated, is a
      parameter; [Math.pow(x, 2)] is [x * x];
    - [Array.prototype.sort] is the stable sort, computed by insertion.

    What the embedding provider does (loading a pipeline, embedding a text,
    [Math.random], the clock) comes in as arguments. What a call of a
    pipeline gives is untyped in the code ([any]); it is modelled as far as
    the code tells values apart: an Array or not, and for the value taken as
    the embedding, [undefined], a number, or an array-like of numbers. *)

From stdpp Require Import gmap list strings sorting pretty.
From Stdlib Require Import ZArith Lia Bool Uint63 Floats.

Local Open Scope Z_scope.

(** ** Strings *)

Module JS.

(** A JavaScript string: its UTF-16 code units, each in [0, 65535]. *)
Abbreviation JSString := (list Z).

(** An ASCII literal of the source as a JavaScript string. *)
Definition lit (s : string) : JSString :=
  map (fun a => Z.of_N (Ascii.N_of_ascii a)) (String.list_ascii_of_string s).

Definition isHighSurrogate (c : Z) : bool := (0xD800 <=? c) && (c <=? 0xDBFF).
Definition isLowSurrogate (c : Z) : bool := (0xDC00 <=? c) && (c <=? 0xDFFF).

(** [String.prototype[Symbol.iterator]], used by [for (const e of s)] and by
    [Array.from(s)]: one string per code point; a high surrogate followed by a
    low surrogate is one code point, any other code unit stands alone. *)
Fixpoint codePoints (s : JSString) : list JSString :=
  match s with
  | [] => []
  | c :: rest =>
      match rest with
      | d :: rest' =>
          if isHighSurrogate c && isLowSurrogate d
          then [c; d] :: codePoints rest'
          else [c] :: codePoints rest
      | [] => [[c]]
      end
  end.

(** [s.startsWith(t)] and [s.includes(t)]. *)
Fixpoint startsWith (s t : JSString) : bool :=
  match t, s with
  | [], _ => true
  | _ :: _, [] => false
  | b :: t', a :: s' => (a =? b) && startsWith s' t'
  end.

Fixpoint includes (s t : JSString) : bool :=
  startsWith s t ||
  match s with
  | [] => false
  | _ :: s' => includes s' t
  end.

(** [s.replace(/\|/g, '')]: every code unit 124 is dropped. *)
Definition stripBars (s : JSString) : JSString :=
  filter (fun c => c ≠ 124) s.

(** [s.split('|')]: the substrings between the separators, in order; there
    is always at least one, and the string without separators is one
    segment. *)
Fixpoint splitBars (s : JSString) : list JSString :=
  match s with
  | [] => [[]]
  | c :: rest =>
      if c =? 124 then [] :: splitBars rest
      else
        match splitBars rest with
        | segment :: segments => (c :: segment) :: segments
        | [] => [[c]]
        end
  end.

(** [ToInt32]: the value modulo 2^32, read as a signed 32-bit integer. *)
Definition ToInt32 (n : Z) : Z :=
  let m := n mod 2 ^ 32 in
  if m <? 2 ^ 31 then m else m - 2 ^ 32.

(** [a << k] and [a & b] on numbers holding integers. *)
Definition shl (a k : Z) : Z := ToInt32 (Z.shiftl (ToInt32 a) (k mod 32)).
Definition band (a b : Z) : Z := Z.land (ToInt32 a) (ToInt32 b).

End JS.

Import JS.

(** ** The prime registry ([src/types/llm.ts]) *)

Module EmojiPrimeMapping.
Record t := {
  emoji : JSString;
  prime : Z;
  meaning : string;
  vibe : string
}.
End EmojiPrimeMapping.

(** The registry: each glyph is one code point outside the basic plane,
    two code units (U+1F3A9, U+1F3B2, U+1F522, U+1F3B6, U+1F3B7, U+1F4DC,
    U+1F9EC, U+1F3AF, U+1F680, U+1FA90). *)
Definition entry (emoji : JSString) (prime : Z) (meaning vibe : string)
  : EmojiPrimeMapping.t :=
  EmojiPrimeMapping.Build_t emoji prime meaning vibe.

Definition INTRINSIC_PRIMES : list EmojiPrimeMapping.t :=
  [ entry [55356; 57257] 2 "Creativity" "Initialize state or vector";
    entry [55356; 57266] 3 "Chaos" "Branch/call";
    entry [55357; 56610] 5 "Structure" "Load/store data";
    entry [55356; 57270] 7 "Harmony" "Arithmetic operations";
    entry [55356; 57271] 11 "Expression" "Output/store";
    entry [55357; 56540] 13 "Legacy" "Self-description";
    entry [55358; 56812] 17 "Evolution" "LLM interaction";
    entry [55356; 57263] 19 "Focus" "Comparison";
    entry [55357; 56960] 23 "Launch" "Deploy contract";
    entry [55358; 56976] 29 "System" "Phase control" ].

(** The default tape: 19 emoji in three segments separated by [|]. *)
Definition EMOJI_BLOCK_TAPE : JSString :=
  [ 55358; 56976; 55356; 57257; 55357; 56610; 55356; 57266; 55356; 57270;
    55356; 57271; 55357; 56540; 124;
    55358; 56976; 55356; 57271; 55358; 56812; 55356; 57266; 55357; 56540; 124;
    55358; 56976; 55356; 57270; 55357; 56610; 55356; 57263; 55356; 57266;
    55357; 56540; 55357; 56960 ].

(** ** Tokenizer *)

Module TokenizedTape.
Record metadata_t := {
  sequenceLength : nat;
  vocabSize : Z;
  unknownTokens : nat
}.
Record t := {
  model : JSString;
  tokens : list Z;
  tokenStrings : list JSString;
  metadata : metadata_t
}.
End TokenizedTape.

(** The body of the inner [for] loop of [simulateTokenization]:
    [hash = ((hash << 5) - hash + emoji.charCodeAt(i)) & 0xffffffff]. *)
Definition hashStep (hash c : Z) : Z :=
  band (shl hash 5 - hash + c) 0xffffffff.

Definition hashEmoji (emoji : JSString) : Z := fold_left hashStep emoji 0.

(** [Math.abs(hash) % 50000]. *)
Definition tokenId (emoji : JSString) : Z := Z.rem (Z.abs (hashEmoji emoji)) 50000.

Definition simulateTokenization (tape modelName : JSString)
  : list Z * list JSString :=
  let emojis := codePoints tape in
  (map tokenId emojis, emojis).

(** ** Numbers *)

Module Num.

(** A number holding a length or an index. *)
Definition ofNat (n : nat) : float := PrimFloat.of_uint63 (Uint63.of_Z (Z.of_nat n)).

(** [ToBoolean] on numbers: [NaN], [+0] and [-0] are falsy. *)
Definition truthy (x : float) : bool := negb (PrimFloat.is_nan x || PrimFloat.is_zero x).

(** [x || d]. *)
Definition orElse (x d : float) : float := if truthy x then x else d.

(** A number that is an integer, [NaN] or an infinity: what [Math.floor]
    returns. An integer double is kept as the integer it is. *)
Inductive integral :=
  | INaN
  | IInf (negative : bool)
  | IInt (z : Z).

(** [Math.floor(x)]: a finite double is [(-1)^s * m * 2^e]. *)
Definition Math_floor (x : float) : integral :=
  match Prim2SF x with
  | S754_nan => INaN
  | S754_infinity s => IInf s
  | S754_zero _ => IInt 0
  | S754_finite s m e => IInt (Z.shiftl (cond_Zopp s (Z.pos m)) e)
  end.

(** [Math.max(a, y)] for an integer [a]. *)
Definition Math_max (a : Z) (y : integral) : integral :=
  match y with
  | INaN => INaN
  | IInf false => IInf false
  | IInf true => IInt a
  | IInt z => IInt (Z.max a z)
  end.

(** [Math.pow(x, 2)]: the square, rounded once. *)
Definition Math_pow2 (x : float) : float := PrimFloat.mul x x.

End Num.

(** ** Results of the sampler ([src/types/llm.ts]) *)

Module EmbeddingLayer.
Record t := {
  layerIndex : nat;
  embedding : list float;
  dimension : nat;
  norm : float
}.
End EmbeddingLayer.

Module LLMEmbeddings.
(** [hiddenSize] is declared a number; what [embedTape] stores there is the
    [length] property of a value of the provider, which can be [undefined]
    ([None]). *)
Record metadata_t := {
  totalLayers : nat;
  hiddenSize : option nat;
  processingTime : float
}.
Record t := {
  model : JSString;
  layers : list EmbeddingLayer.t;
  pooledEmbedding : list float;
  metadata : metadata_t
}.
End LLMEmbeddings.

(** [prime] and [rank] hold integers: a [prime] that is not one could not
    be [===] to a prime of the registry. *)
Module PrimeMappedEmbedding.
Record t := {
  prime : Z;
  emoji : JSString;
  activation : float;
  normalizedActivation : float;
  rank : Z
}.
Definition withRank (m : t) (r : Z) : t :=
  {| prime := prime m; emoji := emoji m; activation := activation m;
     normalizedActivation := normalizedActivation m; rank := r |}.
End PrimeMappedEmbedding.

Module GodelEncoding.
Record hierarchy_t := {
  size : nat;
  program : JSString;
  cycles : nat
}.
Record t := {
  tapeSegment : JSString;
  godelNumber : Z;
  primeMappings : list PrimeMappedEmbedding.t;
  hierarchy : hierarchy_t
}.
End GodelEncoding.

Module LLMSamplingResult.
Record universalAnchor_t := {
  prime2Activation : float;
  consistencyScore : float;
  semanticDrift : float
}.
Record t := {
  timestamp : Z;
  tape : JSString;
  tokenization : TokenizedTape.t;
  embeddings : LLMEmbeddings.t;
  primeMapping : list PrimeMappedEmbedding.t;
  godelEncoding : GodelEncoding.t;
  universalAnchor : universalAnchor_t
}.
End LLMSamplingResult.

(** What a call can throw. *)
Inductive Exn (E : Type) :=
  | ModelNotInitialized (modelName : JSString)
      (* tokenizeTape: "Model ... not initialized. Call initializeModel first." *)
  | ModelNotInitializedForEmbedding (modelName : JSString)
      (* embedTape: "Model ... not initialized for embedding." *)
  | ProviderError (e : E)
      (* whatever the embedding provider threw, rethrown unchanged *)
  | RangeError
      (* BigInt() of a number that is not an integer *)
  | TypeError.
      (* Array.from() of undefined or null *)
Arguments ModelNotInitialized {E}.
Arguments ModelNotInitializedForEmbedding {E}.
Arguments ProviderError {E}.
Arguments RangeError {E}.
Arguments TypeError {E}.

Definition isModelNotInitialized {E A} (r : Exn E + A) : bool :=
  match r with
  | inl (ModelNotInitialized _) | inl (ModelNotInitializedForEmbedding _) => true
  | _ => false
  end.

(** ** Pure parts of the sampler ([src/utils/llm-sampler.ts]) *)

(** [Array.prototype.sort(comparefn)]. The sort is stable (ECMAScript 2019),
    and an element [a] is placed after [b] only when [comparefn(a, b) > 0]; a
    [NaN] from the comparator counts as [+0]. For a consistent comparator this
    fixes the result, whatever the engine's algorithm; it is computed here by
    insertion from the right. *)
Fixpoint insert {A} (comparefn : A → A → float) (a : A) (l : list A) : list A :=
  match l with
  | [] => [a]
  | b :: l' =>
      if PrimFloat.ltb 0 (comparefn a b) then b :: insert comparefn a l'
      else a :: l
  end.

Definition sort {A} (comparefn : A → A → float) (l : list A) : list A :=
  fold_right (insert comparefn) [] l.

(** [reduceToPrimeDimensions]: chunk averaging. *)
Definition reduceToPrimeDimensions (embedding : list float) (targetDims : nat)
  : list float :=
  let chunkSize := (length embedding / targetDims)%nat in
  map (fun i =>
         let start := (i * chunkSize)%nat in
         let chunk := take chunkSize (drop start embedding) in
         PrimFloat.div (fold_left PrimFloat.add chunk 0%float)
                       (Num.ofNat (length chunk)))
      (seq 0 targetDims).

(** The comparator of [mapEmbeddingsToPrimes]:
    [(a, b) => Math.abs(b.normalizedActivation) - Math.abs(a.normalizedActivation)]. *)
Definition byStrength (a b : PrimeMappedEmbedding.t) : float :=
  PrimFloat.sub (PrimFloat.abs (PrimeMappedEmbedding.normalizedActivation b))
                (PrimFloat.abs (PrimeMappedEmbedding.normalizedActivation a)).

Section MapEmbeddingsToPrimes.

(** [Math.tanh], which ECMAScript leaves implementation-approximated. *)
Variable tanh : float → float.

Definition mapEmbeddingsToPrimes (embeddings : LLMEmbeddings.t)
  : list PrimeMappedEmbedding.t :=
  let pooled := LLMEmbeddings.pooledEmbedding embeddings in
  let primeCount := length INTRINSIC_PRIMES in
  let reducedDimensions := reduceToPrimeDimensions pooled primeCount in
  let mappings :=
    imap (fun index primeInfo =>
            let activation :=
              match reducedDimensions !! index with
              | Some v => Num.orElse v 0%float
              | None => 0%float
              end in
            {| PrimeMappedEmbedding.prime := EmojiPrimeMapping.prime primeInfo;
               PrimeMappedEmbedding.emoji := EmojiPrimeMapping.emoji primeInfo;
               PrimeMappedEmbedding.activation := activation;
               PrimeMappedEmbedding.normalizedActivation := tanh activation;
               PrimeMappedEmbedding.rank := Z.of_nat index |})
         INTRINSIC_PRIMES in
  imap (fun index mapping => PrimeMappedEmbedding.withRank mapping (Z.of_nat index + 1))
       (sort byStrength mappings).

End MapEmbeddingsToPrimes.

(** [new Map(INTRINSIC_PRIMES.map(p => [p.emoji, p.prime]))]: entries are set
    in order, a later one replacing an earlier one with the same key. *)
Definition primeMap : gmap JSString Z :=
  fold_left (fun m p => <[EmojiPrimeMapping.emoji p := EmojiPrimeMapping.prime p]> m)
            INTRINSIC_PRIMES ∅.

(** [Math.max(1, Math.floor(Math.abs(mapping.normalizedActivation) * 5))],
    or 1 when [find] returned [undefined]. *)
Definition exponentOf (mapping : option PrimeMappedEmbedding.t) : Num.integral :=
  match mapping with
  | Some m =>
      Num.Math_max 1
        (Num.Math_floor
           (PrimFloat.mul (PrimFloat.abs (PrimeMappedEmbedding.normalizedActivation m)) 5%float))
  | None => Num.IInt 1
  end.

(** [BigInt(x)] throws a [RangeError] unless [x] is an integer. *)
Definition BigInt {E} (x : Num.integral) : Exn E + Z :=
  match x with
  | Num.IInt z => inr z
  | _ => inl RangeError
  end.

(** [b ** e] on bigints, as ECMAScript defines it (BigInt::exponentiate): a
    [RangeError] for a negative exponent, the exact power otherwise. An
    engine also throws a [RangeError] for a power beyond its maximum bigint
    size (about a billion bits in V8); that limit is left out here, and the
    general statements conclude a return only where every exponent is at
    most 5. *)
Definition bigPow {E} (b e : Z) : Exn E + Z :=
  if e <? 0 then inl RangeError else inr (b ^ e).

(** One turn of the [for (const emoji of tapeSegment)] loop of
    [encodeAsGodel]. *)
Definition godelStep {E} (primeMappings : list PrimeMappedEmbedding.t)
    (godelNumber : Z) (emoji : JSString) : Exn E + Z :=
  match primeMap !! emoji with
  | Some prime =>
      if prime =? 0 then inr godelNumber
      else
        let mapping :=
          find (fun m => PrimeMappedEmbedding.prime m =? prime) primeMappings in
        match BigInt (exponentOf mapping) with
        | inl e => inl e
        | inr exponent =>
            match bigPow prime exponent with
            | inl e => inl e
            | inr f => inr (godelNumber * f)
            end
        end
  | None => inr godelNumber
  end.

Fixpoint godelLoop {E} (primeMappings : list PrimeMappedEmbedding.t)
    (emojis : list JSString) (godelNumber : Z) : Exn E + Z :=
  match emojis with
  | [] => inr godelNumber
  | emoji :: rest =>
      match godelStep primeMappings godelNumber emoji with
      | inl e => inl e
      | inr godelNumber' => godelLoop primeMappings rest godelNumber'
      end
  end.

Definition encodeAsGodel {E} (tapeSegment : JSString)
    (primeMappings : list PrimeMappedEmbedding.t) : Exn E + GodelEncoding.t :=
  match godelLoop primeMappings (codePoints tapeSegment) 1 with
  | inl e => inl e
  | inr godelNumber =>
      inr {| GodelEncoding.tapeSegment := tapeSegment;
             GodelEncoding.godelNumber := godelNumber;
             GodelEncoding.primeMappings := primeMappings;
             GodelEncoding.hierarchy :=
               {| GodelEncoding.size := length tapeSegment;
                  GodelEncoding.program := tapeSegment;
                  GodelEncoding.cycles := (length tapeSegment / 7)%nat |} |}
  end.

(** ** Display helpers ([src/components]) *)

(** [getPrimeForEmoji]: [INTRINSIC_PRIMES.find(p => p.emoji === emoji)]. *)
Definition getPrimeForEmoji (emoji : JSString) : option EmojiPrimeMapping.t :=
  find (fun p => bool_decide (EmojiPrimeMapping.emoji p = emoji)) INTRINSIC_PRIMES.

(** The [colorMap] of [getEmojiColor], an object with one class per prime
    (its keys are distinct). *)
Definition colorMap : gmap Z string :=
  list_to_map
    [ (2, "text-prime-2"); (3, "text-prime-3"); (5, "text-prime-5"); (7, "text-prime-7");
      (11, "text-prime-11"); (13, "text-prime-13"); (17, "text-prime-17");
      (19, "text-prime-19"); (23, "text-prime-23"); (29, "text-prime-29") ].

(** [getEmojiColor]; in [colorMap[prime] || 'text-foreground'] an empty
    string is falsy, as [undefined] is. *)
Definition getEmojiColor (emoji : JSString) : string :=
  match getPrimeForEmoji emoji with
  | None => "text-muted-foreground"
  | Some primeInfo =>
      match colorMap !! EmojiPrimeMapping.prime primeInfo with
      | Some color => if decide (color = "") then "text-foreground" else color
      | None => "text-foreground"
      end
  end.

(** [calculateGodelNumber]: the simplified Gödel number shown with the tape. *)
Definition calculateGodelNumber (tape : JSString) : Z :=
  fold_left (fun godel emoji =>
               match primeMap !! emoji with
               | Some prime => if prime =? 0 then godel else godel * prime
               | None => godel
               end)
            (codePoints (stripBars tape)) 1.

(** [getPrimeActivationColor]; the literals [0.7], [0.4] and [0.2] are the
    doubles nearest to them. *)
Definition getPrimeActivationColor (activation : float) : string :=
  let intensity := PrimFloat.abs activation in
  if PrimFloat.ltb 0x1.6666666666666p-1 intensity then "text-prime-23"
  else if PrimFloat.ltb 0x1.999999999999ap-2 intensity then "text-prime-7"
  else if PrimFloat.ltb 0x1.999999999999ap-3 intensity then "text-prime-3"
  else "text-muted-foreground".

(** [calculatePrime2Variance]. *)
Definition calculatePrime2Variance (results : list LLMSamplingResult.t) : float :=
  let activations :=
    map (fun r => LLMSamplingResult.prime2Activation (LLMSamplingResult.universalAnchor r))
        results in
  let mean :=
    PrimFloat.div (fold_left PrimFloat.add activations 0%float)
                  (Num.ofNat (length activations)) in
  let variance :=
    PrimFloat.div
      (fold_left (fun sum val => PrimFloat.add sum (Num.Math_pow2 (PrimFloat.sub val mean)))
                 activations 0%float)
      (Num.ofNat (length activations)) in
  variance.

(** ** What a pipeline gives *)

(** The value [embedTape] takes as the embedding. The code reads it with
    [Array.from] and [.length] only; where it has elements they are numbers,
    as the types of the code have them ([ArrayLike<number>], [number[]]). *)
Inductive Embedding :=
  | Undefined
      (* undefined or null *)
  | ANumber (x : float)
      (* a number *)
  | ArrayLike (items : list float).
      (* an Array or a typed array of numbers *)

(** The result of the awaited call of a pipeline: an Array of such values,
    for which [Array.isArray(result)] holds, or one such value that is not
    an Array. So [[[0.1, 0.2]]] is [AnArray [ArrayLike [0.1; 0.2]]], the
    plain [[0.1, 0.2]] is [AnArray [ANumber 0.1; ANumber 0.2]], and a
    [Float32Array] is [NotAnArray (ArrayLike _)]. *)
Inductive PipelineResult :=
  | AnArray (elements : list Embedding)
  | NotAnArray (value : Embedding).

(** [Array.from(v)] throws a [TypeError] on [undefined] and [null]. A number
    is not iterable and has no [length]: it gives the empty Array. *)
Definition Array_from {E} (v : Embedding) : Exn E + list float :=
  match v with
  | Undefined => inl TypeError
  | ANumber _ => inr []
  | ArrayLike items => inr items
  end.

(** [v.length] where [v] is not [undefined]: [undefined] for a number. *)
Definition lengthOf (v : Embedding) : option nat :=
  match v with
  | ArrayLike items => Some (length items)
  | _ => None
  end.

(** ** The sampler object ([class LLMEmojiSampler]) *)

Section Sampler.

(** The embedding provider (transformers.js). A loaded feature-extraction
    pipeline is an opaque handle; [run] is a call of it on a text with mean
    pooling and normalisation, giving a result or throwing.
    [random l i] is the draw of [Math.random()] for component [i] of layer
    [l], and [elapsed] the difference of the two [performance.now()]. *)
Context {Pipeline ProviderExn : Type}.
Variable run : Pipeline → JSString → ProviderExn + PipelineResult.
Variable random : nat → nat → float.
Variable elapsed : float.
Variable tanh : float → float.

Record LLMEmojiSampler := {
  tokenizers : gmap JSString Pipeline;
  embedders : gmap JSString Pipeline
}.

(** [new LLMEmojiSampler()]. *)
Definition emojiSampler : LLMEmojiSampler :=
  {| tokenizers := ∅; embedders := ∅ |}.

(** [initializeModel]; [loaded] is the outcome of the awaited [pipeline(...)]
    call. Both maps are set in the same turn, after the await. *)
Definition initializeModel (loaded : ProviderExn + Pipeline) (modelName : JSString)
    (this : LLMEmojiSampler) : (Exn ProviderExn + unit) * LLMEmojiSampler :=
  match loaded with
  | inl error => (inl (ProviderError error), this)
  | inr embedder =>
      (inr tt,
       {| tokenizers := <[modelName := embedder]> (tokenizers this);
          embedders := <[modelName := embedder]> (embedders this) |})
  end.

Definition tokenizeTape (this : LLMEmojiSampler) (modelName tape : JSString)
  : Exn ProviderExn + TokenizedTape.t :=
  match tokenizers this !! modelName with
  | None => inl (ModelNotInitialized modelName)
  | Some tokenizer =>
      let tokens := simulateTokenization tape modelName in
      inr {| TokenizedTape.model := modelName;
             TokenizedTape.tokens := fst tokens;
             TokenizedTape.tokenStrings := snd tokens;
             TokenizedTape.metadata :=
               {| TokenizedTape.sequenceLength := length (fst tokens);
                  TokenizedTape.vocabSize := 50000;
                  TokenizedTape.unknownTokens :=
                    length (List.filter (fun t => includes t (lit "[UNK]")) (snd tokens)) |} |}
  end.

(** [simulateLayerEmbeddings], after its first line: [pooledEmbedding] is
    given by the elements that [Array.from(pooledEmbedding)] reads off it;
    that call itself, which can throw, is made in [embedTape] below. *)
Definition simulateLayerEmbeddings (pooledEmbedding : list float) (modelName : JSString)
  : list EmbeddingLayer.t :=
  let embedding := pooledEmbedding in
  let layerCount :=
    if includes modelName (lit "bert") then 12%nat
    else if includes modelName (lit "gpt") then 12%nat else 6%nat in
  map (fun layerIndex =>
         let layerScale :=
           PrimFloat.div (Num.ofNat (layerIndex + 1)) (Num.ofNat layerCount) in
         let layerEmbedding :=
           imap (fun i val =>
                   PrimFloat.add (PrimFloat.mul val layerScale)
                     (PrimFloat.mul (PrimFloat.sub (random layerIndex i) 0x1p-1%float)
                                    0x1.999999999999ap-4%float))
                embedding in
         {| EmbeddingLayer.layerIndex := layerIndex;
            EmbeddingLayer.embedding := layerEmbedding;
            EmbeddingLayer.dimension := length embedding;
            EmbeddingLayer.norm :=
              PrimFloat.sqrt
                (fold_left (fun sum val => PrimFloat.add sum (PrimFloat.mul val val))
                           layerEmbedding 0%float) |})
      (seq 0 layerCount).

Definition embedTape (this : LLMEmojiSampler) (modelName tape : JSString)
  : Exn ProviderExn + LLMEmbeddings.t :=
  match embedders this !! modelName with
  | None => inl (ModelNotInitializedForEmbedding modelName)
  | Some embedder =>
      match run embedder tape with
      | inl error => inl (ProviderError error)
      | inr result =>
          let embeddings :=
            match result with
            | AnArray elements => elements
            | NotAnArray value => [value]
            end in
          let embedding := default Undefined (embeddings !! 0%nat) in
          (* [Array.from(pooledEmbedding)], first line of [simulateLayerEmbeddings];
             what it throws is caught, logged and thrown again *)
          match Array_from embedding with
          | inl error => inl error
          | inr items =>
              let layers := simulateLayerEmbeddings items modelName in
              inr {| LLMEmbeddings.model := modelName;
                     LLMEmbeddings.layers := layers;
                     LLMEmbeddings.pooledEmbedding := items;
                     LLMEmbeddings.metadata :=
                       {| LLMEmbeddings.totalLayers := length layers;
                          LLMEmbeddings.hiddenSize := lengthOf embedding;
                          LLMEmbeddings.processingTime := elapsed |} |}
          end
      end
  end.

(** [sampleTape]; [now] is [Date.now()]. *)
Definition sampleTape (loaded : ProviderExn + Pipeline) (now : Z)
    (modelName tape : JSString) (this : LLMEmojiSampler)
  : (Exn ProviderExn + LLMSamplingResult.t) * LLMEmojiSampler :=
  let '(initialized, this') :=
    match tokenizers this !! modelName, embedders this !! modelName with
    | Some _, Some _ => (inr tt, this)
    | _, _ => initializeModel loaded modelName this
    end in
  (match initialized with
   | inl e => inl e
   | inr _ =>
       match tokenizeTape this' modelName tape with
       | inl e => inl e
       | inr tokenization =>
           match embedTape this' modelName tape with
           | inl e => inl e
           | inr embeddings =>
               let primeMapping := mapEmbeddingsToPrimes tanh embeddings in
               match encodeAsGodel tape primeMapping with
               | inl e => inl e
               | inr godelEncoding =>
                   let prime2Mapping :=
                     find (fun m => PrimeMappedEmbedding.prime m =? 2) primeMapping in
                   let universalAnchor :=
                     {| LLMSamplingResult.prime2Activation :=
                          match prime2Mapping with
                          | Some m => Num.orElse (PrimeMappedEmbedding.activation m) 0%float
                          | None => 0%float
                          end;
                        LLMSamplingResult.consistencyScore :=
                          match prime2Mapping with
                          | Some m => PrimFloat.abs (PrimeMappedEmbedding.normalizedActivation m)
                          | None => 0%float
                          end;
                        LLMSamplingResult.semanticDrift := 0%float |} in
                   inr {| LLMSamplingResult.timestamp := now;
                          LLMSamplingResult.tape := tape;
                          LLMSamplingResult.tokenization := tokenization;
                          LLMSamplingResult.embeddings := embeddings;
                          LLMSamplingResult.primeMapping := primeMapping;
                          LLMSamplingResult.godelEncoding := godelEncoding;
                          LLMSamplingResult.universalAnchor := universalAnchor |}
               end
           end
       end
   end, this').

(** The calls that change the sampler: every [initializeModel], direct or
    through [sampleTape], with the outcome of its [pipeline(...)] call. *)
Definition runInits (calls : list (JSString * (ProviderExn + Pipeline)))
    (this : LLMEmojiSampler) : LLMEmojiSampler :=
  fold_left (fun s call => snd (initializeModel (snd call) (fst call) s)) calls this.

(** [initializeModel(modelName)] has completed in [calls]. *)
Definition completed (calls : list (JSString * (ProviderExn + Pipeline)))
    (modelName : JSString) : Prop :=
  ∃ embedder, (modelName, inr embedder) ∈ calls.

End Sampler.

(** ** Notions used to state the properties *)

(** The tokenizer's hash in the words of the specification: start at 0 and,
    for every code unit [c], take [(h << 5) - h + c] wrapped to a signed
    32-bit integer. *)
Definition wrapSigned32 (n : Z) : Z := (n + 2 ^ 31) mod 2 ^ 32 - 2 ^ 31.

Definition rollingHash (glyph : JSString) : Z :=
  fold_left (fun h c => wrapSigned32 (Z.shiftl h 5 - h + c)) glyph 0.

(** A code point that is a glyph of the registry. *)
Definition isRegistryGlyph (glyph : JSString) : bool :=
  existsb (fun p => bool_decide (EmojiPrimeMapping.emoji p = glyph)) INTRINSIC_PRIMES.

(** The number of code points of a string, and how many of them take two
    code units (surrogate pairs, as every glyph of the registry does). *)
Definition codePointLength (s : JSString) : nat := length (codePoints s).

Definition surrogatePairs (s : JSString) : nat :=
  length (List.filter (fun cp => (length cp =? 2)%nat) (codePoints s)).

(** Well-formed UTF-16: no code point is an unpaired surrogate. *)
Definition loneSurrogate (cp : JSString) : bool :=
  match cp with
  | [c] => isHighSurrogate c || isLowSurrogate c
  | _ => false
  end.

Definition wellFormed (s : JSString) : bool :=
  forallb (fun cp => negb (loneSurrogate cp)) (codePoints s).

(** The entry's normalizedActivation is within [-1, 1], as the values of
    [tanh] are. *)
Definition withinOne (m : PrimeMappedEmbedding.t) : Prop :=
  PrimFloat.leb (PrimFloat.abs (PrimeMappedEmbedding.normalizedActivation m)) 1 = true.

(** The value of a pipeline result that [embedTape] takes as the embedding:
    the first element of an Array ([undefined] when it has none), and
    otherwise the result itself. *)
Definition embeddingOf (result : PipelineResult) : Embedding :=
  match result with
  | AnArray [] => Undefined
  | AnArray (first :: _) => first
  | NotAnArray value => value
  end.

(** The outcome of [encodeAsGodel] as far as the Gödel number goes: the
    number, or what was thrown. *)
Definition godelOutcome {E} (r : Exn E + GodelEncoding.t) : Exn E + Z :=
  match r with
  | inl e => inl e
  | inr g => inr (GodelEncoding.godelNumber g)
  end.

(** The position of a prime in the registry (its length for a stranger). *)
Definition registryIndex (prime : Z) : nat :=
  match list_find (fun p => EmojiPrimeMapping.prime p = prime) INTRINSIC_PRIMES with
  | Some (i, _) => i
  | None => length INTRINSIC_PRIMES
  end.

(** Population variance in the words of the specification, in double
    arithmetic: sums run left to right from 0, the mean is [Σx / N] and the
    result [Σ(x - mean)² / N]. *)
Definition sumOf (xs : list float) : float := fold_left PrimFloat.add xs 0%float.

Definition meanOf (xs : list float) : float :=
  PrimFloat.div (sumOf xs) (Num.ofNat (length xs)).

Definition populationVariance (xs : list float) : float :=
  let mean := meanOf xs in
  PrimFloat.div
    (sumOf (map (fun x => PrimFloat.mul (PrimFloat.sub x mean) (PrimFloat.sub x mean)) xs))
    (Num.ofNat (length xs)).

Definition prime2Activations (results : list LLMSamplingResult.t) : list float :=
  map (fun r => LLMSamplingResult.prime2Activation (LLMSamplingResult.universalAnchor r))
      results.

(** A UTF-16 code unit. *)
Definition codeUnit (c : Z) : Prop := 0 ≤ c < 65536.

(** The hash of a glyph without any wrap-around: the polynomial in 31 of
    its code units. *)
Definition polynomialHash (glyph : JSString) : Z :=
  fold_left (fun h c => 31 * h + c) glyph 0.

(** The pipeline of the latest call of [initializeModel(modelName)] that
    has completed, if any. *)
Definition lastLoaded {Pipeline ProviderExn : Type}
    (calls : list (JSString * (ProviderExn + Pipeline))) (modelName : JSString)
  : option Pipeline :=
  fold_left (fun found call =>
               match snd call with
               | inr embedder => if decide (fst call = modelName) then Some embedder else found
               | inl _ => found
               end) calls None.

(** The sampler holds a tokenizer and an embedder for the model. *)
Definition registered {Pipeline : Type} (this : @LLMEmojiSampler Pipeline)
    (modelName : JSString) : Prop :=
  is_Some (tokenizers this !! modelName) ∧ is_Some (embedders this !! modelName).

(** The pipeline [sampleTape] embeds with: the embedder the sampler holds
    for the model or, when the model is not registered, what loading it
    gives. *)
Definition pipelineFor {Pipeline ProviderExn : Type} (loaded : ProviderExn + Pipeline)
    (modelName : JSString) (this : @LLMEmojiSampler Pipeline) : ProviderExn + Pipeline :=
  match tokenizers this !! modelName, embedders this !! modelName with
  | Some _, Some embedder => inr embedder
  | _, _ => loaded
  end.

(** A prime-mapped entry without its rank. *)
Definition entryOf (m : PrimeMappedEmbedding.t) : Z * JSString * float * float :=
  (PrimeMappedEmbedding.prime m, PrimeMappedEmbedding.emoji m,
   PrimeMappedEmbedding.activation m, PrimeMappedEmbedding.normalizedActivation m).

(** The floor of the exact product [5 * abs(a)] of a finite double [a],
    which is [m * 2^e] up to sign. *)
Definition exactFloor5 (a : float) : Z :=
  match Prim2SF a with
  | S754_finite _ m e => Z.shiftl (5 * Z.pos m) e
  | _ => 0
  end.

(** [segments.join('|')]. *)
Definition joinBars (segments : list JSString) : JSString :=
  match segments with
  | [] => []
  | segment :: rest => segment ++ concat (map (cons 124) rest)
  end.

(** How often a glyph occurs in a list of code points. *)
Definition occurrences (glyph : JSString) (glyphs : list JSString) : nat :=
  length (filter (fun g => g = glyph) glyphs).

Definition productZ (factors : list Z) : Z := fold_right Z.mul 1 factors.

(** The classes of [getPrimeActivationColor] from the coolest to the
    hottest. *)
Definition heat (class : string) : nat :=
  if decide (class = "text-prime-23") then 3
  else if decide (class = "text-prime-7") then 2
  else if decide (class = "text-prime-3") then 1
  else 0.

(** ** Notions used in the proofs *)

(** What one code point multiplies into the Gödel number: [None] when the
    conversion of its exponent throws. *)
Definition factorOf (primeMappings : list PrimeMappedEmbedding.t) (glyph : JSString)
  : option Z :=
  match primeMap !! glyph with
  | Some prime =>
      if prime =? 0 then Some 1
      else
        match exponentOf (find (fun m => PrimeMappedEmbedding.prime m =? prime) primeMappings) with
        | Num.IInt e => if e <? 0 then None else Some (prime ^ e)
        | _ => None
        end
  | None => Some 1
  end.

Fixpoint productOf (primeMappings : list PrimeMappedEmbedding.t) (glyphs : list JSString)
  : option Z :=
  match glyphs with
  | [] => Some 1
  | glyph :: rest =>
      match factorOf primeMappings glyph, productOf primeMappings rest with
      | Some f, Some P => Some (f * P)
      | _, _ => None
      end
  end.

(** What one code point multiplies into the display's Gödel number, and the
    product over a list of code points. *)
Definition displayFactor (glyph : JSString) : Z :=
  match primeMap !! glyph with
  | Some prime => if prime =? 0 then 1 else prime
  | None => 1
  end.

Definition displayProduct (glyphs : list JSString) : Z :=
  fold_right (fun glyph P => displayFactor glyph * P) 1 glyphs.

(** The entry built by the callback of [INTRINSIC_PRIMES.map] in
    [mapEmbeddingsToPrimes], and the activation it reads. *)
Definition activationAt (reducedDimensions : list float) (index : nat) : float :=
  match reducedDimensions !! index with
  | Some v => Num.orElse v 0%float
  | None => 0%float
  end.

Definition mappingAt (tanh : float → float) (activation : float) (index : nat)
    (primeInfo : EmojiPrimeMapping.t) : PrimeMappedEmbedding.t :=
  {| PrimeMappedEmbedding.prime := EmojiPrimeMapping.prime primeInfo;
     PrimeMappedEmbedding.emoji := EmojiPrimeMapping.emoji primeInfo;
     PrimeMappedEmbedding.activation := activation;
     PrimeMappedEmbedding.normalizedActivation := tanh activation;
     PrimeMappedEmbedding.rank := Z.of_nat index |}.

(** The entry's normalizedActivation is a number. *)
Definition notNaN (m : PrimeMappedEmbedding.t) : Prop :=
  PrimFloat.is_nan (PrimeMappedEmbedding.normalizedActivation m) = false.

(** The order a stable descending sort leaves a list in: larger keys first
    and, among equal keys, smaller original index first. *)
Definition sortedBefore {A} (key idx : A → Z) (a b : A) : Prop :=
  key b < key a ∨ (key a = key b ∧ idx a < idx b).

(** The magnitude of a double as an integer: a finite double is a multiple
    of [2^-1074]; the infinities sit above every finite one. *)
Definition magnitude (x : spec_float) : Z :=
  match x with
  | S754_zero _ | S754_nan => 0
  | S754_infinity _ => 2 ^ 2100
  | S754_finite _ m e => Z.pos m * 2 ^ (e + 1074)
  end.

(** The strength an entry is ranked by, [abs(normalizedActivation)], as the
    integer [magnitude] of that double. *)
Definition strengthOf (m : PrimeMappedEmbedding.t) : Z :=
  magnitude (SFabs (Prim2SF (PrimeMappedEmbedding.normalizedActivation m))).

(** Not a [NaN], and sign bit clear unless a zero. *)
Definition isUnsigned (x : spec_float) : bool :=
  match x with
  | S754_nan => false
  | S754_zero _ => true
  | S754_infinity s | S754_finite s _ _ => negb s
  end.

(** A non-zero double of sign [s]. *)
Definition hasSign (s : bool) (r : spec_float) : Prop :=
  match r with
  | S754_finite s' _ _ | S754_infinity s' => s' = s
  | _ => False
  end.

(** The second rounding step of [binary_round_aux], which renormalises the
    mantissa after the first one has rounded it. *)
Definition roundFinish (s : bool) (m : Z) (e : Z) : spec_float :=
  let '(mrs, e') := shr_fexp prec emax m e loc_Exact in
  match shr_m mrs with
  | Z0 => S754_zero s
  | Z.pos m' => if e' <=? emax - prec then S754_finite s m' e' else S754_infinity s
  | Z.neg _ => S754_nan
  end.

(** A nonnegative finite double whose floor is at most [B]. *)
Definition flooredAtMost (B : Z) (r : spec_float) : Prop :=
  match r with
  | S754_zero _ => True
  | S754_finite s m e => s = false ∧ Z.shiftl (Z.pos m) e ≤ B
  | _ => False
  end.

(** A positive finite double whose floor is at least [B]. *)
Definition flooredAtLeast (B : Z) (r : spec_float) : Prop :=
  match r with
  | S754_finite s m e => s = false ∧ B ≤ Z.shiftl (Z.pos m) e
  | _ => False
  end.

(** A [NaN], or a double with sign bit [s]. *)
Definition signIs (s : bool) (r : spec_float) : Prop :=
  match r with
  | S754_nan => True
  | S754_zero s' | S754_infinity s' | S754_finite s' _ _ => s' = s
  end.

(** The exponent the encoder gives a prime: that of its first entry in the
    list, 1 without one. *)
Definition exponentFor (primeMappings : list PrimeMappedEmbedding.t) (prime : Z) : Z :=
  match exponentOf (find (fun m => PrimeMappedEmbedding.prime m =? prime) primeMappings) with
  | Num.IInt e => e
  | _ => 1
  end.

(** The factor of a glyph when every registry prime [p] comes with the
    exponent [expo p], the product of these factors over a list of glyphs,
    and the same product collected prime by prime. *)
Definition weightOf (expo : Z → Z) (registry : list EmojiPrimeMapping.t) (glyph : JSString)
  : Z :=
  match find (fun p => bool_decide (EmojiPrimeMapping.emoji p = glyph)) registry with
  | Some p => EmojiPrimeMapping.prime p ^ expo (EmojiPrimeMapping.prime p)
  | None => 1
  end.

Definition weightProduct (expo : Z → Z) (glyphs : list JSString) : Z :=
  fold_right (fun glyph P => weightOf expo INTRINSIC_PRIMES glyph * P) 1 glyphs.

Definition registryPower (expo : Z → Z) (glyphs : list JSString)
    (registry : list EmojiPrimeMapping.t) : Z :=
  fold_right (fun p P =>
                EmojiPrimeMapping.prime p
                ^ (expo (EmojiPrimeMapping.prime p)
                   * Z.of_nat (occurrences (EmojiPrimeMapping.emoji p) glyphs)) * P)
             1 registry.

(** ** Examples *)

(** A stand-in for [Math.tanh] to run the model on examples: the identity
    on [-1, 1], which has the exact values ECMAScript fixes ([tanh(±0) = ±0],
    [tanh(±∞) = ±1], [tanh(NaN) = NaN]). *)
Definition tanhStub (x : float) : float :=
  if PrimFloat.ltb x (-1)%float then (-1)%float
  else if PrimFloat.ltb 1%float x then 1%float
  else x.

(** An embedding result with a given pooled vector and no layers. *)
Definition embeddingsOf (pooled : list float) : LLMEmbeddings.t :=
  {| LLMEmbeddings.model := [];
     LLMEmbeddings.layers := [];
     LLMEmbeddings.pooledEmbedding := pooled;
     LLMEmbeddings.metadata :=
       {| LLMEmbeddings.totalLayers := 0;
          LLMEmbeddings.hiddenSize := Some (length pooled);
          LLMEmbeddings.processingTime := 0%float |} |}.

(** A pooled vector for examples: ten components, one per prime, with ties
    and values beyond 1. *)
Definition examplePooled : list float :=
  [1; -2; 0x1p-1; 0x1p-2; -0x1.8p-1; 3; 0; -0x1p-3; 0x1p-1; 0x1p-1]%float.

(** A provider for examples: every pipeline loads and gives, for every
    text, an Array that holds the same pooled vector. *)
Definition constantProvider {E} (pooled : list float) (embedder : unit) (text : JSString)
  : E + PipelineResult :=
  inr (AnArray [ArrayLike pooled]).

(** [sampleTape] of the default tape on a fresh sampler with that provider
    (no noise in the layers, no time elapsed, [Date.now()] at 0). *)
Definition sampleWith (pooled : list float) (modelName : string)
  : Exn Empty_set + LLMSamplingResult.t :=
  fst (sampleTape (constantProvider (E := Empty_set) pooled) (fun _ _ => 0x1p-1%float)
                  0%float tanhStub (inr tt) 0 (lit modelName) EMOJI_BLOCK_TAPE emojiSampler).
(** ** The tokenizer *)

Lemma ToInt32_wrapSigned32 n : ToInt32 n = wrapSigned32 n.
Proof.
  unfold ToInt32, wrapSigned32. cbv zeta.
  destruct (Z.ltb_spec (n mod 2 ^ 32) (2 ^ 31)); Z.div_mod_to_equations; lia.
Qed.

Lemma ToInt32_mod n : ToInt32 n mod 2 ^ 32 = n mod 2 ^ 32.
Proof.
  unfold ToInt32. cbv zeta.
  destruct (Z.ltb_spec (n mod 2 ^ 32) (2 ^ 31)); Z.div_mod_to_equations; lia.
Qed.

Lemma ToInt32_congr a b : a mod 2 ^ 32 = b mod 2 ^ 32 → ToInt32 a = ToInt32 b.
Proof. unfold ToInt32. now intros ->. Qed.

Lemma hashStep_spec h c : hashStep h c = wrapSigned32 (Z.shiftl h 5 - h + c).
Proof.
  unfold hashStep, band, shl.
  change (ToInt32 4294967295) with (-1). rewrite Z.land_m1_r.
  rewrite <- ToInt32_wrapSigned32. apply ToInt32_congr.
  change (5 mod 32) with 5. rewrite !Z.shiftl_mul_pow2 by lia.
  rewrite <- Z.add_sub_swap, Zminus_mod, Zplus_mod, ToInt32_mod.
  rewrite (Zmult_mod (ToInt32 h)), ToInt32_mod, <- Zmult_mod.
  rewrite <- Zplus_mod, <- Zminus_mod. f_equal. lia.
Qed.

Lemma hashEmoji_spec glyph : hashEmoji glyph = rollingHash glyph.
Proof.
  unfold hashEmoji, rollingHash. generalize 0.
  induction glyph as [|c glyph IH]; intros h; simpl; [reflexivity|].
  rewrite hashStep_spec. apply IH.
Qed.

Lemma tokenId_spec glyph : tokenId glyph = Z.abs (rollingHash glyph) mod 50000.
Proof.
  unfold tokenId. rewrite hashEmoji_spec. apply Z.rem_mod_nonneg; lia.
Qed.

(** ** The initialisation cache *)

Section Cache.
Context {Pipeline ProviderExn : Type}.
Implicit Types (calls : list (JSString * (ProviderExn + Pipeline))).
Implicit Types (this : @LLMEmojiSampler Pipeline).
Implicit Types (loaded : ProviderExn + Pipeline).

Lemma initializeModel_tokenizers loaded name this modelName :
  is_Some (tokenizers (snd (initializeModel loaded name this)) !! modelName)
  ↔ (name = modelName ∧ ∃ p, loaded = inr p) ∨ is_Some (tokenizers this !! modelName).
Proof.
  destruct loaded as [e|p]; simpl.
  - split; [auto|]. intros [[_ [p Hp]]|H]; [discriminate|exact H].
  - rewrite lookup_insert_is_Some. split.
    + intros [->|[_ H]]; eauto.
    + intros [[-> _]|H]; [auto|]. destruct (decide (name = modelName)); auto.
Qed.

Lemma initializeModel_embedders loaded name this modelName :
  is_Some (embedders (snd (initializeModel loaded name this)) !! modelName)
  ↔ (name = modelName ∧ ∃ p, loaded = inr p) ∨ is_Some (embedders this !! modelName).
Proof.
  destruct loaded as [e|p]; simpl.
  - split; [auto|]. intros [[_ [p Hp]]|H]; [discriminate|exact H].
  - rewrite lookup_insert_is_Some. split.
    + intros [->|[_ H]]; eauto.
    + intros [[-> _]|H]; [auto|]. destruct (decide (name = modelName)); auto.
Qed.

Lemma completed_cons name loaded calls modelName :
  completed ((name, loaded) :: calls) modelName
  ↔ (name = modelName ∧ ∃ p, loaded = inr p) ∨ completed calls modelName.
Proof.
  unfold completed. split.
  - intros [p Hp]. apply elem_of_cons in Hp as [Hp|Hp].
    + inversion Hp; subst. left. eauto.
    + right. eauto.
  - intros [[-> [p ->]]|[p Hp]]; exists p.
    + apply elem_of_cons. now left.
    + apply elem_of_cons. now right.
Qed.

Lemma runInits_tokenizers calls this modelName :
  is_Some (tokenizers (runInits calls this) !! modelName)
  ↔ completed calls modelName ∨ is_Some (tokenizers this !! modelName).
Proof.
  revert this. induction calls as [|[name loaded] calls IH]; intros this.
  - simpl. split; [auto|]. intros [[p Hp]|H]; [|exact H].
    now apply elem_of_nil in Hp.
  - change (runInits ((name, loaded) :: calls) this)
      with (runInits calls (snd (initializeModel loaded name this))).
    rewrite IH, initializeModel_tokenizers, completed_cons. tauto.
Qed.

Lemma runInits_embedders calls this modelName :
  is_Some (embedders (runInits calls this) !! modelName)
  ↔ completed calls modelName ∨ is_Some (embedders this !! modelName).
Proof.
  revert this. induction calls as [|[name loaded] calls IH]; intros this.
  - simpl. split; [auto|]. intros [[p Hp]|H]; [|exact H].
    now apply elem_of_nil in Hp.
  - change (runInits ((name, loaded) :: calls) this)
      with (runInits calls (snd (initializeModel loaded name this))).
    rewrite IH, initializeModel_embedders, completed_cons. tauto.
Qed.

(** From a fresh sampler, a model has a tokenizer (an embedder) exactly when
    one of its initialisations has completed. *)
Lemma tokenizer_iff_completed calls modelName :
  is_Some (tokenizers (runInits calls emojiSampler) !! modelName)
  ↔ completed calls modelName.
Proof.
  rewrite runInits_tokenizers. simpl. rewrite lookup_empty.
  split; [intros [H|[? ?]]; [exact H|discriminate]|auto].
Qed.

Lemma embedder_iff_completed calls modelName :
  is_Some (embedders (runInits calls emojiSampler) !! modelName)
  ↔ completed calls modelName.
Proof.
  rewrite runInits_embedders. simpl. rewrite lookup_empty.
  split; [intros [H|[? ?]]; [exact H|discriminate]|auto].
Qed.

Lemma tokenizeTape_initialized this modelName tape :
  is_Some (tokenizers this !! modelName) →
  tokenizeTape (ProviderExn := ProviderExn) this modelName tape
  = inr {| TokenizedTape.model := modelName;
           TokenizedTape.tokens := map tokenId (codePoints tape);
           TokenizedTape.tokenStrings := codePoints tape;
           TokenizedTape.metadata :=
             {| TokenizedTape.sequenceLength := length (map tokenId (codePoints tape));
                TokenizedTape.vocabSize := 50000;
                TokenizedTape.unknownTokens :=
                  length (List.filter (fun t => includes t (lit "[UNK]"))
                                      (codePoints tape)) |} |}.
Proof. intros [p Hp]. unfold tokenizeTape. now rewrite Hp. Qed.

(** C5. Once [initializeModel] has completed for a model, [tokenizeTape]
    returns one token id per code point of the tape, in iteration order and
    with the separator included; the id of a glyph is [abs(h) mod 50000] for
    the rolling hash [h] of its UTF-16 code units; [sequenceLength] is the
    number of code points; and the ids depend on the tape only, not on the
    model or the state of the sampler. *)
Theorem tokenizeTape_rolling_hash calls modelName tape :
  completed calls modelName →
  ∃ r, tokenizeTape (ProviderExn := ProviderExn) (runInits calls emojiSampler) modelName tape = inr r
    ∧ TokenizedTape.tokens r
      = map (fun glyph => Z.abs (rollingHash glyph) mod 50000) (codePoints tape)
    ∧ TokenizedTape.tokenStrings r = codePoints tape
    ∧ TokenizedTape.sequenceLength (TokenizedTape.metadata r) = length (codePoints tape)
    ∧ ∀ this' modelName' r',
        tokenizeTape (ProviderExn := ProviderExn) this' modelName' tape = inr r' →
        TokenizedTape.tokens r' = TokenizedTape.tokens r.
Proof.
  intros Hc. apply tokenizer_iff_completed in Hc.
  eexists. split; [apply (tokenizeTape_initialized _ _ _ Hc)|]. simpl.
  assert (Hmap : map tokenId (codePoints tape)
                 = map (fun glyph => Z.abs (rollingHash glyph) mod 50000) (codePoints tape)).
  { apply map_ext. intros glyph. apply tokenId_spec. }
  repeat split.
  - exact Hmap.
  - now rewrite length_map.
  - intros this' modelName' r' Hr'. unfold tokenizeTape in Hr'.
    destruct (tokenizers this' !! modelName'); [|discriminate].
    inversion Hr'; subst; reflexivity.
Qed.

Section Embedder.
Variable run : Pipeline → JSString → ProviderExn + PipelineResult.
Variable random : nat → nat → float.
Variable elapsed : float.

Lemma tokenizeTape_not_initialized this modelName tape :
  isModelNotInitialized (tokenizeTape (ProviderExn := ProviderExn) this modelName tape) = true
  ↔ ¬ is_Some (tokenizers this !! modelName).
Proof.
  unfold tokenizeTape. destruct (tokenizers this !! modelName) as [p|]; simpl.
  - split; [discriminate|]. intros H. destruct H. eauto.
  - split; [|reflexivity]. intros _ [? ?]. discriminate.
Qed.

Lemma embedTape_not_initialized this modelName tape :
  isModelNotInitialized (embedTape run random elapsed this modelName tape) = true
  ↔ ¬ is_Some (embedders this !! modelName).
Proof.
  unfold embedTape. destruct (embedders this !! modelName) as [p|]; simpl.
  - split; [|intros H; destruct H; eauto].
    destruct (run p tape) as [error|result]; [discriminate|].
    now destruct (default Undefined _).
  - split; [|reflexivity]. intros _ [? ?]. discriminate.
Qed.

(** C6. On a sampler that started fresh, [tokenizeTape] and [embedTape]
    throw their model-not-initialized error exactly when no [initializeModel]
    for that model has completed; for an initialised model [tokenizeTape]
    returns, and [embedTape] returns, rethrows the provider's own error, or
    throws the [TypeError] of [Array.from] when the provider's result holds
    no embedding. *)
Theorem not_initialized_iff calls modelName tape :
  let this := runInits calls emojiSampler in
  (isModelNotInitialized (tokenizeTape (ProviderExn := ProviderExn) this modelName tape) = true
   ↔ ¬ completed calls modelName)
  ∧ (isModelNotInitialized (embedTape run random elapsed this modelName tape) = true
     ↔ ¬ completed calls modelName)
  ∧ (completed calls modelName →
     (∃ r, tokenizeTape (ProviderExn := ProviderExn) this modelName tape = inr r)
     ∧ ((∃ r, embedTape run random elapsed this modelName tape = inr r)
        ∨ (∃ e, embedTape run random elapsed this modelName tape = inl (ProviderError e))
        ∨ embedTape run random elapsed this modelName tape = inl TypeError)).
Proof.
  intros this. subst this. split; [|split].
  - rewrite tokenizeTape_not_initialized, tokenizer_iff_completed. tauto.
  - rewrite embedTape_not_initialized, embedder_iff_completed. tauto.
  - intros Hc. split.
    + apply tokenizer_iff_completed in Hc.
      eexists. apply (tokenizeTape_initialized _ _ _ Hc).
    + apply embedder_iff_completed in Hc. destruct Hc as [p Hp].
      unfold embedTape. rewrite Hp. destruct (run p tape) as [error|result]; [eauto|].
      cbv zeta. destruct (default Undefined _); cbn [Array_from]; eauto.
Qed.

End Embedder.
End Cache.

(** C6 after one completed and one failed initialisation. *)
Lemma not_initialized_iff_witness :
  let calls : list (JSString * (unit + unit)) :=
    [(lit "Xenova/gpt2", inr tt); (lit "Xenova/bert-base-uncased", inl tt)] in
  let this := runInits calls emojiSampler in
  completed calls (lit "Xenova/gpt2")
  ∧ ¬ completed calls (lit "Xenova/bert-base-uncased")
  ∧ isModelNotInitialized
      (tokenizeTape (ProviderExn := unit) this (lit "Xenova/gpt2") EMOJI_BLOCK_TAPE) = false
  ∧ isModelNotInitialized
      (tokenizeTape (ProviderExn := unit) this (lit "Xenova/bert-base-uncased")
                    EMOJI_BLOCK_TAPE) = true
  ∧ isModelNotInitialized
      (embedTape (constantProvider (E := unit) examplePooled) (fun _ _ => 0x1p-1%float) 0%float this
                 (lit "Xenova/bert-base-uncased") EMOJI_BLOCK_TAPE) = true.
Proof.
  cbv zeta.
  set (calls := [(lit "Xenova/gpt2", inr tt); (lit "Xenova/bert-base-uncased", inl tt)]
                : list (JSString * (unit + unit))).
  assert (Hc : completed calls (lit "Xenova/gpt2")).
  { exists tt. apply list_elem_of_here. }
  assert (Hn : ¬ completed calls (lit "Xenova/bert-base-uncased")).
  { intros [p Hp]. subst calls.
    apply elem_of_cons in Hp as [Hp|Hp]; [discriminate|].
    apply elem_of_cons in Hp as [Hp|Hp]; [discriminate|].
    now apply elem_of_nil in Hp. }
  split; [exact Hc|]. split; [exact Hn|]. split; [reflexivity|].
  destruct (not_initialized_iff (constantProvider (E := unit) examplePooled) (fun _ _ => 0x1p-1%float)
              0%float calls (lit "Xenova/bert-base-uncased") EMOJI_BLOCK_TAPE)
    as (Htok & Hemb & _).
  split; [now apply Htok|now apply Hemb].
Defined.

(** C5 on the default tape, for a model initialised once. *)
Lemma tokenizeTape_rolling_hash_witness :
  let calls : list (JSString * (Empty_set + unit)) := [(lit "Xenova/gpt2", inr tt)] in
  completed calls (lit "Xenova/gpt2")
  ∧ ∃ r, tokenizeTape (ProviderExn := Empty_set) (runInits calls emojiSampler)
                      (lit "Xenova/gpt2") EMOJI_BLOCK_TAPE = inr r
         ∧ TokenizedTape.tokens r
           = [23074; 23293; 22677; 23302; 23306; 23307; 22607; 124; 23074; 23307;
              22910; 23302; 22607; 124; 23074; 23306; 22677; 23299; 23302; 22607; 23027]
         ∧ TokenizedTape.sequenceLength (TokenizedTape.metadata r) = 21%nat.
Proof.
  cbv zeta.
  assert (Hc : completed (Pipeline := unit) (ProviderExn := Empty_set)
                 [(lit "Xenova/gpt2", inr tt)] (lit "Xenova/gpt2")).
  { exists tt. apply list_elem_of_here. }
  split; [exact Hc|].
  destruct (tokenizeTape_rolling_hash _ _ EMOJI_BLOCK_TAPE Hc) as (r & Hr & Htok & _ & Hlen & _).
  exists r. split; [exact Hr|]. split; [rewrite Htok; reflexivity|rewrite Hlen; reflexivity].
Defined.

(** ** Strings and code points *)

Lemma codePoints_ind (P : list Z → Prop) :
  P [] →
  (∀ c, P [c]) →
  (∀ c d rest, isHighSurrogate c && isLowSurrogate d = true →
               P rest → P (c :: d :: rest)) →
  (∀ c d rest, isHighSurrogate c && isLowSurrogate d = false →
               P (d :: rest) → P (c :: d :: rest)) →
  ∀ s, P s.
Proof.
  intros Hnil Hone Hpair Hsingle s.
  assert (H : ∀ n (s : list Z), (length s ≤ n)%nat → P s).
  { induction n as [|n IH]; intros [|c [|d rest]] Hlen; simpl in Hlen; auto; try lia.
    destruct (isHighSurrogate c && isLowSurrogate d) eqn:Hcd.
    - apply Hpair; [exact Hcd|]. apply IH. lia.
    - apply Hsingle; [exact Hcd|]. apply IH. simpl. lia. }
  apply (H (length s)). lia.
Qed.

Lemma codePoints_pair c d rest :
  isHighSurrogate c && isLowSurrogate d = true →
  codePoints (c :: d :: rest) = [c; d] :: codePoints rest.
Proof. intros H. simpl. now rewrite H. Qed.

Lemma codePoints_single c d rest :
  isHighSurrogate c && isLowSurrogate d = false →
  codePoints (c :: d :: rest) = [c] :: codePoints (d :: rest).
Proof. intros H. cbn [codePoints]. now rewrite H. Qed.

(** The code points of a string are a partition of its code units. *)
Lemma codePoints_concat s : concat (codePoints s) = s.
Proof.
  induction s as [|c|c d rest Hcd IH|c d rest Hcd IH] using codePoints_ind.
  - reflexivity.
  - reflexivity.
  - rewrite codePoints_pair by exact Hcd. simpl. now rewrite IH.
  - rewrite codePoints_single by exact Hcd.
    change (concat ([c] :: codePoints (d :: rest)))
      with (c :: concat (codePoints (d :: rest))).
    now rewrite IH.
Qed.

Lemma length_codePoints s :
  length s = (codePointLength s + surrogatePairs s)%nat.
Proof.
  unfold codePointLength, surrogatePairs.
  induction s as [|c|c d rest Hcd IH|c d rest Hcd IH] using codePoints_ind.
  - reflexivity.
  - reflexivity.
  - rewrite codePoints_pair by exact Hcd. simpl. lia.
  - rewrite codePoints_single by exact Hcd.
    cbn [length List.filter Nat.eqb]. cbn [length] in IH. lia.
Qed.

(** ** The registry and its map *)

Lemma fold_insert_lookup_ne (l : list EmojiPrimeMapping.t) (m : gmap JSString Z) glyph :
  Forall (fun p => EmojiPrimeMapping.emoji p ≠ glyph) l →
  fold_left (fun m p => <[EmojiPrimeMapping.emoji p := EmojiPrimeMapping.prime p]> m) l m
    !! glyph
  = m !! glyph.
Proof.
  intros HF. revert m. induction HF as [|p l Hp _ IH]; intros m; [reflexivity|].
  simpl. rewrite IH. now apply lookup_insert_ne.
Qed.

(** Every entry of the registry is one surrogate pair and has a prime of
    its own, so the map holds exactly the registry. *)
Lemma registry_entries :
  Forall (fun p => 2 ≤ EmojiPrimeMapping.prime p
                   ∧ codePoints (EmojiPrimeMapping.emoji p) = [EmojiPrimeMapping.emoji p]
                   ∧ primeMap !! EmojiPrimeMapping.emoji p = Some (EmojiPrimeMapping.prime p))
         INTRINSIC_PRIMES.
Proof. repeat constructor; vm_compute; congruence. Qed.

Lemma primeMap_cases glyph :
  (∃ p, p ∈ INTRINSIC_PRIMES ∧ EmojiPrimeMapping.emoji p = glyph
        ∧ primeMap !! glyph = Some (EmojiPrimeMapping.prime p))
  ∨ (primeMap !! glyph = None ∧ isRegistryGlyph glyph = false).
Proof.
  destruct (isRegistryGlyph glyph) eqn:Hg.
  - left. apply existsb_exists in Hg as [p [Hin Hp]].
    apply bool_decide_eq_true in Hp. exists p.
    apply list_elem_of_In in Hin. split; [exact Hin|]. split; [exact Hp|].
    pose proof registry_entries as HF. rewrite Forall_forall in HF.
    rewrite <- Hp. apply (HF p Hin).
  - right. split; [|reflexivity].
    unfold primeMap. rewrite fold_insert_lookup_ne; [apply lookup_empty|].
    apply Forall_forall. intros p Hin Hp.
    assert (isRegistryGlyph glyph = true); [|congruence].
    apply existsb_exists. exists p. split; [now apply list_elem_of_In|].
    now apply bool_decide_eq_true.
Qed.

Lemma primeMap_prime glyph prime : primeMap !! glyph = Some prime → 2 ≤ prime.
Proof.
  intros Hl. destruct (primeMap_cases glyph) as [[p [Hin [_ Hp]]]|[Hn _]]; [|congruence].
  pose proof registry_entries as HF. rewrite Forall_forall in HF.
  destruct (HF p Hin) as [H2 _]. congruence.
Qed.

(** ** IEEE 754 doubles *)

Lemma SFcompare_refl_finite s m e :
  SFcompare (S754_finite s m e) (S754_finite s m e) = Some Eq.
Proof.
  simpl. rewrite Z.compare_refl, Pos.compare_cont_refl. now destruct s.
Qed.

Lemma is_nan_Prim2SF x : PrimFloat.is_nan x = match Prim2SF x with S754_nan => true | _ => false end.
Proof.
  unfold PrimFloat.is_nan. rewrite eqb_spec. unfold SFeqb.
  destruct (Prim2SF x) as [s|s| |s m e].
  - reflexivity.
  - now destruct s.
  - reflexivity.
  - now rewrite SFcompare_refl_finite.
Qed.

Lemma is_infinity_Prim2SF x :
  PrimFloat.is_infinity x = match Prim2SF x with S754_infinity _ => true | _ => false end.
Proof.
  unfold PrimFloat.is_infinity. rewrite eqb_spec, abs_spec.
  change (Prim2SF infinity) with (S754_infinity false).
  now destruct (Prim2SF x) as [s|s| |s m e].
Qed.

Lemma is_finite_Prim2SF x :
  PrimFloat.is_finite x
  = match Prim2SF x with S754_zero _ | S754_finite _ _ _ => true | _ => false end.
Proof.
  unfold PrimFloat.is_finite. rewrite is_nan_Prim2SF, is_infinity_Prim2SF.
  now destruct (Prim2SF x).
Qed.

Lemma Math_floor_finite x :
  PrimFloat.is_finite x = true → ∃ k, Num.Math_floor x = Num.IInt k.
Proof.
  rewrite is_finite_Prim2SF. unfold Num.Math_floor.
  destruct (Prim2SF x); try discriminate; eauto.
Qed.

Lemma digits2_pos_bounds m :
  2 ^ (Z.pos (digits2_pos m) - 1) ≤ Z.pos m < 2 ^ Z.pos (digits2_pos m).
Proof.
  induction m as [m IH|m IH|]; cbn [digits2_pos]; rewrite ?Pos2Z.inj_succ.
  - replace (Z.succ (Z.pos (digits2_pos m)) - 1) with (Z.succ (Z.pos (digits2_pos m) - 1)) by lia.
    rewrite !Z.pow_succ_r by lia. lia.
  - replace (Z.succ (Z.pos (digits2_pos m)) - 1) with (Z.succ (Z.pos (digits2_pos m) - 1)) by lia.
    rewrite !Z.pow_succ_r by lia. lia.
  - change (2 ^ (1 - 1)) with 1. change (2 ^ 1) with 2. lia.
Qed.

Lemma digits2_pos_unique m k :
  2 ^ (k - 1) ≤ Z.pos m < 2 ^ k → 1 ≤ k → Z.pos (digits2_pos m) = k.
Proof.
  intros [Hlo Hhi] Hk. pose proof (digits2_pos_bounds m) as [Dlo Dhi].
  destruct (Z.lt_trichotomy (Z.pos (digits2_pos m)) k) as [Hlt|[Heq|Hgt]]; [|exact Heq|].
  - assert (2 ^ Z.pos (digits2_pos m) ≤ 2 ^ (k - 1)) by (apply Z.pow_le_mono_r; lia). lia.
  - assert (2 ^ k ≤ 2 ^ (Z.pos (digits2_pos m) - 1)) by (apply Z.pow_le_mono_r; lia). lia.
Qed.

Lemma valid_finite s m e :
  valid_binary (S754_finite s m e) = true →
  Z.pos (digits2_pos m) ≤ 53 ∧ -1074 ≤ e ≤ 971
  ∧ (Z.pos (digits2_pos m) = 53 ∨ e = -1074).
Proof.
  unfold SpecFloat.valid_binary, bounded, canonical_mantissa, fexp, SpecFloat.emin, prec, emax.
  rewrite andb_true_iff, Z.eqb_eq, Z.leb_le. lia.
Qed.

Lemma valid_finite_mantissa s m e :
  valid_binary (S754_finite s m e) = true →
  Z.pos m < 2 ^ 53 ∧ (-1074 < e → 2 ^ 52 ≤ Z.pos m).
Proof.
  intros H. apply valid_finite in H as (Hd & He & Hn).
  pose proof (digits2_pos_bounds m) as [Dlo Dhi]. split.
  - assert (2 ^ Z.pos (digits2_pos m) ≤ 2 ^ 53) by (apply Z.pow_le_mono_r; lia). lia.
  - intros He'. destruct Hn as [Hn|Hn]; [|lia]. rewrite Hn in Dlo. exact Dlo.
Qed.

Lemma magnitude_finite s m e :
  valid_binary (S754_finite s m e) = true →
  0 < magnitude (S754_finite s m e) < 2 ^ 2098.
Proof.
  intros H. pose proof (valid_finite_mantissa _ _ _ H) as [Hm _].
  apply valid_finite in H as (_ & He & _). simpl.
  assert (0 < 2 ^ (e + 1074)) by (apply Z.pow_pos_nonneg; lia).
  assert (2 ^ (e + 1074) ≤ 2 ^ 2045) by (apply Z.pow_le_mono_r; lia).
  change (2 ^ 2098) with (2 ^ 53 * 2 ^ 2045). nia.
Qed.

Lemma SFcompare_magnitude x y :
  valid_binary x = true → valid_binary y = true →
  isUnsigned x = true → isUnsigned y = true →
  SFcompare x y = Some (magnitude x ?= magnitude y).
Proof.
  intros Vx Vy Ux Uy.
  destruct x as [sx|sx| |sx mx ex], y as [sy|sy| |sy my ey]; try discriminate;
    simpl in Ux, Uy; try (apply negb_true_iff in Ux; subst sx);
    try (apply negb_true_iff in Uy; subst sy).
  - reflexivity.
  - simpl. reflexivity.
  - pose proof (magnitude_finite _ _ _ Vy). cbn [SFcompare]. apply (f_equal Some). symmetry.
    apply Z.compare_lt_iff. cbn [magnitude] in *. lia.
  - cbn [SFcompare magnitude]. apply (f_equal Some). symmetry. apply Z.compare_gt_iff. lia.
  - cbn [SFcompare magnitude]. now rewrite Z.compare_refl.
  - pose proof (magnitude_finite _ _ _ Vy). cbn [SFcompare]. apply (f_equal Some). symmetry.
    apply Z.compare_gt_iff. cbn [magnitude] in *.
    assert (2 ^ 2098 ≤ 2 ^ 2100) by (apply Z.pow_le_mono_r; lia). lia.
  - pose proof (magnitude_finite _ _ _ Vx). cbn [SFcompare]. apply (f_equal Some). symmetry.
    apply Z.compare_gt_iff. cbn [magnitude] in *. lia.
  - pose proof (magnitude_finite _ _ _ Vx). cbn [SFcompare]. apply (f_equal Some). symmetry.
    apply Z.compare_lt_iff. cbn [magnitude] in *.
    assert (2 ^ 2098 ≤ 2 ^ 2100) by (apply Z.pow_le_mono_r; lia). lia.
  - pose proof (valid_finite_mantissa _ _ _ Vx) as [Hx Hx'].
    pose proof (valid_finite_mantissa _ _ _ Vy) as [Hy Hy'].
    apply valid_finite in Vx as (_ & Ex & _). apply valid_finite in Vy as (_ & Ey & _).
    cbn [SFcompare magnitude]. apply (f_equal Some).
    destruct (Z.compare_spec ex ey) as [Heq|Hlt|Hgt].
    + subst ey. rewrite Pos.compare_cont_spec.
      assert (0 < 2 ^ (ex + 1074)) by (apply Z.pow_pos_nonneg; lia).
      rewrite <- Zmult_compare_compat_r by lia.
      change (Z.pos mx ?= Z.pos my) with (mx ?= my)%positive.
      now destruct (mx ?= my)%positive.
    + symmetry. apply Z.compare_lt_iff.
      replace (ey + 1074) with ((ex + 1074) + (ey - ex)) by lia.
      rewrite (Z.pow_add_r 2 (ex + 1074) (ey - ex)) by lia.
      assert (0 < 2 ^ (ex + 1074)) by (apply Z.pow_pos_nonneg; lia).
      assert (2 ^ 1 ≤ 2 ^ (ey - ex)) by (apply Z.pow_le_mono_r; lia).
      specialize (Hy' ltac:(lia)). change (2 ^ 1) with 2 in *.
      assert (2 ^ 53 ≤ Z.pos my * 2 ^ (ey - ex))
        by (change (2 ^ 53) with (2 ^ 52 * 2); apply Z.mul_le_mono_nonneg; lia).
      replace (Z.pos my * (2 ^ (ex + 1074) * 2 ^ (ey - ex)))
        with (Z.pos my * 2 ^ (ey - ex) * 2 ^ (ex + 1074)) by ring.
      apply Z.lt_le_trans with (2 ^ 53 * 2 ^ (ex + 1074));
        [apply Z.mul_lt_mono_pos_r; lia|apply Z.mul_le_mono_nonneg_r; lia].
    + symmetry. apply Z.compare_gt_iff.
      replace (ex + 1074) with ((ey + 1074) + (ex - ey)) by lia.
      rewrite (Z.pow_add_r 2 (ey + 1074) (ex - ey)) by lia.
      assert (0 < 2 ^ (ey + 1074)) by (apply Z.pow_pos_nonneg; lia).
      assert (2 ^ 1 ≤ 2 ^ (ex - ey)) by (apply Z.pow_le_mono_r; lia).
      specialize (Hx' ltac:(lia)). change (2 ^ 1) with 2 in *.
      assert (2 ^ 53 ≤ Z.pos mx * 2 ^ (ex - ey))
        by (change (2 ^ 53) with (2 ^ 52 * 2); apply Z.mul_le_mono_nonneg; lia).
      replace (Z.pos mx * (2 ^ (ey + 1074) * 2 ^ (ex - ey)))
        with (Z.pos mx * 2 ^ (ex - ey) * 2 ^ (ey + 1074)) by ring.
      apply Z.lt_le_trans with (2 ^ 53 * 2 ^ (ey + 1074));
        [apply Z.mul_lt_mono_pos_r; lia|apply Z.mul_le_mono_nonneg_r; lia].
Qed.

Lemma pow2_xI p : 2 ^ Z.pos p~1 = 2 * (2 ^ Z.pos p * 2 ^ Z.pos p).
Proof.
  change (Z.pos p~1) with (2 * Z.pos p + 1).
  rewrite Z.pow_add_r, Z.pow_twice_r by lia. change (2 ^ 1) with 2. ring.
Qed.

Lemma pow2_xO p : 2 ^ Z.pos p~0 = 2 ^ Z.pos p * 2 ^ Z.pos p.
Proof. change (Z.pos p~0) with (2 * Z.pos p). apply Z.pow_twice_r. Qed.

Lemma pow2_pos n : 0 ≤ n → 0 < 2 ^ n.
Proof. intros. apply Z.pow_pos_nonneg; lia. Qed.

Lemma shr_1_m r : 0 ≤ shr_m r → shr_m (shr_1 r) = shr_m r / 2 ∧ 0 ≤ shr_m (shr_1 r).
Proof.
  destruct r as [m b s]. cbn [shr_m]. intros Hm. unfold shr_1.
  destruct m as [|[p|p|]|p]; cbn [shr_m]; try lia.
  - split; [reflexivity|lia].
  - split; [|lia]. rewrite Pos2Z.inj_xI. apply Z.div_unique with 1; lia.
  - split; [|lia]. rewrite Pos2Z.inj_xO. apply Z.div_unique with 0; lia.
  - split; [reflexivity|lia].
Qed.

Lemma iter_shr_1_m p r :
  0 ≤ shr_m r →
  shr_m (iter_pos shr_1 p r) = shr_m r / 2 ^ Z.pos p ∧ 0 ≤ shr_m (iter_pos shr_1 p r).
Proof.
  revert r. induction p as [p IH|p IH|]; intros r Hr; cbn [iter_pos].
  - destruct (shr_1_m r Hr) as [E1 P1].
    destruct (IH _ P1) as [E2 P2]. destruct (IH _ P2) as [E3 P3].
    split; [|exact P3]. rewrite E3, E2, E1, pow2_xI.
    pose proof (pow2_pos (Z.pos p) ltac:(lia)).
    rewrite !Z.div_div by lia. reflexivity.
  - destruct (IH _ Hr) as [E2 P2]. destruct (IH _ P2) as [E3 P3].
    split; [|exact P3]. rewrite E3, E2, pow2_xO.
    pose proof (pow2_pos (Z.pos p) ltac:(lia)).
    rewrite !Z.div_div by lia. reflexivity.
  - change (2 ^ 1) with 2. now apply shr_1_m.
Qed.

Lemma shr_1_exact k :
  0 ≤ k →
  shr_1 {| shr_m := 2 * k; shr_r := false; shr_s := false |}
  = {| shr_m := k; shr_r := false; shr_s := false |}.
Proof. intros Hk. destruct k as [|k|k]; [reflexivity|reflexivity|lia]. Qed.

Lemma iter_shr_1_exact p k :
  0 ≤ k →
  iter_pos shr_1 p {| shr_m := 2 ^ Z.pos p * k; shr_r := false; shr_s := false |}
  = {| shr_m := k; shr_r := false; shr_s := false |}.
Proof.
  revert k. induction p as [p IH|p IH|]; intros k Hk; cbn [iter_pos].
  - pose proof (pow2_pos (Z.pos p) ltac:(lia)).
    rewrite pow2_xI, <- !Z.mul_assoc, shr_1_exact by nia.
    rewrite IH by nia. now apply IH.
  - pose proof (pow2_pos (Z.pos p) ltac:(lia)).
    rewrite pow2_xO, <- !Z.mul_assoc. rewrite IH by nia. now apply IH.
  - change (2 ^ 1) with 2. now apply shr_1_exact.
Qed.

Lemma round_nearest_even_bounds m l :
  m ≤ round_nearest_even m l ≤ m + 1.
Proof. destruct l as [|[| |]]; simpl; try lia. destruct (Z.even m); lia. Qed.

(** [binary_round_aux] on an exact positive input, when no bit has to be
    dropped. *)
Lemma binary_round_aux_noshift s M E :
  fexp prec emax (Z.pos (digits2_pos M) + E) ≤ E →
  binary_round_aux prec emax s (Z.pos M) E loc_Exact
  = if E <=? 971 then S754_finite s M E else S754_infinity s.
Proof.
  intros Hn. unfold binary_round_aux, shr_fexp, shr. cbn [Zdigits2 shr_record_of_loc].
  destruct (fexp prec emax (Z.pos (digits2_pos M) + E) - E) as [|n|n] eqn:Hd; try lia;
    cbn [shr_m loc_of_shr_record round_nearest_even Zdigits2 shr_record_of_loc];
    rewrite Hd; reflexivity.
Qed.

Lemma binary_round_aux_shift s M E n :
  fexp prec emax (Z.pos (digits2_pos M) + E) - E = Z.pos n →
  ∃ m2, Z.pos M / 2 ^ Z.pos n ≤ m2 ≤ Z.pos M / 2 ^ Z.pos n + 1
        ∧ (∀ k, Z.pos M = 2 ^ Z.pos n * k → m2 = k)
        ∧ binary_round_aux prec emax s (Z.pos M) E loc_Exact
          = roundFinish s m2 (E + Z.pos n).
Proof.
  intros Hn. unfold binary_round_aux, roundFinish.
  unfold shr_fexp at 1. unfold shr. cbn [Zdigits2 shr_record_of_loc]. rewrite Hn.
  set (r := iter_pos shr_1 n _).
  exists (round_nearest_even (shr_m r) (loc_of_shr_record r)).
  destruct (iter_shr_1_m n {| shr_m := Z.pos M; shr_r := false; shr_s := false |}) as [Em _];
    [cbn; lia|]. cbn [shr_m] in Em. fold r in Em.
  split; [|split].
  - rewrite <- Em. apply round_nearest_even_bounds.
  - intros k Hk. assert (0 ≤ k).
    { pose proof (pow2_pos (Z.pos n) ltac:(lia)). nia. }
    subst r. rewrite Hk, iter_shr_1_exact by assumption. reflexivity.
  - reflexivity.
Qed.

Lemma roundFinish_zero s e : roundFinish s 0 e = S754_zero s.
Proof.
  unfold roundFinish, shr_fexp, shr. cbn [Zdigits2 shr_record_of_loc].
  destruct (fexp prec emax (0 + e) - e) as [|n|n]; try reflexivity.
  destruct (iter_shr_1_m n {| shr_m := 0; shr_r := false; shr_s := false |}) as [Em _];
    [cbn; lia|]. cbn [shr_m] in Em. rewrite Z.div_0_l in Em.
  - now rewrite Em.
  - pose proof (pow2_pos (Z.pos n) ltac:(lia)). lia.
Qed.

Lemma roundFinish_noshift s m e :
  fexp prec emax (Z.pos (digits2_pos m) + e) ≤ e →
  roundFinish s (Z.pos m) e = if e <=? 971 then S754_finite s m e else S754_infinity s.
Proof.
  intros Hn. unfold roundFinish, shr_fexp, shr. cbn [Zdigits2 shr_record_of_loc].
  destruct (fexp prec emax (Z.pos (digits2_pos m) + e) - e) as [|n|n] eqn:Hd; try lia;
    reflexivity.
Qed.

Lemma roundFinish_shift s m e n :
  fexp prec emax (Z.pos (digits2_pos m) + e) - e = Z.pos n →
  roundFinish s (Z.pos m) e
  = match Z.pos m / 2 ^ Z.pos n with
    | 0 => S754_zero s
    | Z.pos m' => if e + Z.pos n <=? 971 then S754_finite s m' (e + Z.pos n)
                  else S754_infinity s
    | Z.neg _ => S754_nan
    end.
Proof.
  intros Hn. unfold roundFinish, shr_fexp, shr. cbn [Zdigits2 shr_record_of_loc].
  rewrite Hn.
  destruct (iter_shr_1_m n {| shr_m := Z.pos m; shr_r := false; shr_s := false |}) as [Em _];
    [cbn; lia|]. cbn [shr_m] in Em. rewrite Em. reflexivity.
Qed.

Lemma fexp_eq z : fexp prec emax z = Z.max (z - 53) (-1074).
Proof. reflexivity. Qed.

Lemma iter_xO_pos m d : Z.pos (Pos.iter xO m d) = Z.pos m * 2 ^ Z.pos d.
Proof.
  change (Pos.iter xO m d) with (shift_pos d m). rewrite shift_pos_correct.
  change (Z.pow_pos 2 d) with (2 ^ Z.pos d). ring.
Qed.

Lemma digits2_pos_shift m d :
  Z.pos (digits2_pos (Pos.iter xO m d)) = Z.pos (digits2_pos m) + Z.pos d.
Proof.
  pose proof (digits2_pos_bounds m) as [Dlo Dhi].
  pose proof (pow2_pos (Z.pos d) ltac:(lia)).
  apply digits2_pos_unique; [|lia]. rewrite iter_xO_pos.
  replace (Z.pos (digits2_pos m) + Z.pos d - 1) with (Z.pos (digits2_pos m) - 1 + Z.pos d) by lia.
  rewrite !Z.pow_add_r by lia. nia.
Qed.

Lemma shl_align_fst m e e' :
  e' ≤ e → Z.pos (fst (shl_align m e e')) = Z.pos m * 2 ^ (e - e').
Proof.
  intros He. unfold shl_align. destruct (e' - e) as [|d|d] eqn:Hd; try lia; cbn [fst].
  - replace (e - e') with 0 by lia. change (2 ^ 0) with 1. lia.
  - rewrite iter_xO_pos. f_equal. f_equal. lia.
Qed.

Lemma roundFinish_normal s m e :
  2 ^ 52 ≤ m ≤ 2 ^ 53 → -1074 ≤ e → hasSign s (roundFinish s m e).
Proof.
  intros Hm He. destruct m as [|m|m]; try lia.
  destruct (Z.eq_dec (Z.pos m) (2 ^ 53)) as [Heq|Hne].
  - assert (Hd : Z.pos (digits2_pos m) = 54) by (apply digits2_pos_unique; lia).
    rewrite (roundFinish_shift s m e 1) by (rewrite Hd, fexp_eq; lia).
    rewrite Heq. change (2 ^ 53 / 2 ^ 1) with (Z.pos (4503599627370496)).
    cbv iota. now destruct (e + 1 <=? 971).
  - assert (Hd : Z.pos (digits2_pos m) = 53) by (apply digits2_pos_unique; lia).
    rewrite roundFinish_noshift by (rewrite Hd, fexp_eq; lia).
    now destruct (e <=? 971).
Qed.

(** Rounding a positive integer multiple of [2^E], [E] not below the least
    exponent, never gives a zero: the result keeps the sign. *)
Lemma binary_round_hasSign s M E :
  -1074 ≤ E → hasSign s (binary_round prec emax s M E).
Proof.
  intros HE. unfold binary_round, shl_align.
  pose proof (digits2_pos_bounds M) as [Dlo Dhi].
  destruct (fexp prec emax (Z.pos (digits2_pos M) + E) - E) as [|n|k] eqn:Hn.
  - rewrite binary_round_aux_noshift by lia. now destruct (E <=? 971).
  - destruct (binary_round_aux_shift s M E n Hn) as (m2 & Hm2 & _ & ->).
    rewrite fexp_eq in Hn.
    assert (Hd : Z.pos (digits2_pos M) = 53 + Z.pos n) by lia.
    pose proof (pow2_pos (Z.pos n) ltac:(lia)).
    assert (2 ^ 52 ≤ Z.pos M / 2 ^ Z.pos n).
    { apply Z.div_le_lower_bound; [lia|]. rewrite <- Z.pow_add_r by lia.
      replace (Z.pos n + 52) with (Z.pos (digits2_pos M) - 1) by lia. exact Dlo. }
    assert (Z.pos M / 2 ^ Z.pos n < 2 ^ 53).
    { apply Z.div_lt_upper_bound; [lia|]. rewrite <- Z.pow_add_r by lia.
      replace (Z.pos n + 53) with (Z.pos (digits2_pos M)) by lia. exact Dhi. }
    apply roundFinish_normal; lia.
  - rewrite binary_round_aux_noshift.
    + now destruct (_ <=? 971).
    + rewrite digits2_pos_shift. rewrite !fexp_eq in *. lia.
Qed.

Lemma SFltb_zero_positive r :
  hasSign false r → SFltb (S754_zero false) r = true.
Proof. destruct r as [|[|]| |[|]]; simpl; intros H; try discriminate; tauto. Qed.

Lemma SFltb_zero_negative r :
  hasSign true r → SFltb (S754_zero false) r = false.
Proof. destruct r as [|[|]| |[|]]; simpl; intros H; try discriminate; tauto. Qed.

(** The sign of a difference of two magnitudes is their comparison. *)
Lemma SFsub_sign x y :
  valid_binary x = true → valid_binary y = true →
  isUnsigned x = true → isUnsigned y = true →
  SFltb (S754_zero false) (SF64sub y x) = (magnitude x <? magnitude y).
Proof.
  intros Vx Vy Ux Uy. unfold SF64sub.
  destruct x as [sx|sx| |sx mx ex], y as [sy|sy| |sy my ey]; try discriminate;
    simpl in Ux, Uy; try (apply negb_true_iff in Ux; subst sx);
    try (apply negb_true_iff in Uy; subst sy).
  - now destruct sx, sy.
  - reflexivity.
  - pose proof (magnitude_finite _ _ _ Vy). cbn [SFsub]. unfold SFltb. cbn [SFcompare magnitude] in *.
    symmetry. apply Z.ltb_lt. lia.
  - reflexivity.
  - reflexivity.
  - pose proof (magnitude_finite _ _ _ Vy). cbn [SFsub]. unfold SFltb. cbn [SFcompare magnitude negb] in *.
    symmetry. apply Z.ltb_ge.
    assert (2 ^ 2098 ≤ 2 ^ 2100) by (apply Z.pow_le_mono_r; lia). lia.
  - pose proof (magnitude_finite _ _ _ Vx). cbn [SFsub]. unfold SFltb. cbn [SFcompare magnitude negb] in *.
    symmetry. apply Z.ltb_ge. lia.
  - pose proof (magnitude_finite _ _ _ Vx). cbn [SFsub]. unfold SFltb. cbn [SFcompare magnitude negb] in *.
    symmetry. apply Z.ltb_lt.
    assert (2 ^ 2098 ≤ 2 ^ 2100) by (apply Z.pow_le_mono_r; lia). lia.
  - apply valid_finite in Vx as (_ & Ex & _). apply valid_finite in Vy as (_ & Ey & _).
    cbn [SFsub cond_Zopp magnitude].
    set (ez := Z.min ey ex).
    rewrite !shl_align_fst by (subst ez; lia).
    pose proof (pow2_pos (ez + 1074) ltac:(subst ez; lia)) as Hz.
    assert (Hy : Z.pos my * 2 ^ (ey + 1074) = Z.pos my * 2 ^ (ey - ez) * 2 ^ (ez + 1074)).
    { rewrite <- Z.mul_assoc, <- Z.pow_add_r by (subst ez; lia). do 2 f_equal. lia. }
    assert (Hx : Z.pos mx * 2 ^ (ex + 1074) = Z.pos mx * 2 ^ (ex - ez) * 2 ^ (ez + 1074)).
    { rewrite <- Z.mul_assoc, <- Z.pow_add_r by (subst ez; lia). do 2 f_equal. lia. }
    rewrite Hx, Hy.
    set (My := Z.pos my * 2 ^ (ey - ez)). set (Mx := Z.pos mx * 2 ^ (ex - ez)).
    destruct (My - Mx) as [|D|D] eqn:HD; cbn [binary_normalize].
    + cbn. symmetry. apply Z.ltb_ge. nia.
    + rewrite SFltb_zero_positive by (apply binary_round_hasSign; subst ez; lia).
      symmetry. apply Z.ltb_lt. nia.
    + rewrite SFltb_zero_negative by (apply binary_round_hasSign; subst ez; lia).
      symmetry. apply Z.ltb_ge. nia.
Qed.

Lemma digits_exponent_le M B E :
  B < 2 ^ 53 → E ≤ 0 → Z.pos M ≤ B * 2 ^ (- E) →
  Z.pos (digits2_pos M) + E ≤ 53.
Proof.
  intros HB HE HM. pose proof (digits2_pos_bounds M) as [Dlo _].
  pose proof (pow2_pos (- E) ltac:(lia)).
  assert (2 ^ (Z.pos (digits2_pos M) - 1) < 2 ^ (53 - E)).
  { replace (53 - E) with (53 + - E) by lia. rewrite Z.pow_add_r by lia. nia. }
  apply Z.pow_lt_mono_r_iff in H0; lia.
Qed.

Lemma shiftl_le m e B :
  e ≤ 0 → m ≤ B * 2 ^ (- e) → Z.shiftl m e ≤ B.
Proof.
  intros He Hm. rewrite Z.shiftl_div_pow2 by lia.
  pose proof (pow2_pos (- e) ltac:(lia)).
  apply Z.div_le_upper_bound; lia.
Qed.

Lemma roundFinish_le B m e :
  1 ≤ B < 2 ^ 53 → e ≤ 0 → 0 ≤ m ≤ B * 2 ^ (- e) →
  flooredAtMost B (roundFinish false m e).
Proof.
  intros HB He Hm. destruct m as [|m|m]; [|..|lia].
  { now rewrite roundFinish_zero. }
  pose proof (digits_exponent_le m B e ltac:(lia) He ltac:(lia)) as Hd.
  destruct (fexp prec emax (Z.pos (digits2_pos m) + e) - e) as [|n|n] eqn:Hn.
  - rewrite roundFinish_noshift by lia.
    destruct (Z.leb_spec e 971); [|lia]. split; [reflexivity|]. apply shiftl_le; lia.
  - rewrite (roundFinish_shift _ _ _ _ Hn). rewrite fexp_eq in Hn.
    pose proof (pow2_pos (Z.pos n) ltac:(lia)).
    pose proof (pow2_pos (- (e + Z.pos n)) ltac:(lia)).
    assert (Hq : 0 ≤ Z.pos m / 2 ^ Z.pos n ≤ B * 2 ^ (- (e + Z.pos n))).
    { split; [apply Z.div_pos; lia|]. apply Z.div_le_upper_bound; [lia|].
      replace (- e) with (Z.pos n + - (e + Z.pos n)) in Hm by lia.
      rewrite Z.pow_add_r in Hm by lia. lia. }
    destruct (Z.pos m / 2 ^ Z.pos n) as [|m3|m3]; [exact I| |lia].
    destruct (Z.leb_spec (e + Z.pos n) 971); [|lia].
    split; [reflexivity|]. apply shiftl_le; lia.
  - rewrite roundFinish_noshift by lia.
    destruct (Z.leb_spec e 971); [|lia]. split; [reflexivity|]. apply shiftl_le; lia.
Qed.

(** Rounding never lifts a value over an integer bound it respects. *)
Lemma binary_round_aux_le B M E :
  1 ≤ B < 2 ^ 53 → E ≤ 0 → Z.pos M ≤ B * 2 ^ (- E) →
  flooredAtMost B (binary_round_aux prec emax false (Z.pos M) E loc_Exact).
Proof.
  intros HB HE HM.
  pose proof (digits_exponent_le M B E ltac:(lia) HE HM) as Hd.
  destruct (fexp prec emax (Z.pos (digits2_pos M) + E) - E) as [|n|n] eqn:Hn.
  - rewrite binary_round_aux_noshift by lia.
    destruct (Z.leb_spec E 971); [|lia]. split; [reflexivity|]. now apply shiftl_le.
  - destruct (binary_round_aux_shift false M E n Hn) as (m2 & Hm2 & Hex & ->).
    rewrite fexp_eq in Hn.
    pose proof (pow2_pos (Z.pos n) ltac:(lia)).
    pose proof (pow2_pos (- (E + Z.pos n)) ltac:(lia)).
    assert (HM' : Z.pos M ≤ 2 ^ Z.pos n * (B * 2 ^ (- (E + Z.pos n)))).
    { replace (- E) with (Z.pos n + - (E + Z.pos n)) in HM by lia.
      rewrite Z.pow_add_r in HM by lia. lia. }
    assert (0 ≤ Z.pos M / 2 ^ Z.pos n) by (apply Z.div_pos; lia).
    apply roundFinish_le; [lia|lia|]. split; [lia|].
    destruct (Z.eq_dec (Z.pos M) (2 ^ Z.pos n * (B * 2 ^ (- (E + Z.pos n))))) as [Heq|Hne].
    + rewrite (Hex _ Heq). lia.
    + assert (Z.pos M / 2 ^ Z.pos n < B * 2 ^ (- (E + Z.pos n)))
        by (apply Z.div_lt_upper_bound; lia).
      lia.
  - rewrite binary_round_aux_noshift by lia.
    destruct (Z.leb_spec E 971); [|lia]. split; [reflexivity|]. now apply shiftl_le.
Qed.

Lemma SFmul_5_le x :
  valid_binary x = true → isUnsigned x = true → magnitude x ≤ 2 ^ 1074 →
  flooredAtMost 5 (SF64mul x (S754_finite false 5629499534213120 (-50))).
Proof.
  intros Vx Ux Hx. unfold SF64mul.
  destruct x as [sx|sx| |sx mx ex]; try discriminate.
  - exact I.
  - cbn [magnitude] in Hx. assert (2 ^ 1074 < 2 ^ 2100) by (apply Z.pow_lt_mono_r; lia). lia.
  - simpl in Ux. apply negb_true_iff in Ux. subst sx.
    apply valid_finite in Vx as (_ & Ex & _). cbn [magnitude] in Hx.
    cbn [SFmul xorb].
    pose proof (pow2_pos (ex + 1074) ltac:(lia)).
    assert (ex ≤ 0).
    { destruct (Z.le_gt_cases ex 0) as [Hle|Hgt]; [exact Hle|].
      assert (2 ^ 1074 < 2 ^ (ex + 1074)) by (apply Z.pow_lt_mono_r; lia). nia. }
    pose proof (pow2_pos (- ex) ltac:(lia)).
    assert (Hm : Z.pos mx ≤ 2 ^ (- ex)).
    { assert (E1 : 2 ^ 1074 = 2 ^ (- ex) * 2 ^ (ex + 1074))
        by (rewrite <- Z.pow_add_r by lia; f_equal; lia).
      rewrite E1 in Hx. now apply Z.mul_le_mono_pos_r in Hx. }
    apply binary_round_aux_le; [lia|lia|].
    rewrite Pos2Z.inj_mul. replace (- (ex + -50)) with (- ex + 50) by lia.
    rewrite Z.pow_add_r by lia. change (Z.pos 5629499534213120) with (5 * 2 ^ 50).
    pose proof (pow2_pos 50 ltac:(lia)). nia.
Qed.

(** Dividing a finite double by one gives it back. *)
Lemma SFdiv_one s m e :
  valid_binary (S754_finite s m e) = true →
  SF64div (S754_finite s m e) (S754_finite false 4503599627370496 (-52))
  = S754_finite s m e.
Proof.
  intros V. apply valid_finite in V as (Hd & He & Hn).
  unfold SF64div. cbn [SFdiv]. unfold SFdiv_core_binary. cbn [Zdigits2].
  change (Z.pos (digits2_pos 4503599627370496)) with 53.
  rewrite fexp_eq, xorb_false_r.
  destruct (Z.eq_dec e (-1074)) as [He'|He'].
  - replace (Z.min (Z.max (Z.pos (digits2_pos m) + e - (53 + -52) - 53) (-1074)) (e - -52))
      with e by lia.
    replace (e - -52 - e) with 52 by lia.
    rewrite Z.shiftl_mul_pow2 by lia.
    assert (Hq : Z.div_eucl (Z.pos m * 2 ^ 52) (Z.pos 4503599627370496) = (Z.pos m, 0)).
    { pose proof (Z.div_eucl_eq (Z.pos m * 2 ^ 52) (Z.pos 4503599627370496) ltac:(lia)) as Hdiv.
      pose proof (Z.mod_pos_bound (Z.pos m * 2 ^ 52) (Z.pos 4503599627370496) ltac:(lia)) as Hmod.
      unfold Z.modulo in Hmod.
      destruct (Z.div_eucl _ _) as [q r]. change (2 ^ 52) with 4503599627370496 in *.
      f_equal; lia. }
    rewrite Hq. change (new_location (Z.pos 4503599627370496) 0) with loc_Exact.
    rewrite binary_round_aux_noshift by (rewrite fexp_eq; lia).
    now destruct (Z.leb_spec e 971); [|lia].
  - replace (Z.min (Z.max (Z.pos (digits2_pos m) + e - (53 + -52) - 53) (-1074)) (e - -52))
      with (e - 1) by lia.
    replace (e - -52 - (e - 1)) with 53 by lia.
    rewrite Z.shiftl_mul_pow2 by lia.
    assert (Hq : Z.div_eucl (Z.pos m * 2 ^ 53) (Z.pos 4503599627370496) = (Z.pos m~0, 0)).
    { pose proof (Z.div_eucl_eq (Z.pos m * 2 ^ 53) (Z.pos 4503599627370496) ltac:(lia)) as Hdiv.
      pose proof (Z.mod_pos_bound (Z.pos m * 2 ^ 53) (Z.pos 4503599627370496) ltac:(lia)) as Hmod.
      unfold Z.modulo in Hmod.
      destruct (Z.div_eucl _ _) as [q r].
      change (2 ^ 53) with (2 * 4503599627370496) in *.
      rewrite Pos2Z.inj_xO. f_equal; lia. }
    rewrite Hq. change (new_location (Z.pos 4503599627370496) 0) with loc_Exact.
    assert (Hd' : Z.pos (digits2_pos m~0) = Z.pos (digits2_pos m) + 1)
      by (cbn [digits2_pos]; lia).
    destruct (binary_round_aux_shift s (m~0) (e - 1) 1) as (m2 & _ & Hex & ->).
    { rewrite Hd', fexp_eq. lia. }
    rewrite (Hex (Z.pos m)) by (change (2 ^ 1) with 2; lia).
    replace (e - 1 + 1) with e by lia.
    rewrite roundFinish_noshift by (rewrite fexp_eq; lia).
    now destruct (Z.leb_spec e 971); [|lia].
Qed.

(** A difference of two equal finite doubles is a zero. *)
Lemma SFsub_eq x y :
  SFeqb y x = true →
  match x with S754_zero _ | S754_finite _ _ _ => True | _ => False end →
  ∃ s, SF64sub x y = S754_zero s.
Proof.
  unfold SFeqb, SF64sub. intros Heq Hx.
  destruct x as [sx|sx| |sx mx ex], y as [sy|sy| |sy my ey]; try tauto; try discriminate;
    try (destruct sy; discriminate); try (destruct sx; discriminate).
  - destruct sx, sy; cbn; eauto.
  - cbn [SFcompare] in Heq. cbn [SFsub].
    assert (sx = sy ∧ ex = ey ∧ mx = my) as (-> & -> & ->).
    { destruct sx, sy; try discriminate; destruct (Z.compare_spec ey ex); try discriminate;
        subst; rewrite Pos.compare_cont_spec in Heq;
        destruct (Pos.compare_spec my mx); try discriminate; auto. }
    rewrite Z.sub_diag. cbn. eauto.
Qed.

Lemma ofNat_positive n :
  (0 < n)%nat → Z.of_nat n < 2 ^ 63 → hasSign false (Prim2SF (Num.ofNat n)).
Proof.
  intros Hn Hb. unfold Num.ofNat. rewrite of_uint63_spec, Uint63.of_Z_spec.
  rewrite Z.mod_small by (change wB with (2 ^ 63); lia).
  destruct (Z.of_nat n) as [|p|p] eqn:Hp; try lia.
  cbn [binary_normalize]. now apply binary_round_hasSign.
Qed.

Lemma SFdiv_zero_positive r :
  hasSign false r → SF64div (S754_zero false) r = S754_zero false.
Proof. destruct r as [| | |]; cbn; intros H; try tauto; now subst. Qed.

Lemma abs_unsigned a :
  PrimFloat.is_nan a = false →
  valid_binary (SFabs (Prim2SF a)) = true ∧ isUnsigned (SFabs (Prim2SF a)) = true.
Proof.
  intros Hn. split.
  - rewrite <- abs_spec. apply Prim2SF_valid.
  - rewrite is_nan_Prim2SF in Hn. now destruct (Prim2SF a).
Qed.

Lemma leb_not_nan a b : PrimFloat.leb a b = true → PrimFloat.is_nan a = false.
Proof.
  rewrite leb_spec, is_nan_Prim2SF. unfold SFleb.
  now destruct (Prim2SF a).
Qed.

Lemma abs_not_nan a : PrimFloat.is_nan (PrimFloat.abs a) = PrimFloat.is_nan a.
Proof. rewrite !is_nan_Prim2SF, abs_spec. now destruct (Prim2SF a). Qed.

(** For [abs(a) <= 1], the product [abs(a) * 5] is finite and its floor is
    between 0 and 5. *)
Lemma Math_floor_strength a :
  PrimFloat.leb (PrimFloat.abs a) 1 = true →
  PrimFloat.is_finite (PrimFloat.mul (PrimFloat.abs a) 5) = true
  ∧ ∃ k, Num.Math_floor (PrimFloat.mul (PrimFloat.abs a) 5) = Num.IInt k ∧ 0 ≤ k ≤ 5.
Proof.
  intros Hle. pose proof (leb_not_nan _ _ Hle) as Hn. rewrite abs_not_nan in Hn.
  destruct (abs_unsigned a Hn) as [V U].
  rewrite leb_spec, abs_spec in Hle. unfold SFleb in Hle.
  change (Prim2SF 1) with (S754_finite false 4503599627370496 (-52)) in Hle.
  rewrite (SFcompare_magnitude _ (S754_finite false 4503599627370496 (-52)) V eq_refl U eq_refl)
    in Hle.
  change (magnitude (S754_finite false 4503599627370496 (-52))) with (2 ^ 1074) in Hle.
  assert (Hm : magnitude (SFabs (Prim2SF a)) ≤ 2 ^ 1074).
  { destruct (Z.compare_spec (magnitude (SFabs (Prim2SF a))) (2 ^ 1074));
      [lia|lia|discriminate]. }
  pose proof (SFmul_5_le _ V U Hm) as Hr.
  rewrite is_finite_Prim2SF. unfold Num.Math_floor.
  rewrite mul_spec, abs_spec.
  change (Prim2SF 5) with (S754_finite false 5629499534213120 (-50)).
  destruct (SF64mul _ _) as [s|s| |s m e]; simpl in Hr; try tauto.
  - split; [reflexivity|]. exists 0. split; [reflexivity|lia].
  - destruct Hr as [-> Hr]. split; [reflexivity|]. eexists. split; [reflexivity|].
    cbn [cond_Zopp]. split; [|exact Hr]. apply Z.shiftl_nonneg. lia.
Qed.

(** ** The Gödel encoder *)

Lemma exponentOf_positive mapping e : exponentOf mapping = Num.IInt e → 1 ≤ e.
Proof.
  destruct mapping as [m|]; simpl.
  - destruct (Num.Math_floor _) as [|[|]|z]; simpl; intros H; inversion H; lia.
  - intros H; inversion H; lia.
Qed.

Lemma factorOf_positive primeMappings glyph f :
  factorOf primeMappings glyph = Some f → 1 ≤ f.
Proof.
  unfold factorOf. destruct (primeMap !! glyph) as [prime|] eqn:Hp.
  - apply primeMap_prime in Hp. destruct (Z.eqb_spec prime 0); [lia|].
    destruct (exponentOf _) as [| |e] eqn:He; try discriminate.
    apply exponentOf_positive in He.
    destruct (Z.ltb_spec e 0); [lia|]. intros Hf; inversion Hf; subst.
    assert (0 < prime ^ e) by (apply Z.pow_pos_nonneg; lia). lia.
  - intros Hf; inversion Hf; lia.
Qed.

Lemma factorOf_not_registry primeMappings glyph :
  isRegistryGlyph glyph = false → factorOf primeMappings glyph = Some 1.
Proof.
  intros Hg. unfold factorOf.
  destruct (primeMap_cases glyph) as [[p [Hin [Hp _]]]|[-> _]]; [|reflexivity].
  assert (isRegistryGlyph glyph = true); [|congruence].
  apply existsb_exists. exists p. split; [now apply list_elem_of_In|].
  now apply bool_decide_eq_true.
Qed.

Lemma godelStep_factorOf {E} primeMappings godelNumber glyph :
  godelStep (E := E) primeMappings godelNumber glyph
  = match factorOf primeMappings glyph with
    | Some f => inr (godelNumber * f)
    | None => inl RangeError
    end.
Proof.
  unfold godelStep, factorOf. destruct (primeMap !! glyph) as [prime|].
  - destruct (prime =? 0); [now rewrite Z.mul_1_r|].
    destruct (exponentOf _) as [| |e]; simpl; try reflexivity.
    unfold bigPow. now destruct (e <? 0).
  - now rewrite Z.mul_1_r.
Qed.

Lemma godelLoop_productOf {E} primeMappings glyphs godelNumber :
  godelLoop (E := E) primeMappings glyphs godelNumber
  = match productOf primeMappings glyphs with
    | Some P => inr (godelNumber * P)
    | None => inl RangeError
    end.
Proof.
  revert godelNumber. induction glyphs as [|glyph rest IH]; intros godelNumber; simpl.
  - now rewrite Z.mul_1_r.
  - rewrite godelStep_factorOf. destruct (factorOf primeMappings glyph) as [f|].
    + rewrite IH. destruct (productOf primeMappings rest); [|reflexivity].
      now rewrite Z.mul_assoc.
    + reflexivity.
Qed.

Lemma godelOutcome_productOf {E} tapeSegment primeMappings :
  godelOutcome (encodeAsGodel (E := E) tapeSegment primeMappings)
  = match productOf primeMappings (codePoints tapeSegment) with
    | Some P => inr P
    | None => inl RangeError
    end.
Proof.
  unfold encodeAsGodel. rewrite godelLoop_productOf.
  destruct (productOf _ _) as [P|]; simpl; [|reflexivity].
  now rewrite Z.mul_1_l.
Qed.

Lemma productOf_positive primeMappings glyphs P :
  productOf primeMappings glyphs = Some P → 1 ≤ P.
Proof.
  revert P. induction glyphs as [|glyph rest IH]; intros P; simpl.
  - intros H; inversion H; lia.
  - destruct (factorOf primeMappings glyph) as [f|] eqn:Hf; [|discriminate].
    destruct (productOf primeMappings rest) as [Q|]; [|discriminate].
    intros H; inversion H; subst.
    apply factorOf_positive in Hf. specialize (IH Q eq_refl). nia.
Qed.

Lemma productOf_not_registry primeMappings glyphs :
  Forall (fun glyph => isRegistryGlyph glyph = false) glyphs →
  productOf primeMappings glyphs = Some 1.
Proof.
  intros HF. induction HF as [|glyph rest Hg _ IH]; [reflexivity|]. simpl.
  now rewrite (factorOf_not_registry _ _ Hg), IH.
Qed.

Lemma productOf_Permutation primeMappings glyphs glyphs' :
  glyphs ≡ₚ glyphs' →
  productOf primeMappings glyphs = productOf primeMappings glyphs'.
Proof.
  intros HP. induction HP as [|glyph l l' _ IH|g1 g2 l|l l' l'' _ IH1 _ IH2]; simpl.
  - reflexivity.
  - now rewrite IH.
  - destruct (factorOf primeMappings g1) as [f1|], (factorOf primeMappings g2) as [f2|],
      (productOf primeMappings l) as [P|]; try reflexivity.
    f_equal. lia.
  - congruence.
Qed.

(** With normalizedActivations within [-1, 1] every exponent is in 1..5,
    so that no conversion throws. *)
Lemma exponentOf_withinOne m :
  withinOne m →
  ∃ k, Num.Math_floor
         (PrimFloat.mul (PrimFloat.abs (PrimeMappedEmbedding.normalizedActivation m)) 5%float)
       = Num.IInt k
       ∧ 0 ≤ k ≤ 5
       ∧ exponentOf (Some m) = Num.IInt (Z.max 1 k).
Proof.
  intros Hm. destruct (Math_floor_strength _ Hm) as (_ & k & Hk & Hrange).
  exists k. unfold exponentOf. now rewrite Hk.
Qed.

Lemma factorOf_withinOne primeMappings glyph :
  Forall withinOne primeMappings → ∃ f, factorOf primeMappings glyph = Some f.
Proof.
  intros HF. unfold factorOf. destruct (primeMap !! glyph) as [prime|]; [|eauto].
  destruct (prime =? 0); [eauto|].
  destruct (find _ primeMappings) as [m|] eqn:Hfind.
  - apply find_some in Hfind as [Hin _]. apply list_elem_of_In in Hin.
    rewrite Forall_forall in HF.
    destruct (exponentOf_withinOne m (HF m Hin)) as (k & _ & Hk & ->).
    destruct (Z.ltb_spec (Z.max 1 k) 0); [lia|eauto].
  - simpl. eauto.
Qed.

Lemma productOf_withinOne primeMappings glyphs :
  Forall withinOne primeMappings → ∃ P, productOf primeMappings glyphs = Some P.
Proof.
  intros HF. induction glyphs as [|glyph rest [P IH]]; simpl; [eauto|].
  destruct (factorOf_withinOne primeMappings glyph HF) as [f ->]. rewrite IH. eauto.
Qed.

Lemma encodeAsGodel_productOf {E} tapeSegment primeMappings P :
  productOf primeMappings (codePoints tapeSegment) = Some P →
  encodeAsGodel (E := E) tapeSegment primeMappings
  = inr {| GodelEncoding.tapeSegment := tapeSegment;
           GodelEncoding.godelNumber := P;
           GodelEncoding.primeMappings := primeMappings;
           GodelEncoding.hierarchy :=
             {| GodelEncoding.size := length tapeSegment;
                GodelEncoding.program := tapeSegment;
                GodelEncoding.cycles := (length tapeSegment / 7)%nat |} |}.
Proof.
  intros HP. unfold encodeAsGodel. rewrite godelLoop_productOf, HP.
  now rewrite Z.mul_1_l.
Qed.

Lemma encodeAsGodel_inr {E} tapeSegment primeMappings r :
  encodeAsGodel (E := E) tapeSegment primeMappings = inr r →
  productOf primeMappings (codePoints tapeSegment) = Some (GodelEncoding.godelNumber r)
  ∧ GodelEncoding.hierarchy r
    = {| GodelEncoding.size := length tapeSegment;
         GodelEncoding.program := tapeSegment;
         GodelEncoding.cycles := (length tapeSegment / 7)%nat |}.
Proof.
  unfold encodeAsGodel. rewrite godelLoop_productOf.
  destruct (productOf _ _) as [P|]; [|discriminate].
  intros Hr. inversion Hr; subst; simpl. now rewrite Z.mul_1_l.
Qed.

Lemma encodeAsGodel_withinOne {E} tapeSegment primeMappings :
  Forall withinOne primeMappings →
  ∃ r, encodeAsGodel (E := E) tapeSegment primeMappings = inr r.
Proof.
  intros HF. destruct (productOf_withinOne primeMappings (codePoints tapeSegment) HF) as [P HP].
  eexists. apply (encodeAsGodel_productOf _ _ _ HP).
Qed.

(** The ranked list of the example vector, used to run the encoder. *)
Lemma examplePooled_withinOne :
  Forall withinOne (mapEmbeddingsToPrimes tanhStub (embeddingsOf examplePooled)).
Proof.
  apply Forall_forall. intros m Hm. vm_compute in Hm.
  repeat (apply elem_of_cons in Hm as [->|Hm]; [reflexivity|]).
  now apply elem_of_nil in Hm.
Qed.

(** C2. Whatever [encodeAsGodel] returns has [godelNumber >= 1]; on a
    segment with no glyph of the registry it returns, and the number is
    exactly 1 (the empty product), for every list of prime mappings; and it
    does return for every segment when the normalizedActivation of each
    mapping is within [-1, 1], as the values of [tanh] are. *)
Theorem godelNumber_at_least_one {E} tapeSegment primeMappings :
  (∀ r, encodeAsGodel (E := E) tapeSegment primeMappings = inr r →
        1 ≤ GodelEncoding.godelNumber r)
  ∧ (Forall (fun glyph => isRegistryGlyph glyph = false) (codePoints tapeSegment) →
     ∃ r, encodeAsGodel (E := E) tapeSegment primeMappings = inr r
          ∧ GodelEncoding.godelNumber r = 1)
  ∧ (Forall withinOne primeMappings →
     ∃ r, encodeAsGodel (E := E) tapeSegment primeMappings = inr r).
Proof.
  split; [|split].
  - intros r Hr. apply encodeAsGodel_inr in Hr as [HP _].
    now apply productOf_positive in HP.
  - intros Hg. apply (productOf_not_registry primeMappings) in Hg.
    eexists. split; [apply (encodeAsGodel_productOf _ _ _ Hg)|reflexivity].
  - apply encodeAsGodel_withinOne.
Qed.

(** C2 on the default tape, with the ranked list of the example vector. *)
Lemma godelNumber_at_least_one_witness :
  ∃ r, encodeAsGodel (E := Empty_set) EMOJI_BLOCK_TAPE
                     (mapEmbeddingsToPrimes tanhStub (embeddingsOf examplePooled)) = inr r
       ∧ 1 ≤ GodelEncoding.godelNumber r.
Proof.
  destruct (godelNumber_at_least_one (E := Empty_set) EMOJI_BLOCK_TAPE
              (mapEmbeddingsToPrimes tanhStub (embeddingsOf examplePooled)))
    as (Hge & _ & Hret).
  destruct (Hret examplePooled_withinOne) as [r Hr].
  exists r. split; [exact Hr|exact (Hge r Hr)].
Defined.

(** What [encodeAsGodel] stores in [hierarchy]: [size] is
    [tapeSegment.length], the number of UTF-16 code units of the segment
    text, which is its number of code points plus one more for every
    surrogate pair; [program] is the text verbatim and [cycles] is
    [floor(size / 7)]. *)
Lemma hierarchy_counts_code_units {E} tapeSegment primeMappings r :
  encodeAsGodel (E := E) tapeSegment primeMappings = inr r →
  let h := GodelEncoding.hierarchy r in
  GodelEncoding.size h = length tapeSegment
  ∧ GodelEncoding.size h = (codePointLength tapeSegment + surrogatePairs tapeSegment)%nat
  ∧ GodelEncoding.program h = tapeSegment
  ∧ GodelEncoding.cycles h = (GodelEncoding.size h / 7)%nat.
Proof.
  intros Hr. apply encodeAsGodel_inr in Hr as [_ ->]. simpl.
  repeat split. apply length_codePoints.
Qed.

(** C4. The code run on the default tape, which has 21 code points (19
    emoji and two separators): the size claimed is 21 and the cycles 3, the
    code stores 40, the number of code units, and 5 cycles. On its first
    segment, seven emoji, the code stores 14 and 2 where 7 and 1 are
    claimed. [program] is the text verbatim, as claimed. *)
Theorem hierarchy_size_not_code_points :
  let segment := take 14 EMOJI_BLOCK_TAPE in
  (∃ r, encodeAsGodel (E := Empty_set) EMOJI_BLOCK_TAPE [] = inr r
        ∧ codePointLength EMOJI_BLOCK_TAPE = 21%nat
        ∧ (codePointLength EMOJI_BLOCK_TAPE / 7 = 3)%nat
        ∧ GodelEncoding.size (GodelEncoding.hierarchy r) = 40%nat
        ∧ GodelEncoding.cycles (GodelEncoding.hierarchy r) = 5%nat
        ∧ GodelEncoding.program (GodelEncoding.hierarchy r) = EMOJI_BLOCK_TAPE)
  ∧ (∃ r, encodeAsGodel (E := Empty_set) segment [] = inr r
          ∧ codePointLength segment = 7%nat
          ∧ (codePointLength segment / 7 = 1)%nat
          ∧ GodelEncoding.size (GodelEncoding.hierarchy r) = 14%nat
          ∧ GodelEncoding.cycles (GodelEncoding.hierarchy r) = 2%nat
          ∧ GodelEncoding.program (GodelEncoding.hierarchy r) = segment).
Proof.
  cbv zeta. split.
  - eexists. split; [vm_compute; reflexivity|]. vm_compute. repeat split.
  - eexists. split; [vm_compute; reflexivity|]. vm_compute. repeat split.
Qed.

(** C9. Two segment texts whose code points are permutations of each other
    have the same outcome under [encodeAsGodel], for every list of prime
    mappings: the same [godelNumber], or the same error when the conversion
    of an exponent throws. With normalizedActivations within [-1, 1], as
    the values of [tanh] are, both calls return. *)
Theorem godelNumber_permutation {E} primeMappings s1 s2 :
  codePoints s1 ≡ₚ codePoints s2 →
  godelOutcome (encodeAsGodel (E := E) s1 primeMappings)
  = godelOutcome (encodeAsGodel (E := E) s2 primeMappings)
  ∧ (Forall withinOne primeMappings →
     ∃ r1 r2, encodeAsGodel (E := E) s1 primeMappings = inr r1
              ∧ encodeAsGodel (E := E) s2 primeMappings = inr r2
              ∧ GodelEncoding.godelNumber r1 = GodelEncoding.godelNumber r2).
Proof.
  intros HP. apply (productOf_Permutation primeMappings) in HP. split.
  - now rewrite !godelOutcome_productOf, HP.
  - intros HF.
    destruct (productOf_withinOne primeMappings (codePoints s1) HF) as [P H1].
    pose proof H1 as H2. rewrite HP in H2.
    do 2 eexists. split; [apply (encodeAsGodel_productOf _ _ _ H1)|].
    split; [apply (encodeAsGodel_productOf _ _ _ H2)|reflexivity].
Qed.

(** C9 on two glyphs in either order. *)
Lemma godelNumber_permutation_witness :
  let s1 := [55356; 57257; 55356; 57266] in
  let s2 := [55356; 57266; 55356; 57257] in
  codePoints s1 ≡ₚ codePoints s2
  ∧ godelOutcome (encodeAsGodel (E := Empty_set) s1 [])
    = godelOutcome (encodeAsGodel (E := Empty_set) s2 []).
Proof.
  cbv zeta.
  assert (HP : codePoints [55356; 57257; 55356; 57266] ≡ₚ codePoints [55356; 57266; 55356; 57257])
    by apply Permutation_swap.
  split; [exact HP|]. apply (godelNumber_permutation [] _ _ HP).
Defined.

(** C3. For a one-glyph segment whose glyph is the registry entry with
    prime [p], and whose entry in the supplied list ([find]'s first match)
    has normalizedActivation [a], a value of [tanh] and so within [-1, 1],
    [encodeAsGodel] returns [godelNumber = p ^ max(1, floor(abs(a) * 5))],
    the product and the floor being those of double arithmetic, and the
    exponent is an integer in 1..5. *)
Theorem one_glyph_godelNumber {E} p primeMappings mapping :
  p ∈ INTRINSIC_PRIMES →
  find (fun m => PrimeMappedEmbedding.prime m =? EmojiPrimeMapping.prime p) primeMappings
  = Some mapping →
  let a := PrimeMappedEmbedding.normalizedActivation mapping in
  PrimFloat.leb (PrimFloat.abs a) 1 = true →
  ∃ k r, Num.Math_floor (PrimFloat.mul (PrimFloat.abs a) 5) = Num.IInt k
         ∧ encodeAsGodel (E := E) (EmojiPrimeMapping.emoji p) primeMappings = inr r
         ∧ GodelEncoding.godelNumber r = EmojiPrimeMapping.prime p ^ Z.max 1 k
         ∧ 1 ≤ Z.max 1 k ≤ 5.
Proof.
  intros Hp Hfind a Hle.
  destruct (exponentOf_withinOne mapping Hle) as (k & Hk & Hrange & He).
  pose proof registry_entries as HF. rewrite Forall_forall in HF.
  destruct (HF p Hp) as (H2 & Hcp & Hmap).
  exists k. eexists. split; [exact Hk|]. split.
  - apply encodeAsGodel_productOf. rewrite Hcp. cbn [productOf]. unfold factorOf.
    rewrite Hmap. destruct (Z.eqb_spec (EmojiPrimeMapping.prime p) 0); [lia|].
    rewrite Hfind, He. destruct (Z.ltb_spec (Z.max 1 k) 0); [lia|]. reflexivity.
  - cbn [GodelEncoding.godelNumber]. split; lia.
Qed.

(** C3 for the glyph of prime 2 with normalizedActivation -0.75: the
    exponent is [floor(3.75) = 3]. *)
Lemma one_glyph_godelNumber_witness :
  let p := entry [55356; 57257] 2 "Creativity" "Initialize state or vector" in
  let mapping :=
    {| PrimeMappedEmbedding.prime := 2;
       PrimeMappedEmbedding.emoji := [55356; 57257];
       PrimeMappedEmbedding.activation := 1%float;
       PrimeMappedEmbedding.normalizedActivation := (-0x1.8p-1)%float;
       PrimeMappedEmbedding.rank := 1 |} in
  p ∈ INTRINSIC_PRIMES
  ∧ find (fun m => PrimeMappedEmbedding.prime m =? EmojiPrimeMapping.prime p) [mapping]
    = Some mapping
  ∧ PrimFloat.leb (PrimFloat.abs (PrimeMappedEmbedding.normalizedActivation mapping)) 1 = true
  ∧ ∃ r, encodeAsGodel (E := Empty_set) (EmojiPrimeMapping.emoji p) [mapping] = inr r
         ∧ GodelEncoding.godelNumber r = 2 ^ 3.
Proof.
  cbv zeta.
  set (p := entry [55356; 57257] 2 "Creativity" "Initialize state or vector").
  set (mapping := {| PrimeMappedEmbedding.prime := 2;
                     PrimeMappedEmbedding.emoji := [55356; 57257];
                     PrimeMappedEmbedding.activation := 1%float;
                     PrimeMappedEmbedding.normalizedActivation := (-0x1.8p-1)%float;
                     PrimeMappedEmbedding.rank := 1 |}).
  assert (Hp : p ∈ INTRINSIC_PRIMES) by apply list_elem_of_here.
  split; [exact Hp|]. split; [reflexivity|]. split; [reflexivity|].
  destruct (one_glyph_godelNumber (E := Empty_set) p [mapping] mapping Hp eq_refl eq_refl)
    as (k & r & Hk & Hr & Hg & _).
  exists r. split; [exact Hr|]. rewrite Hg.
  vm_compute in Hk. inversion Hk. reflexivity.
Defined.

(** The code itself does not clamp the exponent from above: it is the range
    of [tanh] that keeps it within 1..5. With a normalizedActivation of 2 for
    the glyph of prime 2 the exponent is 10 and the number is [2 ^ 10], and
    with [NaN] the conversion to a bigint throws. *)
Lemma exponent_not_clamped :
  let mapping a :=
    {| PrimeMappedEmbedding.prime := 2;
       PrimeMappedEmbedding.emoji := [55356; 57257];
       PrimeMappedEmbedding.activation := a;
       PrimeMappedEmbedding.normalizedActivation := a;
       PrimeMappedEmbedding.rank := 1 |} in
  exponentOf (Some (mapping 2%float)) = Num.IInt 10
  ∧ (∃ r, encodeAsGodel (E := Empty_set) [55356; 57257] [mapping 2%float] = inr r
          ∧ GodelEncoding.godelNumber r = 2 ^ 10)
  ∧ encodeAsGodel (E := Empty_set) [55356; 57257] [mapping nan] = inl RangeError.
Proof.
  cbv zeta. split; [vm_compute; reflexivity|]. split.
  - eexists. split; [vm_compute; reflexivity|reflexivity].
  - vm_compute. reflexivity.
Qed.

(** ** The display's Gödel number *)

Lemma surrogate_not_bar c :
  isHighSurrogate c || isLowSurrogate c = true → c ≠ 124.
Proof. unfold isHighSurrogate, isLowSurrogate. lia. Qed.

Lemma stripBars_cons c s :
  stripBars (c :: s) = if decide (c = 124) then stripBars s else c :: stripBars s.
Proof.
  unfold stripBars. rewrite filter_cons.
  destruct (decide (c = 124)), (decide (c ≠ 124)); first [reflexivity|tauto].
Qed.

Lemma codePoints_cons_not_high c s :
  isHighSurrogate c = false → codePoints (c :: s) = [c] :: codePoints s.
Proof. intros Hc. destruct s as [|d s]; [reflexivity|]. cbn [codePoints]. now rewrite Hc. Qed.

(** On well-formed text, dropping the separators and then reading code
    points is reading code points and then dropping the separators. *)
Lemma codePoints_stripBars tape :
  wellFormed tape = true →
  codePoints (stripBars tape) = filter (fun cp => cp ≠ [124]) (codePoints tape).
Proof.
  unfold wellFormed. revert tape.
  apply (codePoints_ind (fun tape =>
    forallb (fun cp => negb (loneSurrogate cp)) (codePoints tape) = true →
    codePoints (stripBars tape) = filter (fun cp => cp ≠ [124]) (codePoints tape))).
  - reflexivity.
  - intros c Hw. cbn in Hw. rewrite stripBars_cons. cbn [codePoints].
    rewrite filter_cons. destruct (decide (c = 124)) as [->|Hc].
    + now destruct (decide ([124] ≠ [124])).
    + destruct (decide ([c] ≠ [124])) as [_|Hn]; [reflexivity|].
      exfalso. apply Hn. congruence.
  - intros c d rest Hcd IH Hw. rewrite codePoints_pair in * by exact Hcd.
    cbn [forallb] in Hw. apply andb_true_iff in Hw as [_ Hw].
    apply andb_true_iff in Hcd as [Hc Hd].
    rewrite !stripBars_cons.
    destruct (decide (c = 124)) as [->|_]; [discriminate|].
    destruct (decide (d = 124)) as [->|_]; [discriminate|].
    rewrite codePoints_pair by (now rewrite Hc, Hd).
    rewrite filter_cons. destruct (decide ([c; d] ≠ [124])) as [_|Hn];
      [|exfalso; apply Hn; congruence].
    now rewrite IH.
  - intros c d rest Hcd IH Hw. rewrite codePoints_single in * by exact Hcd.
    cbn [forallb loneSurrogate] in Hw. apply andb_true_iff in Hw as [Hc Hw].
    apply negb_true_iff, orb_false_iff in Hc as [Hc _].
    rewrite stripBars_cons, filter_cons, <- (IH Hw).
    destruct (decide (c = 124)) as [->|Hne].
    + now destruct (decide ([124] ≠ [124])).
    + destruct (decide ([c] ≠ [124])) as [_|Hn]; [|exfalso; apply Hn; congruence].
      now apply codePoints_cons_not_high.
Qed.

Lemma calculateGodelNumber_fold glyphs acc :
  fold_left (fun godel emoji =>
               match primeMap !! emoji with
               | Some prime => if prime =? 0 then godel else godel * prime
               | None => godel
               end) glyphs acc
  = acc * displayProduct glyphs.
Proof.
  revert acc. induction glyphs as [|glyph rest IH]; intros acc; simpl; [lia|].
  rewrite IH. unfold displayFactor.
  destruct (primeMap !! glyph) as [prime|]; [destruct (prime =? 0)|]; lia.
Qed.

Lemma calculateGodelNumber_product tape :
  calculateGodelNumber tape = displayProduct (codePoints (stripBars tape)).
Proof. unfold calculateGodelNumber. rewrite calculateGodelNumber_fold. lia. Qed.

Lemma displayFactor_divides primeMappings glyph f :
  factorOf primeMappings glyph = Some f → (displayFactor glyph | f).
Proof.
  unfold factorOf, displayFactor. destruct (primeMap !! glyph) as [prime|].
  - destruct (prime =? 0); [intros Hf; inversion Hf; reflexivity|].
    destruct (exponentOf _) as [| |e] eqn:He; try discriminate.
    apply exponentOf_positive in He. destruct (Z.ltb_spec e 0); [lia|].
    intros Hf; inversion Hf. exists (prime ^ (e - 1)).
    replace (prime ^ e) with (prime ^ Z.succ (e - 1)) by (f_equal; lia).
    rewrite Z.pow_succ_r by lia. ring.
  - intros Hf; inversion Hf; reflexivity.
Qed.

Lemma displayProduct_divides primeMappings glyphs P :
  productOf primeMappings glyphs = Some P →
  (displayProduct (filter (fun cp => cp ≠ [124]) glyphs) | P).
Proof.
  revert P. induction glyphs as [|glyph rest IH]; intros P; simpl.
  - intros HP; inversion HP; reflexivity.
  - destruct (factorOf primeMappings glyph) as [f|] eqn:Hf; [|discriminate].
    destruct (productOf primeMappings rest) as [Q|]; [|discriminate].
    intros HP; inversion HP; subst. specialize (IH Q eq_refl).
    rewrite filter_cons. destruct (decide (glyph ≠ [124])).
    + cbn [displayProduct fold_right].
      apply (displayFactor_divides primeMappings) in Hf.
      destruct Hf as [x ->], IH as [y ->]. exists (x * y).
      fold (displayProduct (filter (fun cp => cp ≠ [124]) rest)). ring.
    + now apply Z.divide_mul_r.
Qed.

(** C10 (as amended). For every tape that is well-formed UTF-16 and every
    list of prime mappings, the display's [calculateGodelNumber] of the tape
    divides the [godelNumber] of whatever the core [encodeAsGodel] returns
    on the tape; and the core does return when the normalizedActivation of
    each mapping is within [-1, 1], as the values of [tanh] are. *)
Theorem display_divides_core {E} tape primeMappings :
  wellFormed tape = true →
  (∀ r, encodeAsGodel (E := E) tape primeMappings = inr r →
        (calculateGodelNumber tape | GodelEncoding.godelNumber r))
  ∧ (Forall withinOne primeMappings →
     ∃ r, encodeAsGodel (E := E) tape primeMappings = inr r).
Proof.
  intros Hw. split; [|apply encodeAsGodel_withinOne].
  intros r Hr. apply encodeAsGodel_inr in Hr as [HP _].
  rewrite calculateGodelNumber_product, codePoints_stripBars by exact Hw.
  now apply (displayProduct_divides primeMappings).
Qed.

(** C10 on the default tape, with the ranked list of the example vector. *)
Lemma display_divides_core_witness :
  let primeMappings := mapEmbeddingsToPrimes tanhStub (embeddingsOf examplePooled) in
  wellFormed EMOJI_BLOCK_TAPE = true
  ∧ Forall withinOne primeMappings
  ∧ ∃ r, encodeAsGodel (E := Empty_set) EMOJI_BLOCK_TAPE primeMappings = inr r
         ∧ (calculateGodelNumber EMOJI_BLOCK_TAPE | GodelEncoding.godelNumber r).
Proof.
  cbv zeta.
  split; [reflexivity|]. split; [exact examplePooled_withinOne|].
  destruct (display_divides_core (E := Empty_set) EMOJI_BLOCK_TAPE
              (mapEmbeddingsToPrimes tanhStub (embeddingsOf examplePooled)) eq_refl)
    as [Hdiv Hret].
  destruct (Hret examplePooled_withinOne) as [r Hr].
  exists r. split; [exact Hr|exact (Hdiv r Hr)].
Defined.

(** C10, the claim as stated fails on a tape whose separator stands between
    the two halves of a surrogate pair: the display joins them into the
    glyph of prime 2, the core sees no glyph at all, and 2 does not divide 1.
    It also fails for the real number 1e308 as normalizedActivation, whose
    product with 5 is infinite: the core throws. *)
Lemma display_not_dividing_core :
  let tape := [55356; 124; 57257] in
  let huge :=
    {| PrimeMappedEmbedding.prime := 2;
       PrimeMappedEmbedding.emoji := [55356; 57257];
       PrimeMappedEmbedding.activation := 0x1.1ccf385ebc8ap+1023%float;
       PrimeMappedEmbedding.normalizedActivation := 0x1.1ccf385ebc8ap+1023%float;
       PrimeMappedEmbedding.rank := 1 |} in
  calculateGodelNumber tape = 2
  ∧ (∃ r, encodeAsGodel (E := Empty_set) tape [] = inr r
          ∧ GodelEncoding.godelNumber r = 1
          ∧ ¬ (calculateGodelNumber tape | GodelEncoding.godelNumber r))
  ∧ PrimFloat.is_finite (PrimeMappedEmbedding.normalizedActivation huge) = true
  ∧ encodeAsGodel (E := Empty_set) [55356; 57257] [huge] = inl RangeError.
Proof.
  cbv zeta. split; [vm_compute; reflexivity|]. split.
  - eexists. split; [vm_compute; reflexivity|]. split; [reflexivity|].
    cbn [GodelEncoding.godelNumber].
    change (calculateGodelNumber [55356; 124; 57257]) with 2.
    intros [x Hx]. lia.
  - split; vm_compute; reflexivity.
Qed.

(** ** Stable sorting with a comparator *)

Section StableSort.
Context {A : Type}.
Variable comparefn : A → A → float.
Variable wellBehaved : A → Prop.
Variable key : A → Z.
Variable idx : A → Z.

(** On well-behaved elements the comparator is positive exactly when its
    first argument has the smaller key. *)
Hypothesis comparefn_key : ∀ a b,
  wellBehaved a → wellBehaved b →
  PrimFloat.ltb 0 (comparefn a b) = (key a <? key b).

Lemma insert_Permutation a l : insert comparefn a l ≡ₚ a :: l.
Proof.
  induction l as [|b l IH]; simpl; [reflexivity|].
  destruct (PrimFloat.ltb 0 (comparefn a b)); [|reflexivity].
  rewrite IH. apply Permutation_swap.
Qed.

Lemma sort_Permutation l : sort comparefn l ≡ₚ l.
Proof.
  induction l as [|a l IH]; simpl; [reflexivity|].
  change (fold_right (insert comparefn) [] l) with (sort comparefn l).
  now rewrite insert_Permutation, IH.
Qed.

Lemma insert_sorted a l :
  wellBehaved a → Forall wellBehaved l →
  Forall (fun b => idx a < idx b) l →
  StronglySorted (sortedBefore key idx) l →
  StronglySorted (sortedBefore key idx) (insert comparefn a l).
Proof.
  intros Ha Hl Hidx Hs. induction Hs as [|b l Hs IH Hb]; simpl.
  - repeat constructor.
  - apply Forall_cons in Hl as [Hwb Hl]. apply Forall_cons in Hidx as [Hab Hidx].
    rewrite (comparefn_key a b Ha Hwb). destruct (Z.ltb_spec (key a) (key b)) as [Hlt|Hge].
    + constructor; [now apply IH|].
      rewrite insert_Permutation. constructor; [now left|exact Hb].
    + constructor; [now constructor|]. constructor.
      * unfold sortedBefore. lia.
      * rewrite Forall_forall in *. intros x Hx.
        specialize (Hb x Hx). specialize (Hidx x Hx). unfold sortedBefore in *. lia.
Qed.

Lemma sort_sorted l :
  Forall wellBehaved l →
  StronglySorted (fun a b => idx a < idx b) l →
  StronglySorted (sortedBefore key idx) (sort comparefn l).
Proof.
  intros Hl Hs. induction Hs as [|a l Hs IH Ha]; simpl; [constructor|].
  change (fold_right (insert comparefn) [] l) with (sort comparefn l).
  apply Forall_cons in Hl as [Hwa Hl]. apply insert_sorted.
  - exact Hwa.
  - now rewrite sort_Permutation.
  - now rewrite sort_Permutation.
  - now apply IH.
Qed.

(** The sorted list is the only arrangement of [l] in that order: every
    stable sort with this comparator returns it. *)
Lemma sort_unique l l' :
  Forall wellBehaved l →
  StronglySorted (fun a b => idx a < idx b) l →
  l' ≡ₚ l → StronglySorted (sortedBefore key idx) l' →
  l' = sort comparefn l.
Proof.
  intros Hl Hs HP Hs'. apply (StronglySorted_unique_strong (sortedBefore key idx)).
  - intros x1 x2 _ _ H1 H2. unfold sortedBefore in *. lia.
  - exact Hs'.
  - now apply sort_sorted.
  - now rewrite sort_Permutation.
Qed.

Lemma sorted_lookup (R : A → A → Prop) l i j a b :
  StronglySorted R l → l !! i = Some a → l !! j = Some b → (i < j)%nat → R a b.
Proof.
  intros Hs. revert i j. induction Hs as [|x l Hs IH Hx]; intros i j Hi Hj Hij.
  - now rewrite lookup_nil in Hi.
  - destruct j as [|j]; [lia|]. destruct i as [|i]; simpl in Hi, Hj.
    + inversion Hi; subst. rewrite Forall_forall in Hx. apply Hx.
      now apply list_elem_of_lookup_2 in Hj.
    + apply (IH i j); [exact Hi|exact Hj|lia].
Qed.

End StableSort.

(** ** The prime mapper *)

Lemma byStrength_sign a b :
  PrimFloat.is_nan (PrimeMappedEmbedding.normalizedActivation a) = false →
  PrimFloat.is_nan (PrimeMappedEmbedding.normalizedActivation b) = false →
  PrimFloat.ltb 0 (byStrength a b) = (strengthOf a <? strengthOf b).
Proof.
  intros Ha Hb. unfold byStrength, strengthOf.
  rewrite ltb_spec, sub_spec, !abs_spec. change (Prim2SF 0) with (S754_zero false).
  destruct (abs_unsigned _ Ha), (abs_unsigned _ Hb). now apply SFsub_sign.
Qed.

Lemma leb_strength a b :
  PrimFloat.is_nan (PrimeMappedEmbedding.normalizedActivation a) = false →
  PrimFloat.is_nan (PrimeMappedEmbedding.normalizedActivation b) = false →
  PrimFloat.leb (PrimFloat.abs (PrimeMappedEmbedding.normalizedActivation b))
                (PrimFloat.abs (PrimeMappedEmbedding.normalizedActivation a))
  = (strengthOf b <=? strengthOf a).
Proof.
  intros Ha Hb. unfold strengthOf. rewrite leb_spec, !abs_spec. unfold SFleb.
  destruct (abs_unsigned _ Ha) as [Va Ua], (abs_unsigned _ Hb) as [Vb Ub].
  rewrite (SFcompare_magnitude _ _ Vb Va Ub Ua).
  destruct (Z.compare_spec (magnitude (SFabs (Prim2SF (PrimeMappedEmbedding.normalizedActivation b))))
                           (magnitude (SFabs (Prim2SF (PrimeMappedEmbedding.normalizedActivation a)))));
    symmetry; [apply Z.leb_le|apply Z.leb_le|apply Z.leb_gt]; lia.
Qed.

Lemma eqb_strength a b :
  PrimFloat.is_nan (PrimeMappedEmbedding.normalizedActivation a) = false →
  PrimFloat.is_nan (PrimeMappedEmbedding.normalizedActivation b) = false →
  PrimFloat.eqb (PrimFloat.abs (PrimeMappedEmbedding.normalizedActivation a))
                (PrimFloat.abs (PrimeMappedEmbedding.normalizedActivation b))
  = (strengthOf a =? strengthOf b).
Proof.
  intros Ha Hb. unfold strengthOf. rewrite eqb_spec, !abs_spec. unfold SFeqb.
  destruct (abs_unsigned _ Ha) as [Va Ua], (abs_unsigned _ Hb) as [Vb Ub].
  rewrite (SFcompare_magnitude _ _ Va Vb Ua Ub).
  destruct (Z.compare_spec (magnitude (SFabs (Prim2SF (PrimeMappedEmbedding.normalizedActivation a))))
                           (magnitude (SFabs (Prim2SF (PrimeMappedEmbedding.normalizedActivation b)))));
    symmetry; [apply Z.eqb_eq|apply Z.eqb_neq|apply Z.eqb_neq]; lia.
Qed.

Lemma orElse_not_nan v : PrimFloat.is_nan (Num.orElse v 0) = false.
Proof.
  unfold Num.orElse, Num.truthy. destruct (PrimFloat.is_nan v) eqn:Hv; [reflexivity|].
  simpl. now destruct (PrimFloat.is_zero v).
Qed.

Lemma activationAt_not_nan reducedDimensions index :
  PrimFloat.is_nan (activationAt reducedDimensions index) = false.
Proof.
  unfold activationAt. destruct (reducedDimensions !! index); [|reflexivity].
  apply orElse_not_nan.
Qed.

Lemma registryIndex_lookup i p :
  INTRINSIC_PRIMES !! i = Some p → registryIndex (EmojiPrimeMapping.prime p) = i.
Proof.
  do 10 (destruct i as [|i]; [intros Hp; inversion Hp; reflexivity|]).
  discriminate.
Qed.

Lemma imap_sorted_by_index {B} (idx : B → Z) (f : nat → EmojiPrimeMapping.t → B) k l :
  (∀ i x, idx (f i x) = Z.of_nat (k + i)) →
  StronglySorted (fun a b => idx a < idx b) (imap f l).
Proof.
  revert f k. induction l as [|x l IH]; intros f k Hf; [constructor|].
  rewrite imap_cons. constructor.
  - apply (IH _ (S k)). intros i y. simpl. rewrite Hf. lia.
  - apply Forall_lookup. intros i y Hy.
    apply list_lookup_imap_Some in Hy as (z & _ & ->). simpl. rewrite !Hf. lia.
Qed.

Lemma mapEmbeddingsToPrimes_unfold tanh embeddings :
  mapEmbeddingsToPrimes tanh embeddings
  = imap (fun index mapping => PrimeMappedEmbedding.withRank mapping (Z.of_nat index + 1))
      (sort byStrength
         (imap (fun index primeInfo =>
                  mappingAt tanh
                    (activationAt
                       (reduceToPrimeDimensions (LLMEmbeddings.pooledEmbedding embeddings) 10)
                       index)
                    index primeInfo)
               INTRINSIC_PRIMES)).
Proof. reflexivity. Qed.

Section Ranking.
Variable tanh : float → float.
Hypothesis tanh_not_nan : ∀ x, PrimFloat.is_nan x = false → PrimFloat.is_nan (tanh x) = false.

(** Before the ranks are overwritten, the sorted list holds the ten entries
    of the registry, strongest first, with their registry index as rank. *)
Lemma sorted_mappings embeddings :
  ∃ sorted,
    mapEmbeddingsToPrimes tanh embeddings
    = imap (fun index mapping => PrimeMappedEmbedding.withRank mapping (Z.of_nat index + 1))
           sorted
    ∧ length sorted = 10%nat
    ∧ Forall notNaN sorted
    ∧ StronglySorted (sortedBefore strengthOf PrimeMappedEmbedding.rank) sorted
    ∧ Forall (fun m => Z.of_nat (registryIndex (PrimeMappedEmbedding.prime m))
                       = PrimeMappedEmbedding.rank m) sorted
    ∧ map PrimeMappedEmbedding.prime sorted ≡ₚ map EmojiPrimeMapping.prime INTRINSIC_PRIMES.
Proof.
  rewrite mapEmbeddingsToPrimes_unfold.
  set (act := activationAt (reduceToPrimeDimensions (LLMEmbeddings.pooledEmbedding embeddings) 10)).
  set (mappings := imap (fun index primeInfo => mappingAt tanh (act index) index primeInfo)
                        INTRINSIC_PRIMES).
  assert (Hn : Forall notNaN mappings).
  { apply Forall_lookup. intros i m Hm.
    apply list_lookup_imap_Some in Hm as (p & _ & ->).
    apply tanh_not_nan, activationAt_not_nan. }
  assert (Hs : StronglySorted (fun a b => PrimeMappedEmbedding.rank a < PrimeMappedEmbedding.rank b)
                              mappings).
  { apply (imap_sorted_by_index _ _ 0%nat). reflexivity. }
  assert (Hr : Forall (fun m => Z.of_nat (registryIndex (PrimeMappedEmbedding.prime m))
                                = PrimeMappedEmbedding.rank m) mappings).
  { apply Forall_lookup. intros i m Hm.
    apply list_lookup_imap_Some in Hm as (p & Hp & ->). simpl.
    now rewrite (registryIndex_lookup i p Hp). }
  assert (Hp : map PrimeMappedEmbedding.prime mappings
               = map EmojiPrimeMapping.prime INTRINSIC_PRIMES).
  { subst mappings. change (map PrimeMappedEmbedding.prime ?l) with (PrimeMappedEmbedding.prime <$> l).
    rewrite fmap_imap. apply imap_const. }
  pose proof (sort_Permutation byStrength mappings) as HP.
  exists (sort byStrength mappings). split; [reflexivity|]. split; [|split; [|split; [|split]]].
  - rewrite HP. subst mappings. now rewrite length_imap.
  - now rewrite HP.
  - apply (sort_sorted byStrength notNaN); [|exact Hn|exact Hs].
    intros a b. apply byStrength_sign.
  - now rewrite HP.
  - rewrite <- Hp. now apply Permutation_map.
Qed.

(** C1. [mapEmbeddingsToPrimes] returns 10 entries whose primes are the 10
    primes of the registry and whose ranks are 1, ..., 10 in order of
    output. An entry of smaller rank has an [abs(normalizedActivation)] at
    least as large, and of two entries with equal [abs(normalizedActivation)]
    the one earlier in the registry has the smaller rank (the sort is
    stable); so the entry of rank 1 has the maximum. *)
Theorem mapEmbeddingsToPrimes_ranked embeddings :
  let ranked := mapEmbeddingsToPrimes tanh embeddings in
  let strength m := PrimFloat.abs (PrimeMappedEmbedding.normalizedActivation m) in
  length ranked = 10%nat
  ∧ map PrimeMappedEmbedding.prime ranked ≡ₚ map EmojiPrimeMapping.prime INTRINSIC_PRIMES
  ∧ map PrimeMappedEmbedding.rank ranked = [1; 2; 3; 4; 5; 6; 7; 8; 9; 10]
  ∧ (∀ a b, a ∈ ranked → b ∈ ranked →
            PrimeMappedEmbedding.rank a < PrimeMappedEmbedding.rank b →
            PrimFloat.leb (strength b) (strength a) = true
            ∧ (PrimFloat.eqb (strength a) (strength b) = true →
               (registryIndex (PrimeMappedEmbedding.prime a)
                < registryIndex (PrimeMappedEmbedding.prime b))%nat))
  ∧ (∀ a b, a ∈ ranked → b ∈ ranked → PrimeMappedEmbedding.rank a = 1 →
            PrimFloat.leb (strength b) (strength a) = true).
Proof.
  intros ranked strength. subst ranked strength.
  destruct (sorted_mappings embeddings) as (sorted & -> & Hlen & Hn & Hs & Hr & Hp).
  assert (Hin : ∀ a, a ∈ imap (fun index mapping =>
                                 PrimeMappedEmbedding.withRank mapping (Z.of_nat index + 1)) sorted →
                ∃ i m, sorted !! i = Some m
                       ∧ PrimeMappedEmbedding.rank a = Z.of_nat i + 1
                       ∧ PrimeMappedEmbedding.prime a = PrimeMappedEmbedding.prime m
                       ∧ PrimeMappedEmbedding.normalizedActivation a
                         = PrimeMappedEmbedding.normalizedActivation m).
  { intros a Ha. apply list_elem_of_lookup in Ha as [i Ha].
    apply list_lookup_imap_Some in Ha as (m & Hm & ->). exists i, m. auto. }
  assert (Hord : ∀ i j mi mj, sorted !! i = Some mi → sorted !! j = Some mj → (i ≤ j)%nat →
                 strengthOf mj ≤ strengthOf mi
                 ∧ ((i < j)%nat → strengthOf mi = strengthOf mj →
                    PrimeMappedEmbedding.rank mi < PrimeMappedEmbedding.rank mj)).
  { intros i j mi mj Hi Hj Hij. destruct (decide (i = j)) as [->|Hne].
    - assert (mi = mj) by congruence. subst. split; lia.
    - pose proof (sorted_lookup _ _ i j mi mj Hs Hi Hj ltac:(lia)) as Hb.
      unfold sortedBefore in Hb. split; lia. }
  rewrite Forall_forall in Hn, Hr.
  split; [|split; [|split; [|split]]].
  - now rewrite length_imap.
  - rewrite <- Hp. change (map PrimeMappedEmbedding.prime ?l) with (PrimeMappedEmbedding.prime <$> l).
    rewrite fmap_imap.
    now rewrite (imap_ext _ (const PrimeMappedEmbedding.prime)), imap_const by reflexivity.
  - change (map PrimeMappedEmbedding.rank ?l) with (PrimeMappedEmbedding.rank <$> l).
    rewrite fmap_imap.
    rewrite (imap_ext _ (fun index _ => Z.of_nat index + 1)) by reflexivity.
    do 11 (destruct sorted as [|? sorted]; [discriminate Hlen || reflexivity|]).
    discriminate Hlen.
  - intros a b Ha Hb Hab.
    destruct (Hin a Ha) as (i & mi & Hi & Ri & Pi & Ni).
    destruct (Hin b Hb) as (j & mj & Hj & Rj & Pj & Nj).
    pose proof (list_elem_of_lookup_2 _ _ _ Hi) as Hmi.
    pose proof (list_elem_of_lookup_2 _ _ _ Hj) as Hmj.
    destruct (Hord i j mi mj Hi Hj ltac:(lia)) as [Hle Hst].
    rewrite Ni, Nj, Pi, Pj. split.
    + rewrite (leb_strength mi mj (Hn mi Hmi) (Hn mj Hmj)). apply Z.leb_le. lia.
    + rewrite (eqb_strength mi mj (Hn mi Hmi) (Hn mj Hmj)). intros Heq.
      apply Z.eqb_eq in Heq. specialize (Hst ltac:(lia) Heq).
      rewrite <- (Hr mi Hmi), <- (Hr mj Hmj) in Hst. lia.
  - intros a b Ha Hb Hab.
    destruct (Hin a Ha) as (i & mi & Hi & Ri & Pi & Ni).
    destruct (Hin b Hb) as (j & mj & Hj & Rj & Pj & Nj).
    pose proof (list_elem_of_lookup_2 _ _ _ Hi) as Hmi.
    pose proof (list_elem_of_lookup_2 _ _ _ Hj) as Hmj.
    destruct (Hord i j mi mj Hi Hj ltac:(lia)) as [Hle _].
    rewrite Ni, Nj, (leb_strength mi mj (Hn mi Hmi) (Hn mj Hmj)). apply Z.leb_le. lia.
Qed.

End Ranking.

(** The stand-in for [Math.tanh] keeps numbers numbers. *)
Lemma tanhStub_not_nan x :
  PrimFloat.is_nan x = false → PrimFloat.is_nan (tanhStub x) = false.
Proof.
  intros Hx. unfold tanhStub. destruct (PrimFloat.ltb x (-1)); [reflexivity|].
  destruct (PrimFloat.ltb 1 x); [reflexivity|exact Hx].
Qed.

(** C1 on the example vector: the three entries of strength 1 come first,
    in registry order, then 0.75, the three of strength 0.5, and so on. *)
Lemma mapEmbeddingsToPrimes_ranked_witness :
  (∀ x, PrimFloat.is_nan x = false → PrimFloat.is_nan (tanhStub x) = false)
  ∧ let ranked := mapEmbeddingsToPrimes tanhStub (embeddingsOf examplePooled) in
    map PrimeMappedEmbedding.prime ranked = [2; 3; 13; 11; 5; 23; 29; 7; 19; 17]
    ∧ map PrimeMappedEmbedding.rank ranked = [1; 2; 3; 4; 5; 6; 7; 8; 9; 10]
    ∧ ∀ a b, a ∈ ranked → b ∈ ranked → PrimeMappedEmbedding.rank a = 1 →
             PrimFloat.leb (PrimFloat.abs (PrimeMappedEmbedding.normalizedActivation b))
                           (PrimFloat.abs (PrimeMappedEmbedding.normalizedActivation a)) = true.
Proof.
  split; [exact tanhStub_not_nan|]. cbv zeta.
  destruct (mapEmbeddingsToPrimes_ranked tanhStub tanhStub_not_nan (embeddingsOf examplePooled))
    as (_ & _ & Hrank & _ & Hmax).
  split; [reflexivity|]. split; [exact Hrank|exact Hmax].
Defined.

Lemma reduceToPrimeDimensions_short pooled :
  (length pooled < 10)%nat → reduceToPrimeDimensions pooled 10 = repeat nan 10.
Proof.
  intros Hlen. unfold reduceToPrimeDimensions. rewrite Nat.div_small by exact Hlen.
  vm_compute. reflexivity.
Qed.

(** C8. A pooled embedding with fewer than 10 components gives empty chunks,
    whose mean [0 / 0] is [NaN]; [|| 0] turns each into 0, so that (with
    [tanh(0) = 0]) all 10 entries have activation 0 and normalizedActivation
    0, and the stable sort leaves them in registry order with ranks
    1, ..., 10. *)
Theorem short_embedding_all_zero tanh embeddings :
  tanh 0%float = 0%float →
  (length (LLMEmbeddings.pooledEmbedding embeddings) < 10)%nat →
  mapEmbeddingsToPrimes tanh embeddings
  = imap (fun index primeInfo =>
            {| PrimeMappedEmbedding.prime := EmojiPrimeMapping.prime primeInfo;
               PrimeMappedEmbedding.emoji := EmojiPrimeMapping.emoji primeInfo;
               PrimeMappedEmbedding.activation := 0%float;
               PrimeMappedEmbedding.normalizedActivation := 0%float;
               PrimeMappedEmbedding.rank := Z.of_nat index + 1 |})
         INTRINSIC_PRIMES.
Proof.
  intros Htanh Hlen.
  rewrite mapEmbeddingsToPrimes_unfold, reduceToPrimeDimensions_short by exact Hlen.
  cbv. rewrite !Htanh. reflexivity.
Qed.

(** C8 on a pooled vector of three components. *)
Lemma short_embedding_all_zero_witness :
  tanhStub 0%float = 0%float
  ∧ (length (LLMEmbeddings.pooledEmbedding (embeddingsOf [1; 2; 3]%float)) < 10)%nat
  ∧ map (fun m => (PrimeMappedEmbedding.prime m, PrimeMappedEmbedding.activation m,
                   PrimeMappedEmbedding.normalizedActivation m, PrimeMappedEmbedding.rank m))
        (mapEmbeddingsToPrimes tanhStub (embeddingsOf [1; 2; 3]%float))
    = map (fun pr => (fst pr, 0%float, 0%float, snd pr))
          [(2, 1); (3, 2); (5, 3); (7, 4); (11, 5); (13, 6); (17, 7); (19, 8); (23, 9);
           (29, 10)].
Proof.
  assert (Hlen : (length (LLMEmbeddings.pooledEmbedding (embeddingsOf [1; 2; 3]%float)) < 10)%nat)
    by (simpl; lia).
  split; [reflexivity|]. split; [exact Hlen|].
  rewrite (short_embedding_all_zero tanhStub (embeddingsOf [1; 2; 3]%float) eq_refl Hlen).
  reflexivity.
Defined.

(** ** The cross-model variance *)

Lemma fold_left_map_fused {A B C} (f : A → B → A) (g : C → B) l a :
  fold_left f (map g l) a = fold_left (fun a x => f a (g x)) l a.
Proof. revert a. induction l as [|x l IH]; intros a; simpl; [reflexivity|apply IH]. Qed.

Lemma calculatePrime2Variance_spec results :
  calculatePrime2Variance results = populationVariance (prime2Activations results).
Proof.
  unfold calculatePrime2Variance, populationVariance, meanOf, sumOf, prime2Activations.
  cbv zeta. f_equal. symmetry. apply fold_left_map_fused.
Qed.

Lemma Prim2SF_zero x : Prim2SF x = S754_zero false → x = 0%float.
Proof. intros H. apply Prim2SF_inj. exact H. Qed.

Lemma square_of_zero d s : Prim2SF d = S754_zero s → Num.Math_pow2 d = 0%float.
Proof.
  intros Hd. apply Prim2SF_zero. unfold Num.Math_pow2. rewrite mul_spec, Hd.
  now destruct s.
Qed.

Lemma sumOf_zeros n : sumOf (repeat 0%float n) = 0%float.
Proof. unfold sumOf. induction n as [|n IH]; simpl; [reflexivity|exact IH]. Qed.

Lemma zero_div_ofNat n :
  (0 < n)%nat → Z.of_nat n < 2 ^ 63 → PrimFloat.div 0 (Num.ofNat n) = 0%float.
Proof.
  intros Hn Hb. apply Prim2SF_zero. rewrite div_spec.
  change (Prim2SF 0) with (S754_zero false).
  apply SFdiv_zero_positive. now apply ofNat_positive.
Qed.

Lemma identical_variance x results :
  results ≠ [] → Z.of_nat (length results) < 2 ^ 63 →
  Forall (fun r => LLMSamplingResult.prime2Activation (LLMSamplingResult.universalAnchor r) = x)
         results →
  PrimFloat.is_finite x = true →
  PrimFloat.eqb (meanOf (prime2Activations results)) x = true →
  calculatePrime2Variance results = 0%float.
Proof.
  intros Hne Hlen Hall Hfin Hmean.
  assert (Hxs : prime2Activations results = repeat x (length results)).
  { clear -Hall. induction Hall as [|r l Hr _ IH]; simpl; [reflexivity|]. now rewrite Hr, IH. }
  rewrite calculatePrime2Variance_spec. unfold populationVariance. cbv zeta.
  set (mean := meanOf (prime2Activations results)) in *.
  rewrite eqb_spec in Hmean. rewrite is_finite_Prim2SF in Hfin.
  destruct (SFsub_eq (Prim2SF x) (Prim2SF mean) Hmean) as [s Hs].
  { now destruct (Prim2SF x). }
  assert (Hsq : PrimFloat.mul (PrimFloat.sub x mean) (PrimFloat.sub x mean) = 0%float).
  { apply (square_of_zero _ s). now rewrite sub_spec. }
  rewrite Hxs, map_repeat, Hsq, sumOf_zeros, repeat_length.
  apply zero_div_ofNat; [|exact Hlen]. destruct results; [congruence|simpl; lia].
Qed.

Lemma single_mean x :
  PrimFloat.is_finite x = true →
  PrimFloat.eqb (meanOf [x]) x = true.
Proof.
  intros Hfin. rewrite is_finite_Prim2SF in Hfin.
  unfold meanOf, sumOf. cbn [fold_left length]. change (Num.ofNat 1) with 1%float.
  rewrite eqb_spec, div_spec, add_spec.
  change (Prim2SF 0) with (S754_zero false).
  change (Prim2SF 1) with (S754_finite false 4503599627370496 (-52)).
  pose proof (Prim2SF_valid x) as V.
  destruct (Prim2SF x) as [s|s| |s m e]; try discriminate.
  - now destruct s.
  - cbn [SF64add SFadd]. rewrite (SFdiv_one s m e V). unfold SFeqb.
    now rewrite SFcompare_refl_finite.
Qed.

(** C7 (as amended). [calculatePrime2Variance] returns the population
    variance of the prime2Activation values in double arithmetic (mean
    [Σx / N], result [Σ(x - mean)² / N], divisor [N], sums from left to
    right). For results that all have one and the same finite value it
    returns 0 when there is a single result and, for any number of them,
    whenever the computed mean is that value again; rounding in the sum can
    leave the mean off the value, and then the result is not 0. *)
Theorem prime2Variance_population results :
  calculatePrime2Variance results = populationVariance (prime2Activations results)
  ∧ ∀ x,
      Forall (fun r => LLMSamplingResult.prime2Activation
                         (LLMSamplingResult.universalAnchor r) = x) results →
      PrimFloat.is_finite x = true →
      Z.of_nat (length results) < 2 ^ 32 →
      length results = 1%nat
      ∨ (results ≠ [] ∧ PrimFloat.eqb (meanOf (prime2Activations results)) x = true) →
      calculatePrime2Variance results = 0%float.
Proof.
  split; [apply calculatePrime2Variance_spec|].
  intros x Hall Hfin Hlen Hcase.
  assert (2 ^ 32 < 2 ^ 63) by (apply Z.pow_lt_mono_r; lia).
  destruct Hcase as [Hone|[Hne Hmean]].
  - destruct results as [|r [|r' rest]]; try discriminate.
    apply Forall_cons in Hall as [Hr _].
    apply (identical_variance x); [discriminate|simpl; lia|now repeat constructor|exact Hfin|].
    cbn [prime2Activations map]. rewrite Hr. now apply single_mean.
  - apply (identical_variance x); try assumption. lia.
Qed.

(** C7 for one sampled result, whose prime2Activation is 0.1. *)
Lemma prime2Variance_population_witness :
  ∃ r, sampleWith (repeat 0x1.999999999999ap-4%float 10) "Xenova/gpt2" = inr r
       ∧ LLMSamplingResult.prime2Activation (LLMSamplingResult.universalAnchor r)
         = 0x1.999999999999ap-4%float
       ∧ calculatePrime2Variance [r] = 0%float.
Proof.
  eexists. split; [vm_compute; reflexivity|]. split; [reflexivity|].
  apply (proj2 (prime2Variance_population _) 0x1.999999999999ap-4%float).
  - repeat constructor.
  - reflexivity.
  - reflexivity.
  - left. reflexivity.
Defined.

(** C7, the claim as stated fails: three models sampled with a provider
    that returns ten components 0.1 all have prime2Activation 0.1, and their
    variance is about 1.9e-34, not 0 (the sum 0.1 + 0.1 + 0.1 rounds up, and
    so does the mean). And a single result whose prime2Activation is
    [Infinity] has variance [NaN]. *)
Lemma identical_activations_nonzero_variance :
  let tenth := 0x1.999999999999ap-4%float in
  let sample := sampleWith (repeat tenth 10) in
  (∃ a b c,
     sample "Xenova/bert-base-uncased" = inr a
     ∧ sample "Xenova/gpt2" = inr b
     ∧ sample "Xenova/all-MiniLM-L6-v2" = inr c
     ∧ prime2Activations [a; b; c] = [tenth; tenth; tenth]
     ∧ PrimFloat.ltb 0 (calculatePrime2Variance [a; b; c]) = true
     ∧ calculatePrime2Variance [a; b; c] ≠ 0%float)
  ∧ ∃ r, sampleWith (repeat infinity 10) "Xenova/gpt2" = inr r
         ∧ prime2Activations [r] = [infinity]
         ∧ PrimFloat.is_nan (calculatePrime2Variance [r]) = true.
Proof.
  cbv zeta. split.
  - do 3 eexists.
    split; [vm_compute; reflexivity|]. split; [vm_compute; reflexivity|].
    split; [vm_compute; reflexivity|]. split; [vm_compute; reflexivity|].
    split; [vm_compute; reflexivity|].
    intros H. apply (f_equal (PrimFloat.ltb 0)) in H. vm_compute in H. discriminate.
  - eexists. split; [vm_compute; reflexivity|]. split; vm_compute; reflexivity.
Qed.

(** * Further properties of the code *)

(** ** What the tokenizer returns *)

Lemma codePoints_lengths s :
  Forall (fun glyph => length glyph = 1%nat ∨ length glyph = 2%nat) (codePoints s).
Proof.
  induction s as [|c|c d rest Hp IH|c d rest Hp IH] using codePoints_ind.
  - constructor.
  - repeat constructor.
  - rewrite codePoints_pair by exact Hp. constructor; [now right|exact IH].
  - rewrite codePoints_single by exact Hp. constructor; [now left|exact IH].
Qed.

Lemma startsWith_length s t : startsWith s t = true → (length t ≤ length s)%nat.
Proof.
  revert s. induction t as [|b t IH]; intros s; simpl; [lia|].
  destruct s as [|a s]; [discriminate|]. intros H.
  apply andb_true_iff in H as [_ H]. apply IH in H. simpl. lia.
Qed.

Lemma includes_length s t : includes s t = true → (length t ≤ length s)%nat.
Proof.
  induction s as [|a s IH].
  - destruct t; simpl; [lia|discriminate].
  - intros H. change (startsWith (a :: s) t || includes s t = true) in H.
    apply orb_true_iff in H as [H|H].
    + now apply startsWith_length.
    + apply IH in H. simpl. lia.
Qed.

Lemma tokenId_range glyph : 0 ≤ tokenId glyph < 50000.
Proof. rewrite tokenId_spec. apply Z.mod_pos_bound. lia. Qed.

(** A code point has at most two code units, too few to hold ["[UNK]"]. *)
Lemma no_unknown_tokens tape :
  List.filter (fun t => includes t (lit "[UNK]")) (codePoints tape) = [].
Proof.
  pose proof (codePoints_lengths tape) as H.
  induction H as [|glyph glyphs Hg _ IH]; [reflexivity|]. simpl.
  destruct (includes glyph (lit "[UNK]")) eqn:Hi; [|exact IH].
  apply includes_length in Hi. change (length (lit "[UNK]")) with 5%nat in Hi. lia.
Qed.

Section TokenizerOutput.
Context {Pipeline ProviderExn : Type}.
Implicit Types (this : @LLMEmojiSampler Pipeline).

(** X1. Whatever the sampler and the tape, [tokenizeTape] either throws its
    not-initialized error, carrying the model name and only when the sampler
    holds no tokenizer for it, or returns a record for that model in which
    the token strings concatenate back to the tape, there is one token id
    per token string, [sequenceLength] is their number, [vocabSize] is
    50000, every id is in [0, vocabSize) and [unknownTokens] is 0. *)
Theorem tokenizeTape_result this modelName tape :
  match tokenizeTape (ProviderExn := ProviderExn) this modelName tape with
  | inr r =>
      TokenizedTape.model r = modelName
      ∧ concat (TokenizedTape.tokenStrings r) = tape
      ∧ length (TokenizedTape.tokens r) = length (TokenizedTape.tokenStrings r)
      ∧ TokenizedTape.sequenceLength (TokenizedTape.metadata r)
        = length (TokenizedTape.tokens r)
      ∧ TokenizedTape.unknownTokens (TokenizedTape.metadata r) = 0%nat
      ∧ TokenizedTape.vocabSize (TokenizedTape.metadata r) = 50000
      ∧ Forall (fun id => 0 ≤ id < TokenizedTape.vocabSize (TokenizedTape.metadata r))
               (TokenizedTape.tokens r)
  | inl e => e = ModelNotInitialized modelName ∧ tokenizers this !! modelName = None
  end.
Proof.
  unfold tokenizeTape. destruct (tokenizers this !! modelName); [|auto]. simpl.
  split; [reflexivity|]. split; [apply codePoints_concat|].
  split; [now rewrite length_map|]. split; [reflexivity|].
  split; [now rewrite no_unknown_tokens|]. split; [reflexivity|].
  apply Forall_map, Forall_forall. intros glyph _. apply tokenId_range.
Qed.

End TokenizerOutput.

Lemma wrapSigned32_small n : - 2 ^ 31 ≤ n < 2 ^ 31 → wrapSigned32 n = n.
Proof. intros H. unfold wrapSigned32. rewrite Z.mod_small by lia. lia. Qed.

Lemma rollingHash_code_point glyph :
  Forall codeUnit glyph → (length glyph ≤ 2)%nat →
  rollingHash glyph = polynomialHash glyph ∧ 0 ≤ polynomialHash glyph < 2 ^ 31.
Proof.
  unfold rollingHash, polynomialHash, codeUnit. intros Hu Hl.
  destruct glyph as [|c [|d [|? ?]]]; simpl in Hl; try lia.
  - cbn. lia.
  - inversion Hu as [|? ? Hc _]; subst. cbn [fold_left].
    change (Z.shiftl 0 5) with 0.
    rewrite wrapSigned32_small by lia. lia.
  - inversion Hu as [|? ? Hc Hu']; subst. inversion Hu' as [|? ? Hd _]; subst.
    cbn [fold_left]. change (Z.shiftl 0 5) with 0.
    rewrite (wrapSigned32_small (0 - 0 + c)) by lia.
    rewrite Z.shiftl_mul_pow2 by lia.
    rewrite wrapSigned32_small by lia. lia.
Qed.

(** X2. On a tape of UTF-16 code units the 32-bit wrap and the absolute
    value of the tokenizer's hash never act: a code point has one or two
    code units, so its hash stays below 2^31, and its token id is the code
    unit itself modulo 50000 for a single unit and [(31 * hi + lo) mod 50000]
    for a surrogate pair. *)
Theorem simulateTokenization_no_wrap tape modelName :
  Forall codeUnit tape →
  fst (simulateTokenization tape modelName)
  = map (fun glyph => polynomialHash glyph mod 50000) (codePoints tape)
  ∧ Forall (fun glyph => match glyph with
                         | [c] => polynomialHash glyph = c
                         | [hi; lo] => polynomialHash glyph = 31 * hi + lo
                         | _ => False
                         end) (codePoints tape).
Proof.
  intros Hu. unfold simulateTokenization. cbn [fst].
  assert (Hg : Forall (fun glyph => Forall codeUnit glyph
                                    ∧ (length glyph = 1 ∨ length glyph = 2)%nat)
                      (codePoints tape)).
  { apply Forall_and. split; [|apply codePoints_lengths].
    rewrite <- (codePoints_concat tape) in Hu. now apply Forall_concat in Hu. }
  split.
  - apply Forall_fmap_ext_1. eapply Forall_impl; [exact Hg|]. intros glyph [Hc Hl]. cbn beta.
    rewrite tokenId_spec. destruct (rollingHash_code_point glyph Hc) as [-> Hr]; [lia|].
    now rewrite Z.abs_eq by lia.
  - eapply Forall_impl; [exact Hg|]. intros glyph [_ Hl].
    destruct glyph as [|c [|d [|? ?]]]; simpl in Hl; try lia; unfold polynomialHash; simpl; lia.
Qed.

(** X2 on the default tape: the glyph of prime 2 hashes to
    [31 * 55356 + 57257] and gets the token id 23293. *)
Lemma simulateTokenization_no_wrap_witness :
  Forall codeUnit EMOJI_BLOCK_TAPE
  ∧ fst (simulateTokenization EMOJI_BLOCK_TAPE (lit "Xenova/gpt2"))
    = map (fun glyph => polynomialHash glyph mod 50000) (codePoints EMOJI_BLOCK_TAPE)
  ∧ polynomialHash [55356; 57257] mod 50000 = 23293.
Proof.
  assert (H : Forall codeUnit EMOJI_BLOCK_TAPE).
  { apply Forall_forall. intros c Hc. unfold EMOJI_BLOCK_TAPE in Hc.
    repeat (apply elem_of_cons in Hc as [->|Hc]; [unfold codeUnit; lia|]).
    now apply elem_of_nil in Hc. }
  split; [exact H|].
  destruct (simulateTokenization_no_wrap EMOJI_BLOCK_TAPE (lit "Xenova/gpt2") H) as [Hids _].
  split; [exact Hids|reflexivity].
Defined.

(** ** The sampler's two maps *)

Section Registered.
Context {Pipeline ProviderExn : Type}.
Implicit Types (calls : list (JSString * (ProviderExn + Pipeline))).
Implicit Types (this : @LLMEmojiSampler Pipeline).
Implicit Types (loaded : ProviderExn + Pipeline).

Lemma runInits_lookup calls this modelName :
  let this' := runInits calls this in
  let found :=
    fold_left (fun found call =>
                 match snd call with
                 | inr embedder => if decide (fst call = modelName) then Some embedder else found
                 | inl _ => found
                 end) calls in
  tokenizers this' !! modelName = found (tokenizers this !! modelName)
  ∧ embedders this' !! modelName = found (embedders this !! modelName).
Proof.
  cbv zeta. unfold runInits. revert this.
  induction calls as [|[name loaded] calls IH]; intros this.
  - split; reflexivity.
  - cbn [fold_left fst snd] in *.
    destruct (IH (snd (initializeModel loaded name this))) as [-> ->].
    destruct loaded as [e|p]; cbn [initializeModel snd tokenizers embedders]; [split; reflexivity|].
    destruct (decide (name = modelName)) as [->|Hne].
    + now rewrite !lookup_insert_eq.
    + now rewrite !lookup_insert_ne by exact Hne.
Qed.

Lemma runInits_same_maps calls this :
  tokenizers this = embedders this →
  tokenizers (runInits calls this) = embedders (runInits calls this).
Proof.
  unfold runInits. revert this.
  induction calls as [|[name loaded] calls IH]; intros this H; [exact H|].
  cbn [fold_left fst snd] in *. apply IH.
  destruct loaded as [e|p]; cbn [initializeModel snd tokenizers embedders]; [exact H|].
  now rewrite H.
Qed.

(** X3. After any sequence of [initializeModel] calls on a fresh sampler,
    completed or failed, the two maps are equal, and what they hold for a
    model is the pipeline of the latest call for that model that completed:
    a later load replaces an earlier one, a failed load changes nothing. *)
Theorem registered_pipeline calls :
  let this := runInits calls emojiSampler in
  tokenizers this = embedders this
  ∧ ∀ modelName, embedders this !! modelName = lastLoaded calls modelName.
Proof.
  cbv zeta. split; [now apply runInits_same_maps|].
  intros modelName. destruct (runInits_lookup calls emojiSampler modelName) as [_ ->].
  reflexivity.
Qed.

End Registered.

(** ** Layers of an embedding *)

Lemma binary_round_aux_signIs s m e l : signIs s (binary_round_aux prec emax s m e l).
Proof.
  unfold binary_round_aux.
  destruct (shr_fexp prec emax m e l) as [mrs' e'].
  destruct (shr_fexp prec emax _ e' loc_Exact) as [mrs'' e''].
  destruct (shr_m mrs''); [reflexivity| |exact I].
  destruct (e'' <=? emax - prec); reflexivity.
Qed.

Lemma binary_round_signIs s m e : signIs s (binary_round prec emax s m e).
Proof.
  unfold binary_round. destruct (shl_align m e _) as [mz ez].
  apply binary_round_aux_signIs.
Qed.

Lemma SFmul_square_signIs x : signIs false (SF64mul x x).
Proof.
  destruct x as [s|s| |s m e]; cbn; try exact I; try apply xorb_nilpotent.
  rewrite xorb_nilpotent. apply binary_round_aux_signIs.
Qed.

Lemma SFadd_signIs x y : signIs false x → signIs false y → signIs false (SF64add x y).
Proof.
  destruct x as [sx|sx| |sx mx ex], y as [sy|sy| |sy my ey]; cbn;
    intros Hx Hy; subst; try exact I; try reflexivity.
  cbn [cond_Zopp]. apply (binary_round_signIs false).
Qed.

Lemma SFdiv_signIs x y : signIs false x → signIs false y → signIs false (SF64div x y).
Proof.
  destruct x as [sx|sx| |sx mx ex], y as [sy|sy| |sy my ey]; cbn;
    intros Hx Hy; subst; try exact I; try reflexivity.
  destruct (SFdiv_core_binary _ _ _ _ _ _) as [[mz ez] lz].
  apply (binary_round_aux_signIs false).
Qed.

Lemma SFsqrt_signIs x : signIs false x → signIs false (SF64sqrt x).
Proof.
  destruct x as [sx|sx| |sx mx ex]; cbn; intros Hx; subst; try exact I; try reflexivity.
  destruct (SFsqrt_core_binary _ _ _ _) as [[mz ez] lz].
  apply (binary_round_aux_signIs false).
Qed.

Lemma ofNat_signIs n : signIs false (Prim2SF (Num.ofNat n)).
Proof.
  unfold Num.ofNat. rewrite of_uint63_spec. unfold binary_normalize.
  pose proof (Uint63.to_Z_bounded (of_Z (Z.of_nat n))) as H.
  destruct (Uint63Axioms.to_Z _) eqn:Hz; [reflexivity|apply binary_round_signIs|].
  change (Uint63Axioms.to_Z (of_Z (Z.of_nat n))) with (Uint63.to_Z (of_Z (Z.of_nat n))) in Hz.
  lia.
Qed.

Lemma signIs_not_negative x :
  signIs false (Prim2SF x) → PrimFloat.is_nan x = true ∨ PrimFloat.leb 0 x = true.
Proof.
  rewrite is_nan_Prim2SF, leb_spec. change (Prim2SF 0) with (S754_zero false).
  destruct (Prim2SF x) as [s|s| |s m e]; cbn; intros H; subst; auto.
Qed.

(** A sum of squares that starts from [+0] is [NaN] or has its sign bit
    clear. *)
Lemma sum_of_squares_signIs {A} (square : A → float) xs acc :
  (∀ x, signIs false (Prim2SF (square x))) →
  signIs false (Prim2SF acc) →
  signIs false (Prim2SF (fold_left (fun sum val => PrimFloat.add sum (square val)) xs acc)).
Proof.
  intros Hsq. revert acc. induction xs as [|x xs IH]; intros acc Hacc; [exact Hacc|].
  cbn [fold_left]. apply IH. rewrite add_spec. now apply SFadd_signIs.
Qed.

(** The two lines of [embedTape] that pick the embedding. *)
Lemma embedTape_embedding result :
  default Undefined
    (match result with
     | AnArray elements => elements
     | NotAnArray value => [value]
     end !! 0%nat)
  = embeddingOf result.
Proof. now destruct result as [[|first rest]|value]. Qed.

Section Layers.
Context {Pipeline ProviderExn : Type}.
Variable run : Pipeline → JSString → ProviderExn + PipelineResult.
Variable random : nat → nat → float.
Variable elapsed : float.
Implicit Types (this : @LLMEmojiSampler Pipeline).

Lemma simulateLayerEmbeddings_lookup pooledEmbedding modelName i layer :
  simulateLayerEmbeddings random pooledEmbedding modelName !! i = Some layer →
  EmbeddingLayer.layerIndex layer = i
  ∧ EmbeddingLayer.dimension layer = length pooledEmbedding
  ∧ length (EmbeddingLayer.embedding layer) = length pooledEmbedding
  ∧ EmbeddingLayer.norm layer
    = PrimFloat.sqrt
        (fold_left (fun sum val => PrimFloat.add sum (PrimFloat.mul val val))
                   (EmbeddingLayer.embedding layer) 0%float).
Proof.
  unfold simulateLayerEmbeddings. cbv zeta. rewrite list_lookup_fmap.
  destruct (seq 0 _ !! i) as [j|] eqn:Hj; [|discriminate].
  apply lookup_seq in Hj as [-> _]. cbn [fmap option_fmap option_map].
  intros Heq. inversion Heq; subst layer; clear Heq. cbn.
  rewrite length_imap. auto.
Qed.

Lemma simulateLayerEmbeddings_shape pooledEmbedding modelName :
  let layers := simulateLayerEmbeddings random pooledEmbedding modelName in
  length layers
  = (if includes modelName (lit "bert") || includes modelName (lit "gpt") then 12 else 6)%nat
  ∧ map EmbeddingLayer.layerIndex layers = seq 0 (length layers)
  ∧ Forall (fun layer =>
              EmbeddingLayer.dimension layer = length pooledEmbedding
              ∧ length (EmbeddingLayer.embedding layer) = length pooledEmbedding)
           layers.
Proof.
  cbv zeta.
  assert (Hlen : length (simulateLayerEmbeddings random pooledEmbedding modelName)
                 = (if includes modelName (lit "bert") || includes modelName (lit "gpt")
                    then 12 else 6)%nat).
  { unfold simulateLayerEmbeddings. cbv zeta. rewrite length_map, length_seq.
    destruct (includes modelName (lit "bert")), (includes modelName (lit "gpt")); reflexivity. }
  split; [exact Hlen|]. split.
  - apply list_eq. intros i. rewrite list_lookup_fmap.
    destruct (simulateLayerEmbeddings random pooledEmbedding modelName !! i) as [layer|] eqn:Hl.
    + pose proof (lookup_lt_Some _ _ _ Hl) as Hlt.
      apply simulateLayerEmbeddings_lookup in Hl as [Hi _].
      cbn. rewrite Hi. symmetry. now apply lookup_seq.
    + apply lookup_ge_None in Hl. cbn. symmetry. apply lookup_ge_None.
      now rewrite length_seq.
  - apply Forall_lookup. intros i layer Hl.
    apply simulateLayerEmbeddings_lookup in Hl. tauto.
Qed.

(** X4. [embedTape] throws its not-initialized error exactly when the
    sampler holds no embedder for the model, rethrows what the provider
    threw, and throws a [TypeError] when the provider's result holds no
    embedding (an empty Array, [undefined]). Otherwise it returns a record
    for that model: when the embedding, the first element of an Array or a
    result that is not an Array, is an array-like of numbers, the pooled
    embedding holds its elements and [hiddenSize] is its length; when it is
    a number, as for a plain Array of numbers, the pooled embedding is empty
    and [hiddenSize] is [undefined]. The record has 12 layers when the model
    name contains ["bert"] or ["gpt"] and 6 otherwise, [totalLayers] is their
    number, the layers are numbered 0, 1, ... in order, and every layer has
    [dimension] and embedding length equal to the length of the pooled
    embedding. *)
Theorem embedTape_result this modelName tape :
  match embedTape run random elapsed this modelName tape with
  | inr r =>
      let metadata := LLMEmbeddings.metadata r in
      let pooled := LLMEmbeddings.pooledEmbedding r in
      (∃ embedder result,
          embedders this !! modelName = Some embedder
          ∧ run embedder tape = inr result
          ∧ match embeddingOf result with
            | Undefined => False
            | ANumber _ => pooled = [] ∧ LLMEmbeddings.hiddenSize metadata = None
            | ArrayLike items =>
                pooled = items ∧ LLMEmbeddings.hiddenSize metadata = Some (length items)
            end)
      ∧ LLMEmbeddings.model r = modelName
      ∧ LLMEmbeddings.processingTime metadata = elapsed
      ∧ LLMEmbeddings.totalLayers metadata = length (LLMEmbeddings.layers r)
      ∧ LLMEmbeddings.totalLayers metadata
        = (if includes modelName (lit "bert") || includes modelName (lit "gpt")
           then 12 else 6)%nat
      ∧ map EmbeddingLayer.layerIndex (LLMEmbeddings.layers r)
        = seq 0 (LLMEmbeddings.totalLayers metadata)
      ∧ Forall (fun layer =>
                  EmbeddingLayer.dimension layer = length pooled
                  ∧ length (EmbeddingLayer.embedding layer) = length pooled)
               (LLMEmbeddings.layers r)
  | inl e =>
      (e = ModelNotInitializedForEmbedding modelName ∧ embedders this !! modelName = None)
      ∨ (∃ embedder error, embedders this !! modelName = Some embedder
                           ∧ run embedder tape = inl error ∧ e = ProviderError error)
      ∨ (∃ embedder result, embedders this !! modelName = Some embedder
                            ∧ run embedder tape = inr result
                            ∧ embeddingOf result = Undefined ∧ e = TypeError)
  end.
Proof.
  unfold embedTape. destruct (embedders this !! modelName) as [embedder|]; [|now left].
  destruct (run embedder tape) as [error|result] eqn:Hrun; [right; left; eauto|].
  cbv zeta. rewrite embedTape_embedding.
  destruct (embeddingOf result) as [|x|items] eqn:Hfirst; cbn [Array_from lengthOf].
  - right; right. exists embedder, result. auto.
  - cbn [LLMEmbeddings.metadata LLMEmbeddings.model LLMEmbeddings.pooledEmbedding
         LLMEmbeddings.layers LLMEmbeddings.hiddenSize LLMEmbeddings.totalLayers
         LLMEmbeddings.processingTime].
    destruct (simulateLayerEmbeddings_shape [] modelName) as (Hlen & Hidx & Hdim).
    split; [exists embedder, result; rewrite Hfirst; auto|].
    repeat (split; [reflexivity|]).
    split; [exact Hlen|]. split; [exact Hidx|exact Hdim].
  - cbn [LLMEmbeddings.metadata LLMEmbeddings.model LLMEmbeddings.pooledEmbedding
         LLMEmbeddings.layers LLMEmbeddings.hiddenSize LLMEmbeddings.totalLayers
         LLMEmbeddings.processingTime].
    destruct (simulateLayerEmbeddings_shape items modelName) as (Hlen & Hidx & Hdim).
    split; [exists embedder, result; rewrite Hfirst; auto|].
    repeat (split; [reflexivity|]).
    split; [exact Hlen|]. split; [exact Hidx|exact Hdim].
Qed.

(** X5. The [norm] of a simulated layer is never negative: it is [NaN] or
    at least 0, whatever the pooled vector and the random draws. *)
Theorem layer_norm_not_negative pooledEmbedding modelName :
  Forall (fun layer =>
            PrimFloat.is_nan (EmbeddingLayer.norm layer) = true
            ∨ PrimFloat.leb 0 (EmbeddingLayer.norm layer) = true)
         (simulateLayerEmbeddings random pooledEmbedding modelName).
Proof.
  apply Forall_lookup. intros i layer Hl.
  apply simulateLayerEmbeddings_lookup in Hl as (_ & _ & _ & ->).
  apply signIs_not_negative. rewrite sqrt_spec. apply SFsqrt_signIs.
  apply sum_of_squares_signIs; [|reflexivity].
  intros x. rewrite mul_spec. apply SFmul_square_signIs.
Qed.

End Layers.

(** ** Chunk averaging and the entries of the prime mapper *)

Lemma reduceToPrimeDimensions_length embedding targetDims :
  length (reduceToPrimeDimensions embedding targetDims) = targetDims.
Proof. unfold reduceToPrimeDimensions. cbv zeta. now rewrite length_map, length_seq. Qed.

Lemma chunk_of_truncation (embedding : list float) k d i :
  (i < d)%nat →
  take k (drop (i * k) (take (k * d) embedding)) = take k (drop (i * k) embedding).
Proof.
  intros Hi. rewrite skipn_firstn_comm, take_take. f_equal. nia.
Qed.

(** X6. [reduceToPrimeDimensions] returns [targetDims] numbers; the
    components past the last full chunk (the last [length mod targetDims]
    ones) have no influence on them; and with fewer components than
    [targetDims] every chunk is empty and every number is [NaN]. *)
Theorem reduceToPrimeDimensions_chunks embedding targetDims :
  let chunkSize := (length embedding / targetDims)%nat in
  length (reduceToPrimeDimensions embedding targetDims) = targetDims
  ∧ reduceToPrimeDimensions embedding targetDims
    = reduceToPrimeDimensions (take (chunkSize * targetDims) embedding) targetDims
  ∧ ((length embedding < targetDims)%nat →
     reduceToPrimeDimensions embedding targetDims = repeat nan targetDims).
Proof.
  cbv zeta. split; [apply reduceToPrimeDimensions_length|]. split.
  - destruct targetDims as [|d]; [reflexivity|].
    unfold reduceToPrimeDimensions. cbv zeta.
    set (k := (length embedding / S d)%nat).
    assert (Hk : (length (take (k * S d) embedding) / S d = k)%nat).
    { rewrite length_take, Nat.min_l.
      - apply Nat.div_mul. lia.
      - subst k. rewrite Nat.mul_comm. apply Nat.Div0.mul_div_le. }
    rewrite Hk. apply map_ext_in. intros i Hi. apply in_seq in Hi.
    rewrite chunk_of_truncation by lia. reflexivity.
  - intros Hlen. unfold reduceToPrimeDimensions. cbv zeta.
    rewrite Nat.div_small by exact Hlen.
    rewrite (map_ext _ (fun _ => nan)) by reflexivity.
    clear Hlen. generalize 0%nat.
    induction targetDims as [|d IH]; intros s; [reflexivity|].
    cbn [seq map repeat]. f_equal. apply IH.
Qed.

Lemma entryOf_withRank m r : entryOf (PrimeMappedEmbedding.withRank m r) = entryOf m.
Proof. reflexivity. Qed.

Lemma map_imap_const {A B C} (g : B → C) (f : nat → A → B) (h : A → C) l :
  (∀ i x, g (f i x) = h x) → map g (imap f l) = map h l.
Proof.
  intros H. revert f H. induction l as [|x l IH]; intros f H; [reflexivity|].
  cbn [imap map]. rewrite H. f_equal. apply IH. intros i y. apply H.
Qed.

Lemma map_imap {A B C} (g : B → C) (f : nat → A → B) l :
  map g (imap f l) = imap (fun i x => g (f i x)) l.
Proof.
  revert f. induction l as [|x l IH]; intros f; [reflexivity|].
  cbn [imap map]. f_equal. apply IH.
Qed.

Lemma mapEmbeddingsToPrimes_Permutation tanh embeddings :
  map entryOf (mapEmbeddingsToPrimes tanh embeddings)
  ≡ₚ imap (fun index primeInfo =>
             let activation :=
               activationAt
                 (reduceToPrimeDimensions (LLMEmbeddings.pooledEmbedding embeddings) 10)
                 index in
             (EmojiPrimeMapping.prime primeInfo, EmojiPrimeMapping.emoji primeInfo,
              activation, tanh activation))
          INTRINSIC_PRIMES.
Proof.
  rewrite mapEmbeddingsToPrimes_unfold.
  rewrite (map_imap_const entryOf _ entryOf) by (intros; apply entryOf_withRank).
  rewrite (sort_Permutation byStrength), map_imap. reflexivity.
Qed.

Lemma mapEmbeddingsToPrimes_elem tanh embeddings m :
  m ∈ mapEmbeddingsToPrimes tanh embeddings →
  ∃ index primeInfo,
    INTRINSIC_PRIMES !! index = Some primeInfo
    ∧ PrimeMappedEmbedding.prime m = EmojiPrimeMapping.prime primeInfo
    ∧ PrimeMappedEmbedding.emoji m = EmojiPrimeMapping.emoji primeInfo
    ∧ PrimeMappedEmbedding.activation m
      = activationAt
          (reduceToPrimeDimensions (LLMEmbeddings.pooledEmbedding embeddings) 10) index
    ∧ PrimeMappedEmbedding.normalizedActivation m
      = tanh (PrimeMappedEmbedding.activation m).
Proof.
  intros Hm. apply (list_elem_of_fmap_2 entryOf) in Hm.
  rewrite mapEmbeddingsToPrimes_Permutation in Hm.
  apply elem_of_lookup_imap in Hm as (index & primeInfo & Heq & Hlook).
  exists index, primeInfo. split; [exact Hlook|].
  unfold entryOf in Heq. cbv zeta in Heq. inversion Heq as [[Hp He Ha Hn]].
  rewrite Ha. auto.
Qed.

Lemma mapEmbeddingsToPrimes_registry tanh embeddings index primeInfo :
  INTRINSIC_PRIMES !! index = Some primeInfo →
  ∃ m, m ∈ mapEmbeddingsToPrimes tanh embeddings
       ∧ PrimeMappedEmbedding.prime m = EmojiPrimeMapping.prime primeInfo
       ∧ PrimeMappedEmbedding.activation m
         = activationAt
             (reduceToPrimeDimensions (LLMEmbeddings.pooledEmbedding embeddings) 10) index.
Proof.
  intros Hlook.
  pose proof (mapEmbeddingsToPrimes_Permutation tanh embeddings) as HP.
  set (a := activationAt
              (reduceToPrimeDimensions (LLMEmbeddings.pooledEmbedding embeddings) 10) index).
  assert (Hin : (EmojiPrimeMapping.prime primeInfo, EmojiPrimeMapping.emoji primeInfo, a, tanh a)
                ∈ map entryOf (mapEmbeddingsToPrimes tanh embeddings)).
  { rewrite HP. apply elem_of_lookup_imap. exists index, primeInfo. auto. }
  apply list_elem_of_fmap in Hin as (m & Heq & Hm).
  exists m. split; [exact Hm|]. unfold entryOf in Heq. inversion Heq. auto.
Qed.

(** X7. Sorting and ranking only reorder the entries of
    [mapEmbeddingsToPrimes]: up to order, and leaving [rank] aside, they are
    the registry items in order, each with its prime, its glyph, the
    activation [reducedDimensions[index] || 0] of its index and the [tanh]
    of that. No activation is [NaN], and the glyph of an entry is the
    registry glyph of its prime. *)
Theorem mapEmbeddingsToPrimes_entries tanh embeddings :
  let reducedDimensions :=
    reduceToPrimeDimensions (LLMEmbeddings.pooledEmbedding embeddings) 10 in
  map entryOf (mapEmbeddingsToPrimes tanh embeddings)
  ≡ₚ imap (fun index primeInfo =>
             let activation := activationAt reducedDimensions index in
             (EmojiPrimeMapping.prime primeInfo, EmojiPrimeMapping.emoji primeInfo,
              activation, tanh activation))
          INTRINSIC_PRIMES
  ∧ Forall (fun m =>
              PrimFloat.is_nan (PrimeMappedEmbedding.activation m) = false
              ∧ PrimeMappedEmbedding.normalizedActivation m
                = tanh (PrimeMappedEmbedding.activation m)
              ∧ EmojiPrimeMapping.prime <$> getPrimeForEmoji (PrimeMappedEmbedding.emoji m)
                = Some (PrimeMappedEmbedding.prime m))
           (mapEmbeddingsToPrimes tanh embeddings).
Proof.
  cbv zeta. split; [apply mapEmbeddingsToPrimes_Permutation|].
  apply Forall_forall. intros m Hm.
  destruct (mapEmbeddingsToPrimes_elem _ _ _ Hm) as (index & primeInfo & Hl & Hp & He & Ha & Hn).
  split; [rewrite Ha; apply activationAt_not_nan|]. split; [exact Hn|].
  rewrite He, Hp.
  do 10 (destruct index as [|index]; [cbn in Hl; inversion Hl; reflexivity|]).
  discriminate.
Qed.

(** ** [sampleTape] *)

Lemma orElse_orElse v : Num.orElse (Num.orElse v 0) 0 = Num.orElse v 0%float.
Proof.
  unfold Num.orElse. destruct (Num.truthy v) eqn:Hv; [now rewrite Hv|reflexivity].
Qed.

Lemma orElse_activationAt reducedDimensions index :
  Num.orElse (activationAt reducedDimensions index) 0 = activationAt reducedDimensions index.
Proof.
  unfold activationAt. destruct (reducedDimensions !! index); [apply orElse_orElse|reflexivity].
Qed.

(** [find(m => m.prime === 2)] always finds an entry, that of index 0. *)
Lemma find_prime2 tanh embeddings :
  ∃ m, find (fun m => PrimeMappedEmbedding.prime m =? 2) (mapEmbeddingsToPrimes tanh embeddings)
       = Some m
       ∧ m ∈ mapEmbeddingsToPrimes tanh embeddings
       ∧ PrimeMappedEmbedding.prime m = 2
       ∧ PrimeMappedEmbedding.activation m
         = activationAt
             (reduceToPrimeDimensions (LLMEmbeddings.pooledEmbedding embeddings) 10) 0
       ∧ PrimeMappedEmbedding.normalizedActivation m
         = tanh (PrimeMappedEmbedding.activation m).
Proof.
  destruct (find (fun m => PrimeMappedEmbedding.prime m =? 2)
                 (mapEmbeddingsToPrimes tanh embeddings)) as [m|] eqn:Hfind.
  - apply find_some in Hfind as [Hin Hp]. apply list_elem_of_In in Hin.
    apply Z.eqb_eq in Hp. exists m. split; [reflexivity|]. split; [exact Hin|].
    split; [exact Hp|].
    destruct (mapEmbeddingsToPrimes_elem _ _ _ Hin) as (index & primeInfo & Hl & Hq & _ & Ha & Hn).
    split; [|exact Hn]. rewrite Ha. rewrite Hp in Hq.
    do 10 (destruct index as [|index];
           [cbn in Hl; inversion Hl; subst primeInfo; cbn in Hq;
            try discriminate; try reflexivity|]).
    discriminate.
  - exfalso.
    destruct (mapEmbeddingsToPrimes_registry tanh embeddings 0 _ eq_refl) as (m & Hin & Hp & _).
    apply list_elem_of_In in Hin.
    apply (find_none _ _ Hfind) in Hin. rewrite Hp in Hin. discriminate.
Qed.

Lemma mapEmbeddingsToPrimes_bounded tanh embeddings :
  (∀ x, PrimFloat.is_nan x = false → PrimFloat.leb (PrimFloat.abs (tanh x)) 1 = true) →
  Forall (fun m => PrimFloat.leb (PrimFloat.abs (PrimeMappedEmbedding.normalizedActivation m)) 1
                   = true)
         (mapEmbeddingsToPrimes tanh embeddings).
Proof.
  intros Htanh. apply Forall_forall. intros m Hm.
  destruct (mapEmbeddingsToPrimes_elem _ _ _ Hm) as (index & primeInfo & _ & _ & _ & Ha & Hn).
  rewrite Hn, Ha. apply Htanh, activationAt_not_nan.
Qed.

Lemma tanhStub_bounded x :
  PrimFloat.is_nan x = false → PrimFloat.leb (PrimFloat.abs (tanhStub x)) 1 = true.
Proof.
  intros Hn. unfold tanhStub.
  destruct (PrimFloat.ltb x (-1)) eqn:Hlo; [reflexivity|].
  destruct (PrimFloat.ltb 1 x) eqn:Hhi; [reflexivity|].
  rewrite is_nan_Prim2SF in Hn. rewrite ltb_spec in Hlo, Hhi. rewrite leb_spec, abs_spec.
  change (Prim2SF 1) with (S754_finite false 4503599627370496 (-52)) in *.
  change (Prim2SF (-1)) with (S754_finite true 4503599627370496 (-52)) in *.
  unfold SFltb, SFleb in *.
  destruct (Prim2SF x) as [s|s| |s m e]; try discriminate; try reflexivity.
  - destruct s; discriminate.
  - cbn [SFabs SFcompare] in *.
    pose proof (Pos.compare_cont_antisym m 4503599627370496 Eq) as Hm.
    cbn [CompOpp] in Hm. rewrite (Z.compare_antisym e (-52)), <- Hm in Hhi. clear Hm.
    destruct s, (e ?= -52), (Pos.compare_cont Eq m 4503599627370496);
      cbn in *; first [reflexivity|discriminate].
Qed.

Section Sampling.
Context {Pipeline ProviderExn : Type}.
Variable run : Pipeline → JSString → ProviderExn + PipelineResult.
Variable random : nat → nat → float.
Variable elapsed : float.
Variable tanh : float → float.
Implicit Types (this : @LLMEmojiSampler Pipeline).
Implicit Types (loaded : ProviderExn + Pipeline).

Lemma registered_lookup this modelName :
  registered this modelName
  ↔ ∃ tokenizer embedder, tokenizers this !! modelName = Some tokenizer
                          ∧ embedders this !! modelName = Some embedder.
Proof.
  unfold registered, is_Some. split.
  - intros [[t Ht] [e He]]. eauto.
  - intros (t & e & Ht & He). eauto.
Qed.

Lemma registered_dec this modelName : registered this modelName ∨ ¬ registered this modelName.
Proof.
  unfold registered.
  destruct (tokenizers this !! modelName), (embedders this !! modelName);
    first [left; split; eexists; reflexivity
          |right; intros [[? H1] [? H2]]; discriminate].
Qed.

Lemma initializeModel_registered embedder modelName this :
  let this' := snd (initializeModel (ProviderExn := ProviderExn) (inr embedder) modelName this) in
  tokenizers this' !! modelName = Some embedder
  ∧ embedders this' !! modelName = Some embedder.
Proof. cbn. now rewrite !lookup_insert_eq. Qed.

Lemma pipelineFor_registered loaded modelName this tokenizer embedder :
  tokenizers this !! modelName = Some tokenizer →
  embedders this !! modelName = Some embedder →
  pipelineFor loaded modelName this = inr embedder.
Proof. intros Ht He. unfold pipelineFor. now rewrite Ht, He. Qed.

Lemma pipelineFor_unregistered loaded modelName this :
  ¬ registered this modelName → pipelineFor loaded modelName this = loaded.
Proof.
  intros Hn. unfold pipelineFor.
  destruct (tokenizers this !! modelName) eqn:Ht, (embedders this !! modelName) eqn:He;
    try reflexivity.
  exfalso. apply Hn. split; eauto.
Qed.

(** A model that is not registered is loaded first; when that fails the
    failure is the outcome, and when it succeeds the call goes on as on the
    sampler with the model registered. *)
Lemma sampleTape_unregistered loaded now modelName tape this :
  ¬ registered this modelName →
  sampleTape run random elapsed tanh loaded now modelName tape this
  = match loaded with
    | inl error => (inl (ProviderError error), this)
    | inr embedder =>
        sampleTape run random elapsed tanh loaded now modelName tape
                   (snd (initializeModel (ProviderExn := ProviderExn) (inr embedder)
                                         modelName this))
    end.
Proof.
  intros Hn. destruct loaded as [error|embedder].
  - unfold sampleTape.
    destruct (tokenizers this !! modelName) eqn:Ht, (embedders this !! modelName) eqn:He;
      try reflexivity.
    exfalso. apply Hn. split; eauto.
  - unfold sampleTape at 2.
    destruct (initializeModel_registered embedder modelName this) as [-> ->].
    unfold sampleTape.
    destruct (tokenizers this !! modelName) eqn:Ht, (embedders this !! modelName) eqn:He;
      try reflexivity.
    exfalso. apply Hn. split; eauto.
Qed.

Lemma sampleTape_registered_state loaded now modelName tape this :
  registered this modelName →
  snd (sampleTape run random elapsed tanh loaded now modelName tape this) = this.
Proof.
  intros Hr. apply registered_lookup in Hr as (t & e & Ht & He).
  unfold sampleTape. now rewrite Ht, He.
Qed.

Lemma sampleTape_registered_loader loaded loaded' now modelName tape this :
  registered this modelName →
  sampleTape run random elapsed tanh loaded now modelName tape this
  = sampleTape run random elapsed tanh loaded' now modelName tape this.
Proof.
  intros Hr. apply registered_lookup in Hr as (t & e & Ht & He).
  unfold sampleTape. now rewrite Ht, He.
Qed.

Section Bounded.
Hypothesis tanh_bounded :
  ∀ x, PrimFloat.is_nan x = false → PrimFloat.leb (PrimFloat.abs (tanh x)) 1 = true.

Lemma sampleTape_registered_outcome loaded now modelName tape this tokenizer embedder :
  tokenizers this !! modelName = Some tokenizer →
  embedders this !! modelName = Some embedder →
  let outcome := fst (sampleTape run random elapsed tanh loaded now modelName tape this) in
  match run embedder tape with
  | inl error => outcome = inl (ProviderError error)
  | inr result =>
      match embeddingOf result with
      | Undefined => outcome = inl TypeError
      | ANumber _ =>
          ∃ r, outcome = inr r
               ∧ LLMEmbeddings.pooledEmbedding (LLMSamplingResult.embeddings r) = []
      | ArrayLike items =>
          ∃ r, outcome = inr r
               ∧ LLMEmbeddings.pooledEmbedding (LLMSamplingResult.embeddings r) = items
      end
  end.
Proof.
  intros Ht He. cbv zeta. unfold sampleTape. rewrite Ht, He. cbn [fst].
  unfold tokenizeTape, embedTape. rewrite Ht, He.
  destruct (run embedder tape) as [error|result]; [reflexivity|].
  cbv zeta. rewrite embedTape_embedding.
  destruct (embeddingOf result) as [|x|items]; cbn [Array_from]; [reflexivity| |].
  - match goal with
    | |- context [encodeAsGodel tape (mapEmbeddingsToPrimes tanh ?e)] =>
        destruct (encodeAsGodel_withinOne (E := ProviderExn) tape (mapEmbeddingsToPrimes tanh e)
                    (mapEmbeddingsToPrimes_bounded tanh e tanh_bounded)) as [g ->]
    end.
    eexists. split; reflexivity.
  - match goal with
    | |- context [encodeAsGodel tape (mapEmbeddingsToPrimes tanh ?e)] =>
        destruct (encodeAsGodel_withinOne (E := ProviderExn) tape (mapEmbeddingsToPrimes tanh e)
                    (mapEmbeddingsToPrimes_bounded tanh e tanh_bounded)) as [g ->]
    end.
    eexists. split; reflexivity.
Qed.

(** X8. With a [Math.tanh] whose values are within [-1, 1], [sampleTape]
    fails only where the provider does: when the model has to be loaded and
    loading throws, or when the pipeline throws on the tape, then with the
    provider's error; and when the result of the pipeline holds no
    embedding (an empty Array, [undefined]), then with the [TypeError] of
    [Array.from]. Otherwise it returns, and the pooled embedding of the
    result holds the elements of the embedding, none when that is a number.
    It never throws a not-initialized error, and the Gödel encoding never
    throws, whatever numbers the embedding holds. *)
Theorem sampleTape_outcome loaded now modelName tape this :
  let outcome := fst (sampleTape run random elapsed tanh loaded now modelName tape this) in
  match pipelineFor loaded modelName this with
  | inl error => outcome = inl (ProviderError error)
  | inr embedder =>
      match run embedder tape with
      | inl error => outcome = inl (ProviderError error)
      | inr result =>
          match embeddingOf result with
          | Undefined => outcome = inl TypeError
          | ANumber _ =>
              ∃ r, outcome = inr r
                   ∧ LLMEmbeddings.pooledEmbedding (LLMSamplingResult.embeddings r) = []
          | ArrayLike items =>
              ∃ r, outcome = inr r
                   ∧ LLMEmbeddings.pooledEmbedding (LLMSamplingResult.embeddings r) = items
          end
      end
  end.
Proof.
  cbv zeta. destruct (registered_dec this modelName) as [Hr|Hn].
  - apply registered_lookup in Hr as (t & e & Ht & He).
    rewrite (pipelineFor_registered _ _ _ _ _ Ht He).
    exact (sampleTape_registered_outcome loaded now modelName tape this t e Ht He).
  - rewrite (pipelineFor_unregistered _ _ _ Hn), (sampleTape_unregistered _ _ _ _ _ Hn).
    destruct loaded as [error|embedder]; [reflexivity|].
    destruct (initializeModel_registered embedder modelName this) as [Ht He].
    exact (sampleTape_registered_outcome _ now modelName tape _ _ _ Ht He).
Qed.

End Bounded.

(** X9. [sampleTape] loads a model at most once. On a sampler that holds
    the model it changes nothing; on one that does not, a failed load is the
    outcome and changes nothing, and a completed load registers the pipeline
    in both maps, for that model only. Once the model is registered, every
    further [sampleTape] for it leaves the sampler as it is and does not
    depend on what loading would give. *)
Theorem sampleTape_loads_once loaded now modelName tape this :
  let this' := snd (sampleTape run random elapsed tanh loaded now modelName tape this) in
  (registered this modelName → this' = this)
  ∧ (¬ registered this modelName →
     match loaded with
     | inl error =>
         this' = this
         ∧ fst (sampleTape run random elapsed tanh loaded now modelName tape this)
           = inl (ProviderError error)
     | inr embedder =>
         tokenizers this' = <[modelName := embedder]> (tokenizers this)
         ∧ embedders this' = <[modelName := embedder]> (embedders this)
     end)
  ∧ (registered this' modelName →
     ∀ loaded' now' tape',
       snd (sampleTape run random elapsed tanh loaded' now' modelName tape' this') = this'
       ∧ ∀ loaded'',
           sampleTape run random elapsed tanh loaded' now' modelName tape' this'
           = sampleTape run random elapsed tanh loaded'' now' modelName tape' this').
Proof.
  cbv zeta. split; [apply sampleTape_registered_state|]. split.
  - intros Hn. rewrite (sampleTape_unregistered _ _ _ _ _ Hn).
    destruct loaded as [error|embedder]; [split; reflexivity|].
    rewrite sampleTape_registered_state.
    + split; reflexivity.
    + apply registered_lookup.
      destruct (initializeModel_registered embedder modelName this) as [Ht He]. eauto.
  - intros Hr loaded' now' tape'. split.
    + now apply sampleTape_registered_state.
    + intros loaded''. now apply sampleTape_registered_loader.
Qed.

Lemma universalAnchor_registered loaded now modelName tape this r :
  registered this modelName →
  fst (sampleTape run random elapsed tanh loaded now modelName tape this) = inr r →
  let anchor := LLMSamplingResult.universalAnchor r in
  let pooled := LLMEmbeddings.pooledEmbedding (LLMSamplingResult.embeddings r) in
  LLMSamplingResult.prime2Activation anchor
  = activationAt (reduceToPrimeDimensions pooled 10) 0
  ∧ LLMSamplingResult.consistencyScore anchor
    = PrimFloat.abs (tanh (LLMSamplingResult.prime2Activation anchor))
  ∧ LLMSamplingResult.semanticDrift anchor = 0%float
  ∧ ∃ m, m ∈ LLMSamplingResult.primeMapping r
         ∧ PrimeMappedEmbedding.prime m = 2
         ∧ PrimeMappedEmbedding.activation m = LLMSamplingResult.prime2Activation anchor
         ∧ PrimFloat.abs (PrimeMappedEmbedding.normalizedActivation m)
           = LLMSamplingResult.consistencyScore anchor.
Proof.
  intros Hr. apply registered_lookup in Hr as (t & e & Ht & He).
  unfold sampleTape. rewrite Ht, He. cbn [fst].
  destruct (tokenizeTape this modelName tape) as [?|tokenization]; [discriminate|].
  destruct (embedTape run random elapsed this modelName tape) as [?|embeddings]; [discriminate|].
  destruct (encodeAsGodel tape (mapEmbeddingsToPrimes tanh embeddings)) as [?|g]; [discriminate|].
  destruct (find_prime2 tanh embeddings) as (m & -> & Hin & Hp & Ha & Hn).
  intros Heq. inversion Heq; subst r; clear Heq. cbn.
  rewrite Ha, orElse_activationAt. rewrite Ha in Hn. rewrite Hn.
  split; [reflexivity|]. split; [reflexivity|]. split; [reflexivity|].
  exists m. rewrite Hn, Ha. auto.
Qed.

(** X10. In every result of [sampleTape] the universal anchor is read off
    the entry of prime 2, which the prime mapping always contains:
    [prime2Activation] is its activation, the first chunk average of the
    result's pooled embedding or 0 when that is [NaN] or zero;
    [consistencyScore] is [abs(tanh(prime2Activation))], the magnitude of
    that entry's normalizedActivation; and [semanticDrift] is 0. *)
Theorem sampleTape_universalAnchor loaded now modelName tape this r :
  fst (sampleTape run random elapsed tanh loaded now modelName tape this) = inr r →
  let anchor := LLMSamplingResult.universalAnchor r in
  let pooled := LLMEmbeddings.pooledEmbedding (LLMSamplingResult.embeddings r) in
  LLMSamplingResult.prime2Activation anchor
  = activationAt (reduceToPrimeDimensions pooled 10) 0
  ∧ LLMSamplingResult.consistencyScore anchor
    = PrimFloat.abs (tanh (LLMSamplingResult.prime2Activation anchor))
  ∧ LLMSamplingResult.semanticDrift anchor = 0%float
  ∧ ∃ m, m ∈ LLMSamplingResult.primeMapping r
         ∧ PrimeMappedEmbedding.prime m = 2
         ∧ PrimeMappedEmbedding.activation m = LLMSamplingResult.prime2Activation anchor
         ∧ PrimFloat.abs (PrimeMappedEmbedding.normalizedActivation m)
           = LLMSamplingResult.consistencyScore anchor.
Proof.
  destruct (registered_dec this modelName) as [Hr|Hn].
  - now apply universalAnchor_registered.
  - rewrite (sampleTape_unregistered _ _ _ _ _ Hn).
    destruct loaded as [error|embedder]; [discriminate|].
    apply universalAnchor_registered, registered_lookup.
    destruct (initializeModel_registered embedder modelName this) as [Ht He]. eauto.
Qed.

End Sampling.

(** X8 on a fresh sampler whose provider loads every model and gives an
    Array that holds the example vector. *)
Lemma sampleTape_outcome_witness :
  (∀ x, PrimFloat.is_nan x = false → PrimFloat.leb (PrimFloat.abs (tanhStub x)) 1 = true)
  ∧ ∃ r, sampleWith examplePooled "Xenova/gpt2" = inr r
         ∧ LLMEmbeddings.pooledEmbedding (LLMSamplingResult.embeddings r) = examplePooled.
Proof.
  split; [exact tanhStub_bounded|].
  exact (sampleTape_outcome
           (constantProvider (E := Empty_set) examplePooled) (fun _ _ => 0x1p-1%float) 0%float
           tanhStub tanhStub_bounded (inr tt) 0 (lit "Xenova/gpt2") EMOJI_BLOCK_TAPE
           emojiSampler).
Defined.

(** X10 for the example vector, whose first component is 1. *)
Lemma sampleTape_universalAnchor_witness :
  ∃ r, sampleWith examplePooled "Xenova/gpt2" = inr r
       ∧ LLMSamplingResult.prime2Activation (LLMSamplingResult.universalAnchor r)
         = activationAt
             (reduceToPrimeDimensions
                (LLMEmbeddings.pooledEmbedding (LLMSamplingResult.embeddings r)) 10) 0
       ∧ LLMSamplingResult.prime2Activation (LLMSamplingResult.universalAnchor r) = 1%float
       ∧ LLMSamplingResult.consistencyScore (LLMSamplingResult.universalAnchor r) = 1%float.
Proof.
  destruct (sampleWith examplePooled "Xenova/gpt2") as [e|r] eqn:H; [destruct e|].
  - exfalso. vm_compute in H. discriminate.
  - exfalso. vm_compute in H. discriminate.
  - exfalso. destruct e.
  - exfalso. vm_compute in H. discriminate.
  - exfalso. vm_compute in H. discriminate.
  - exists r. split; [reflexivity|].
    destruct (sampleTape_universalAnchor
                (constantProvider (E := Empty_set) examplePooled) (fun _ _ => 0x1p-1%float)
                0%float tanhStub (inr tt) 0 (lit "Xenova/gpt2") EMOJI_BLOCK_TAPE emojiSampler
                r H) as (Ha & _).
    split; [exact Ha|].
    vm_compute in H. injection H as <-. split; reflexivity.
Defined.

(** ** What the encoder reads of the mappings *)

Lemma find_strength_ext (maps1 maps2 : list PrimeMappedEmbedding.t) prime :
  map (fun m => (PrimeMappedEmbedding.prime m,
                 PrimFloat.abs (PrimeMappedEmbedding.normalizedActivation m))) maps1
  = map (fun m => (PrimeMappedEmbedding.prime m,
                   PrimFloat.abs (PrimeMappedEmbedding.normalizedActivation m))) maps2 →
  exponentOf (find (fun m => PrimeMappedEmbedding.prime m =? prime) maps1)
  = exponentOf (find (fun m => PrimeMappedEmbedding.prime m =? prime) maps2).
Proof.
  revert maps2. induction maps1 as [|m1 maps1 IH]; intros [|m2 maps2] H;
    try discriminate; [reflexivity|].
  cbn [map] in H. inversion H as [[Hp Ha Hrest]]. cbn [find]. rewrite Hp.
  destruct (PrimeMappedEmbedding.prime m2 =? prime).
  - cbn [exponentOf]. now rewrite Ha.
  - now apply IH.
Qed.

Lemma productOf_ext maps1 maps2 glyphs :
  (∀ prime, exponentOf (find (fun m => PrimeMappedEmbedding.prime m =? prime) maps1)
            = exponentOf (find (fun m => PrimeMappedEmbedding.prime m =? prime) maps2)) →
  productOf maps1 glyphs = productOf maps2 glyphs.
Proof.
  intros H.
  assert (Hf : ∀ glyph, factorOf maps1 glyph = factorOf maps2 glyph).
  { intros glyph. unfold factorOf. destruct (primeMap !! glyph) as [prime|]; [|reflexivity].
    now rewrite H. }
  induction glyphs as [|glyph rest IH]; [reflexivity|].
  cbn [productOf]. now rewrite Hf, IH.
Qed.

(** X11. Of a list of prime mappings [encodeAsGodel] reads the primes and
    the magnitudes of the normalizedActivations only: two lists that agree
    on these, entry by entry, give the same Gödel number (or the same
    error), whatever their glyphs, activations and ranks and whatever the
    signs. *)
Theorem encodeAsGodel_reads_strength {E} tapeSegment maps1 maps2 :
  map (fun m => (PrimeMappedEmbedding.prime m,
                 PrimFloat.abs (PrimeMappedEmbedding.normalizedActivation m))) maps1
  = map (fun m => (PrimeMappedEmbedding.prime m,
                   PrimFloat.abs (PrimeMappedEmbedding.normalizedActivation m))) maps2 →
  godelOutcome (encodeAsGodel (E := E) tapeSegment maps1)
  = godelOutcome (encodeAsGodel (E := E) tapeSegment maps2).
Proof.
  intros H. rewrite !godelOutcome_productOf.
  rewrite (productOf_ext maps1 maps2); [reflexivity|].
  intros prime. now apply find_strength_ext.
Qed.

(** X11 for the glyph of prime 2 and two entries that differ in all but
    the prime and the magnitude 0.75: both give [2 ^ 3]. *)
Lemma encodeAsGodel_reads_strength_witness :
  let m1 := {| PrimeMappedEmbedding.prime := 2;
               PrimeMappedEmbedding.emoji := [55356; 57257];
               PrimeMappedEmbedding.activation := 1%float;
               PrimeMappedEmbedding.normalizedActivation := 0x1.8p-1%float;
               PrimeMappedEmbedding.rank := 1 |} in
  let m2 := {| PrimeMappedEmbedding.prime := 2;
               PrimeMappedEmbedding.emoji := [];
               PrimeMappedEmbedding.activation := 0%float;
               PrimeMappedEmbedding.normalizedActivation := (-0x1.8p-1)%float;
               PrimeMappedEmbedding.rank := 7 |} in
  map (fun m => (PrimeMappedEmbedding.prime m,
                 PrimFloat.abs (PrimeMappedEmbedding.normalizedActivation m))) [m1]
  = map (fun m => (PrimeMappedEmbedding.prime m,
                   PrimFloat.abs (PrimeMappedEmbedding.normalizedActivation m))) [m2]
  ∧ godelOutcome (encodeAsGodel (E := Empty_set) [55356; 57257] [m1]) = inr (2 ^ 3)
  ∧ godelOutcome (encodeAsGodel (E := Empty_set) [55356; 57257] [m2]) = inr (2 ^ 3).
Proof.
  cbv zeta. split; [reflexivity|].
  pose proof (encodeAsGodel_reads_strength (E := Empty_set) [55356; 57257]
                [{| PrimeMappedEmbedding.prime := 2;
                    PrimeMappedEmbedding.emoji := [55356; 57257];
                    PrimeMappedEmbedding.activation := 1%float;
                    PrimeMappedEmbedding.normalizedActivation := 0x1.8p-1%float;
                    PrimeMappedEmbedding.rank := 1 |}]
                [{| PrimeMappedEmbedding.prime := 2;
                    PrimeMappedEmbedding.emoji := [];
                    PrimeMappedEmbedding.activation := 0%float;
                    PrimeMappedEmbedding.normalizedActivation := (-0x1.8p-1)%float;
                    PrimeMappedEmbedding.rank := 7 |}] eq_refl) as H.
  split; [vm_compute; reflexivity|]. rewrite <- H. vm_compute. reflexivity.
Defined.

Lemma find_Permutation (maps1 maps2 : list PrimeMappedEmbedding.t) prime :
  maps1 ≡ₚ maps2 → NoDup (map PrimeMappedEmbedding.prime maps1) →
  find (fun m => PrimeMappedEmbedding.prime m =? prime) maps1
  = find (fun m => PrimeMappedEmbedding.prime m =? prime) maps2.
Proof.
  intros HP. induction HP as [|m l l' HP IH|m1 m2 l|l l' l'' HP1 IH1 HP2 IH2]; intros Hnd.
  - reflexivity.
  - cbn [find]. cbn [map] in Hnd. apply NoDup_cons in Hnd as [_ Hnd].
    destruct (PrimeMappedEmbedding.prime m =? prime); [reflexivity|now apply IH].
  - cbn [find]. cbn [map] in Hnd. apply NoDup_cons in Hnd as [Hne _].
    destruct (Z.eqb_spec (PrimeMappedEmbedding.prime m1) prime) as [H1|_];
      destruct (Z.eqb_spec (PrimeMappedEmbedding.prime m2) prime) as [H2|_]; try reflexivity.
    exfalso. apply Hne. rewrite H2, <- H1. apply list_elem_of_here.
  - rewrite IH1 by exact Hnd. apply IH2. now rewrite <- HP1.
Qed.

(** X12. When no prime occurs twice in the list of prime mappings, its
    order is irrelevant to [encodeAsGodel]: every rearrangement of the list
    gives the same Gödel number (or the same error). In particular the
    ranking done by [mapEmbeddingsToPrimes] does not influence the number. *)
Theorem encodeAsGodel_mapping_order {E} tapeSegment maps1 maps2 :
  maps1 ≡ₚ maps2 → NoDup (map PrimeMappedEmbedding.prime maps1) →
  godelOutcome (encodeAsGodel (E := E) tapeSegment maps1)
  = godelOutcome (encodeAsGodel (E := E) tapeSegment maps2).
Proof.
  intros HP Hnd. rewrite !godelOutcome_productOf.
  rewrite (productOf_ext maps1 maps2); [reflexivity|].
  intros prime. now rewrite (find_Permutation maps1 maps2 prime HP Hnd).
Qed.

(** X12 for entries of the primes 2 and 3 in either order, on the two
    glyphs: both give [2 ^ 5 * 3 ^ 2]. *)
Lemma encodeAsGodel_mapping_order_witness :
  let m2 := {| PrimeMappedEmbedding.prime := 2;
               PrimeMappedEmbedding.emoji := [55356; 57257];
               PrimeMappedEmbedding.activation := 1%float;
               PrimeMappedEmbedding.normalizedActivation := 1%float;
               PrimeMappedEmbedding.rank := 1 |} in
  let m3 := {| PrimeMappedEmbedding.prime := 3;
               PrimeMappedEmbedding.emoji := [55356; 57266];
               PrimeMappedEmbedding.activation := 0x1p-1%float;
               PrimeMappedEmbedding.normalizedActivation := 0x1p-1%float;
               PrimeMappedEmbedding.rank := 2 |} in
  let segment := [55356; 57257; 55356; 57266] in
  [m2; m3] ≡ₚ [m3; m2]
  ∧ NoDup (map PrimeMappedEmbedding.prime [m2; m3])
  ∧ godelOutcome (encodeAsGodel (E := Empty_set) segment [m2; m3]) = inr (2 ^ 5 * 3 ^ 2)
  ∧ godelOutcome (encodeAsGodel (E := Empty_set) segment [m3; m2]) = inr (2 ^ 5 * 3 ^ 2).
Proof.
  cbv zeta.
  set (m2 := {| PrimeMappedEmbedding.prime := 2;
                PrimeMappedEmbedding.emoji := [55356; 57257];
                PrimeMappedEmbedding.activation := 1%float;
                PrimeMappedEmbedding.normalizedActivation := 1%float;
                PrimeMappedEmbedding.rank := 1 |}).
  set (m3 := {| PrimeMappedEmbedding.prime := 3;
                PrimeMappedEmbedding.emoji := [55356; 57266];
                PrimeMappedEmbedding.activation := 0x1p-1%float;
                PrimeMappedEmbedding.normalizedActivation := 0x1p-1%float;
                PrimeMappedEmbedding.rank := 2 |}).
  assert (HP : [m2; m3] ≡ₚ [m3; m2]) by apply perm_swap.
  assert (Hnd : NoDup (map PrimeMappedEmbedding.prime [m2; m3])).
  { cbn. apply NoDup_cons. split; [|apply NoDup_singleton].
    intros Hin. apply list_elem_of_singleton in Hin. discriminate. }
  split; [exact HP|]. split; [exact Hnd|].
  pose proof (encodeAsGodel_mapping_order (E := Empty_set) [55356; 57257; 55356; 57266]
                _ _ HP Hnd) as H.
  split; [vm_compute; reflexivity|]. rewrite <- H. vm_compute. reflexivity.
Defined.

(** ** Gödel numbers of concatenations and segments *)

Lemma factorOf_nil glyph : factorOf [] glyph = Some (displayFactor glyph).
Proof.
  unfold factorOf, displayFactor. destruct (primeMap !! glyph) as [prime|]; [|reflexivity].
  destruct (prime =? 0); [reflexivity|]. cbn. now rewrite Z.pow_1_r.
Qed.

Lemma productOf_nil glyphs : productOf [] glyphs = Some (displayProduct glyphs).
Proof.
  induction glyphs as [|glyph rest IH]; [reflexivity|].
  cbn [productOf]. now rewrite factorOf_nil, IH.
Qed.

Lemma displayProduct_filter_bars glyphs :
  displayProduct (filter (fun cp => cp ≠ [124]) glyphs) = displayProduct glyphs.
Proof.
  induction glyphs as [|glyph rest IH]; [reflexivity|].
  rewrite filter_cons. destruct (decide (glyph ≠ [124])) as [_|Hn].
  - cbn [displayProduct fold_right]. f_equal. exact IH.
  - assert (glyph = [124]) as -> by (destruct (decide (glyph = [124])); tauto).
    cbn [displayProduct fold_right]. change (displayFactor [124]) with 1.
    rewrite Z.mul_1_l. exact IH.
Qed.

Lemma productOf_filter_bars primeMappings glyphs :
  productOf primeMappings (filter (fun cp => cp ≠ [124]) glyphs)
  = productOf primeMappings glyphs.
Proof.
  induction glyphs as [|glyph rest IH]; [reflexivity|].
  rewrite filter_cons. destruct (decide (glyph ≠ [124])) as [_|Hn].
  - cbn [productOf]. now rewrite IH.
  - assert (glyph = [124]) as -> by (destruct (decide (glyph = [124])); tauto).
    cbn [productOf]. change (factorOf primeMappings [124]) with (Some 1).
    rewrite IH. destruct (productOf primeMappings rest) as [P|]; [|reflexivity].
    f_equal. lia.
Qed.

(** X13. The display's Gödel number is the core's with an empty list of
    prime mappings: [calculateGodelNumber(tape)] is the number
    [encodeAsGodel] returns for the tape without its separators, for every
    tape, and for the tape itself when it is well-formed UTF-16. *)
Theorem calculateGodelNumber_no_mappings {E} tape :
  godelOutcome (encodeAsGodel (E := E) (stripBars tape) []) = inr (calculateGodelNumber tape)
  ∧ (wellFormed tape = true →
     godelOutcome (encodeAsGodel (E := E) tape []) = inr (calculateGodelNumber tape)).
Proof.
  rewrite !godelOutcome_productOf, !productOf_nil, calculateGodelNumber_product.
  split; [reflexivity|]. intros Hw.
  now rewrite (codePoints_stripBars _ Hw), displayProduct_filter_bars.
Qed.

Lemma wellFormed_cons_pair c d rest :
  isHighSurrogate c && isLowSurrogate d = true →
  wellFormed (c :: d :: rest) = wellFormed rest.
Proof. intros H. unfold wellFormed. now rewrite codePoints_pair by exact H. Qed.

Lemma wellFormed_cons_single c d rest :
  isHighSurrogate c && isLowSurrogate d = false →
  wellFormed (c :: d :: rest)
  = negb (isHighSurrogate c || isLowSurrogate c) && wellFormed (d :: rest).
Proof. intros H. unfold wellFormed. now rewrite codePoints_single by exact H. Qed.

(** Reading code points goes through a concatenation whose left part is
    well formed, since that part cannot end in half a pair. *)
Lemma codePoints_app s1 s2 :
  wellFormed s1 = true → codePoints (s1 ++ s2) = codePoints s1 ++ codePoints s2.
Proof.
  induction s1 as [|c|c d rest Hp IH|c d rest Hp IH] using codePoints_ind; intros Hw.
  - reflexivity.
  - unfold wellFormed in Hw. cbn in Hw. rewrite andb_true_r in Hw.
    apply negb_true_iff, orb_false_iff in Hw as [Hc _].
    cbn [app]. now rewrite codePoints_cons_not_high.
  - rewrite wellFormed_cons_pair in Hw by exact Hp.
    cbn [app]. rewrite !codePoints_pair by exact Hp. cbn [app]. f_equal. now apply IH.
  - rewrite wellFormed_cons_single in Hw by exact Hp.
    apply andb_true_iff in Hw as [Hc Hw].
    apply negb_true_iff, orb_false_iff in Hc as [Hc _].
    change ((c :: d :: rest) ++ s2) with (c :: (d :: rest) ++ s2).
    rewrite !codePoints_cons_not_high by exact Hc. cbn [app]. f_equal. now apply IH.
Qed.

Lemma productOf_app primeMappings glyphs1 glyphs2 :
  productOf primeMappings (glyphs1 ++ glyphs2)
  = match productOf primeMappings glyphs1, productOf primeMappings glyphs2 with
    | Some P1, Some P2 => Some (P1 * P2)
    | _, _ => None
    end.
Proof.
  induction glyphs1 as [|glyph rest IH]; cbn [app productOf].
  - destruct (productOf primeMappings glyphs2) as [P2|]; [|reflexivity].
    f_equal. now rewrite Z.mul_1_l.
  - rewrite IH. destruct (factorOf primeMappings glyph) as [f|]; [|reflexivity].
    destruct (productOf primeMappings rest) as [P1|]; [|reflexivity].
    destruct (productOf primeMappings glyphs2) as [P2|]; [|reflexivity].
    f_equal. lia.
Qed.

Lemma displayProduct_app glyphs1 glyphs2 :
  displayProduct (glyphs1 ++ glyphs2) = displayProduct glyphs1 * displayProduct glyphs2.
Proof.
  unfold displayProduct. induction glyphs1 as [|glyph rest IH]; cbn [app fold_right]; [lia|].
  rewrite IH. lia.
Qed.

Lemma wellFormed_stripBars tape : wellFormed tape = true → wellFormed (stripBars tape) = true.
Proof.
  intros Hw. unfold wellFormed. rewrite (codePoints_stripBars _ Hw).
  unfold wellFormed in Hw. rewrite forallb_forall in *.
  intros cp Hin. apply Hw. apply list_elem_of_In in Hin. apply list_elem_of_In.
  now apply list_elem_of_filter in Hin as [_ Hin].
Qed.

Lemma stripBars_app s1 s2 : stripBars (s1 ++ s2) = stripBars s1 ++ stripBars s2.
Proof. apply filter_app. Qed.

(** X14. Both Gödel numbers are multiplicative over concatenation when the
    left part is well-formed UTF-16: the display number of [s1 + s2] is the
    product of the display numbers, and when [encodeAsGodel] returns for
    [s1] and for [s2] with a list of prime mappings it returns for [s1 + s2],
    with the product of the two numbers. *)
Theorem godelNumber_concatenation {E} s1 s2 primeMappings :
  wellFormed s1 = true →
  calculateGodelNumber (s1 ++ s2) = calculateGodelNumber s1 * calculateGodelNumber s2
  ∧ ∀ r1 r2,
      encodeAsGodel (E := E) s1 primeMappings = inr r1 →
      encodeAsGodel (E := E) s2 primeMappings = inr r2 →
      ∃ r, encodeAsGodel (E := E) (s1 ++ s2) primeMappings = inr r
           ∧ GodelEncoding.godelNumber r
             = GodelEncoding.godelNumber r1 * GodelEncoding.godelNumber r2.
Proof.
  intros Hw. split.
  - rewrite !calculateGodelNumber_product, stripBars_app.
    rewrite codePoints_app by now apply wellFormed_stripBars.
    apply displayProduct_app.
  - intros r1 r2 H1 H2.
    apply encodeAsGodel_inr in H1 as [H1 _]. apply encodeAsGodel_inr in H2 as [H2 _].
    eexists. split.
    + apply encodeAsGodel_productOf.
      rewrite (codePoints_app _ _ Hw), productOf_app, H1, H2. reflexivity.
    + reflexivity.
Qed.

(** X14 for the glyph of prime 2 followed by a separator and the glyph of
    prime 3. *)
Lemma godelNumber_concatenation_witness :
  let s1 := [55356; 57257] in
  let s2 := [124; 55356; 57266] in
  wellFormed s1 = true
  ∧ calculateGodelNumber (s1 ++ s2) = 2 * 3
  ∧ ∃ r, encodeAsGodel (E := Empty_set) (s1 ++ s2) [] = inr r
         ∧ GodelEncoding.godelNumber r = 2 * 3.
Proof.
  cbv zeta.
  destruct (godelNumber_concatenation (E := Empty_set) [55356; 57257] [124; 55356; 57266] []
              eq_refl) as [Hd Hc].
  split; [reflexivity|]. split; [exact Hd|].
  exact (Hc _ _ eq_refl eq_refl).
Defined.

Lemma factorOf_divides_fifth primeMappings glyph :
  Forall (fun m => PrimFloat.leb (PrimFloat.abs (PrimeMappedEmbedding.normalizedActivation m)) 1
                   = true) primeMappings →
  ∃ f, factorOf primeMappings glyph = Some f ∧ (f | displayFactor glyph ^ 5).
Proof.
  intros Hb. unfold factorOf, displayFactor.
  destruct (primeMap !! glyph) as [prime|] eqn:Hp;
    [|exists 1; split; [reflexivity|exists 1; lia]].
  apply primeMap_prime in Hp.
  destruct (Z.eqb_spec prime 0) as [|_]; [lia|].
  assert (He : ∃ e, exponentOf (find (fun m => PrimeMappedEmbedding.prime m =? prime)
                                     primeMappings)
                    = Num.IInt e ∧ 1 ≤ e ≤ 5).
  { destruct (find _ primeMappings) as [m|] eqn:Hfind.
    - apply find_some in Hfind as [Hin _]. apply list_elem_of_In in Hin.
      rewrite Forall_forall in Hb. specialize (Hb _ Hin).
      destruct (Math_floor_strength _ Hb) as (_ & k & Hk & Hrange).
      exists (Z.max 1 k). cbn [exponentOf]. rewrite Hk. split; [reflexivity|lia].
    - exists 1. split; [reflexivity|lia]. }
  destruct He as (e & -> & He).
  destruct (Z.ltb_spec e 0); [lia|].
  exists (prime ^ e). split; [reflexivity|].
  exists (prime ^ (5 - e)). rewrite <- Z.pow_add_r by lia. f_equal. lia.
Qed.

Lemma productOf_divides_fifth primeMappings glyphs :
  Forall (fun m => PrimFloat.leb (PrimFloat.abs (PrimeMappedEmbedding.normalizedActivation m)) 1
                   = true) primeMappings →
  ∃ P, productOf primeMappings glyphs = Some P ∧ (P | displayProduct glyphs ^ 5).
Proof.
  intros Hb. induction glyphs as [|glyph rest (P & HP & Hd)].
  - exists 1. split; [reflexivity|exists 1; reflexivity].
  - destruct (factorOf_divides_fifth primeMappings glyph Hb) as (f & Hf & Hd').
    exists (f * P). cbn [productOf]. rewrite Hf, HP. split; [reflexivity|].
    cbn [displayProduct fold_right]. fold (displayProduct rest).
    rewrite Z.pow_mul_l. destruct Hd as [x ->], Hd' as [y ->].
    exists (y * x). lia.
Qed.

(** X15. With normalizedActivations within [-1, 1], as [tanh] gives them,
    every exponent is at most 5: on a well-formed tape [encodeAsGodel]
    returns, and its Gödel number lies between the display's number and
    the fifth power of it, and divides that fifth power. *)
Theorem godelNumber_at_most_fifth_power {E} tape primeMappings :
  wellFormed tape = true →
  Forall (fun m => PrimFloat.leb (PrimFloat.abs (PrimeMappedEmbedding.normalizedActivation m)) 1
                   = true) primeMappings →
  ∃ r, encodeAsGodel (E := E) tape primeMappings = inr r
       ∧ (GodelEncoding.godelNumber r | calculateGodelNumber tape ^ 5)
       ∧ calculateGodelNumber tape ≤ GodelEncoding.godelNumber r
         ≤ calculateGodelNumber tape ^ 5.
Proof.
  intros Hw Hb.
  destruct (productOf_divides_fifth primeMappings (codePoints tape) Hb) as (P & HP & Hd).
  eexists. split; [apply (encodeAsGodel_productOf _ _ _ HP)|]. cbn [GodelEncoding.godelNumber].
  rewrite calculateGodelNumber_product, (codePoints_stripBars _ Hw), displayProduct_filter_bars.
  pose proof (productOf_positive _ _ _ HP) as Hpos.
  pose proof (displayProduct_divides _ _ _ HP) as Hd'.
  rewrite displayProduct_filter_bars in Hd'.
  assert (H1 : 1 ≤ displayProduct (codePoints tape)).
  { pose proof (productOf_nil (codePoints tape)) as Hn. now apply productOf_positive in Hn. }
  split; [exact Hd|]. split.
  - apply Z.divide_pos_le; [lia|exact Hd'].
  - apply Z.divide_pos_le; [|exact Hd]. apply Z.pow_pos_nonneg; lia.
Qed.

(** X15 on the default tape, with the ranked list of the example vector. *)
Lemma godelNumber_at_most_fifth_power_witness :
  let primeMappings := mapEmbeddingsToPrimes tanhStub (embeddingsOf examplePooled) in
  wellFormed EMOJI_BLOCK_TAPE = true
  ∧ Forall (fun m => PrimFloat.leb (PrimFloat.abs (PrimeMappedEmbedding.normalizedActivation m))
                                   1 = true) primeMappings
  ∧ ∃ r, encodeAsGodel (E := Empty_set) EMOJI_BLOCK_TAPE primeMappings = inr r
         ∧ GodelEncoding.godelNumber r ≤ calculateGodelNumber EMOJI_BLOCK_TAPE ^ 5.
Proof.
  cbv zeta.
  pose proof (mapEmbeddingsToPrimes_bounded tanhStub (embeddingsOf examplePooled)
                tanhStub_bounded) as Hb.
  split; [reflexivity|]. split; [exact Hb|].
  destruct (godelNumber_at_most_fifth_power (E := Empty_set) EMOJI_BLOCK_TAPE _ eq_refl Hb)
    as (r & Hr & _ & _ & Hle).
  exists r. split; [exact Hr|exact Hle].
Defined.

(** ** The exponent in double arithmetic *)

Lemma shiftl_ge m e B :
  e ≤ 0 → B * 2 ^ (- e) ≤ m → B ≤ Z.shiftl m e.
Proof.
  intros He Hm. rewrite Z.shiftl_div_pow2 by lia.
  pose proof (pow2_pos (- e) ltac:(lia)).
  apply Z.div_le_lower_bound; lia.
Qed.

Lemma roundFinish_ge B B' m e :
  1 ≤ B → B' < 2 ^ 53 → e ≤ 0 → B * 2 ^ (- e) ≤ m ≤ B' * 2 ^ (- e) →
  flooredAtLeast B (roundFinish false m e).
Proof.
  intros HB HB' He Hm.
  pose proof (pow2_pos (- e) ltac:(lia)) as Hpe.
  destruct m as [|m|m]; [nia| |lia].
  pose proof (digits_exponent_le m B' e HB' He ltac:(lia)) as Hd.
  pose proof (digits2_pos_bounds m) as [Dlo Dhi].
  destruct (fexp prec emax (Z.pos (digits2_pos m) + e) - e) as [|n|n] eqn:Hn.
  - rewrite roundFinish_noshift by lia.
    destruct (Z.leb_spec e 971); [|lia]. split; [reflexivity|]. apply shiftl_ge; lia.
  - rewrite (roundFinish_shift _ _ _ _ Hn). rewrite fexp_eq in Hn.
    pose proof (pow2_pos (Z.pos n) ltac:(lia)).
    pose proof (pow2_pos (- (e + Z.pos n)) ltac:(lia)).
    assert (Hsplit : 2 ^ (- e) = 2 ^ Z.pos n * 2 ^ (- (e + Z.pos n))).
    { rewrite <- Z.pow_add_r by lia. f_equal. lia. }
    assert (Hq : B * 2 ^ (- (e + Z.pos n)) ≤ Z.pos m / 2 ^ Z.pos n).
    { apply Z.div_le_lower_bound; [lia|]. rewrite Hsplit in Hm. lia. }
    destruct (Z.pos m / 2 ^ Z.pos n) as [|m3|m3]; [nia| |lia].
    destruct (Z.leb_spec (e + Z.pos n) 971); [|lia].
    split; [reflexivity|]. apply shiftl_ge; lia.
  - rewrite roundFinish_noshift by lia.
    destruct (Z.leb_spec e 971); [|lia]. split; [reflexivity|]. apply shiftl_ge; lia.
Qed.

(** Rounding never drops a value under an integer bound it respects. *)
Lemma binary_round_aux_ge B B' M E :
  1 ≤ B → B' + 1 < 2 ^ 53 → E ≤ 0 → B * 2 ^ (- E) ≤ Z.pos M ≤ B' * 2 ^ (- E) →
  flooredAtLeast B (binary_round_aux prec emax false (Z.pos M) E loc_Exact).
Proof.
  intros HB HB' HE HM.
  pose proof (digits_exponent_le M B' E ltac:(lia) HE ltac:(lia)) as Hd.
  destruct (fexp prec emax (Z.pos (digits2_pos M) + E) - E) as [|n|n] eqn:Hn.
  - rewrite binary_round_aux_noshift by lia.
    destruct (Z.leb_spec E 971); [|lia]. split; [reflexivity|]. apply shiftl_ge; lia.
  - destruct (binary_round_aux_shift false M E n Hn) as (m2 & Hm2 & Hex & ->).
    rewrite fexp_eq in Hn.
    pose proof (pow2_pos (Z.pos n) ltac:(lia)).
    pose proof (pow2_pos (- (E + Z.pos n)) ltac:(lia)).
    assert (Hsplit : 2 ^ (- E) = 2 ^ Z.pos n * 2 ^ (- (E + Z.pos n))).
    { rewrite <- Z.pow_add_r by lia. f_equal. lia. }
    rewrite Hsplit in HM.
    assert (Hlo : B * 2 ^ (- (E + Z.pos n)) ≤ Z.pos M / 2 ^ Z.pos n).
    { apply Z.div_le_lower_bound; lia. }
    assert (Hhi : Z.pos M / 2 ^ Z.pos n ≤ B' * 2 ^ (- (E + Z.pos n))).
    { apply Z.div_le_upper_bound; lia. }
    apply (roundFinish_ge B (B' + 1)); [lia|lia|lia|]. split; [lia|]. nia.
  - rewrite binary_round_aux_noshift by lia.
    destruct (Z.leb_spec E 971); [|lia]. split; [reflexivity|]. apply shiftl_ge; lia.
Qed.

Lemma SFmul_5_floor mx ex :
  valid_binary (S754_finite false mx ex) = true →
  magnitude (S754_finite false mx ex) ≤ 2 ^ 1074 →
  let k := Z.shiftl (5 * Z.pos mx) ex in
  0 ≤ k ≤ 5
  ∧ (1 ≤ k → flooredAtLeast k (SF64mul (S754_finite false mx ex)
                                        (S754_finite false 5629499534213120 (-50))))
  ∧ flooredAtMost (k + 1) (SF64mul (S754_finite false mx ex)
                                   (S754_finite false 5629499534213120 (-50))).
Proof.
  intros Vx Hx. cbv zeta.
  apply valid_finite in Vx as (_ & Ex & _). cbn [magnitude] in Hx.
  pose proof (pow2_pos (ex + 1074) ltac:(lia)).
  assert (ex ≤ 0).
  { destruct (Z.le_gt_cases ex 0) as [Hle|Hgt]; [exact Hle|].
    assert (2 ^ 1074 < 2 ^ (ex + 1074)) by (apply Z.pow_lt_mono_r; lia). nia. }
  pose proof (pow2_pos (- ex) ltac:(lia)).
  assert (Hm : Z.pos mx ≤ 2 ^ (- ex)).
  { assert (E1 : 2 ^ 1074 = 2 ^ (- ex) * 2 ^ (ex + 1074))
      by (rewrite <- Z.pow_add_r by lia; f_equal; lia).
    rewrite E1 in Hx. now apply Z.mul_le_mono_pos_r in Hx. }
  rewrite Z.shiftl_div_pow2 by lia.
  set (k := 5 * Z.pos mx / 2 ^ (- ex)).
  assert (Hk : k * 2 ^ (- ex) ≤ 5 * Z.pos mx < (k + 1) * 2 ^ (- ex)).
  { subst k. pose proof (Z.div_mod (5 * Z.pos mx) (2 ^ (- ex)) ltac:(lia)).
    pose proof (Z.mod_pos_bound (5 * Z.pos mx) (2 ^ (- ex)) ltac:(lia)). nia. }
  assert (Hk05 : 0 ≤ k ≤ 5).
  { split; [apply Z.div_pos; lia|]. apply Z.div_le_upper_bound; lia. }
  split; [exact Hk05|].
  cbn [SF64mul SFmul xorb]. rewrite Pos2Z.inj_mul.
  change (Z.pos 5629499534213120) with (5 * 2 ^ 50).
  replace (- (ex + -50)) with (- ex + 50) in * by lia.
  pose proof (pow2_pos 50 ltac:(lia)).
  split.
  - intros Hk1. apply (binary_round_aux_ge k 6); [lia|lia|lia|].
    replace (- (ex + -50)) with (- ex + 50) by lia. rewrite Z.pow_add_r by lia. nia.
  - apply binary_round_aux_le; [lia|lia|].
    replace (- (ex + -50)) with (- ex + 50) by lia. rewrite Z.pow_add_r by lia. nia.
Qed.

(** X16. The exponent is computed in double arithmetic, where the product
    [abs(a) * 5] is rounded before its floor is taken. For a
    normalizedActivation [a] within [-1, 1] the floor the code takes is the
    floor of the exact product [5 * abs(a)], between 0 and 5, or one more
    than it (as for [a = 0.6], which gives 3 and not 2); the exponent is the
    larger of 1 and that floor. *)
Theorem exponent_near_exact_floor mapping :
  let a := PrimeMappedEmbedding.normalizedActivation mapping in
  PrimFloat.leb (PrimFloat.abs a) 1 = true →
  ∃ k, Num.Math_floor (PrimFloat.mul (PrimFloat.abs a) 5) = Num.IInt k
       ∧ exponentOf (Some mapping) = Num.IInt (Z.max 1 k)
       ∧ 0 ≤ exactFloor5 a ≤ 5
       ∧ exactFloor5 a ≤ k ≤ exactFloor5 a + 1.
Proof.
  cbv zeta. intros Hle.
  pose proof (leb_not_nan _ _ Hle) as Hn. rewrite abs_not_nan in Hn.
  destruct (abs_unsigned _ Hn) as [V U].
  rewrite leb_spec, abs_spec in Hle. unfold SFleb in Hle.
  change (Prim2SF 1) with (S754_finite false 4503599627370496 (-52)) in Hle.
  rewrite (SFcompare_magnitude _ (S754_finite false 4503599627370496 (-52)) V eq_refl U eq_refl)
    in Hle.
  change (magnitude (S754_finite false 4503599627370496 (-52))) with (2 ^ 1074) in Hle.
  assert (Hm : magnitude (SFabs (Prim2SF (PrimeMappedEmbedding.normalizedActivation mapping)))
               ≤ 2 ^ 1074).
  { destruct (Z.compare_spec
                (magnitude (SFabs (Prim2SF (PrimeMappedEmbedding.normalizedActivation mapping))))
                (2 ^ 1074)); [lia|lia|discriminate]. }
  cbn [exponentOf]. unfold Num.Math_floor, exactFloor5.
  rewrite mul_spec, abs_spec.
  change (Prim2SF 5) with (S754_finite false 5629499534213120 (-50)).
  destruct (Prim2SF (PrimeMappedEmbedding.normalizedActivation mapping)) as [s|s| |s m e];
    cbn [SFabs] in *.
  - exists 0. cbn. repeat split; lia.
  - exfalso. cbn [magnitude] in Hm.
    assert (2 ^ 1074 < 2 ^ 2100) by (apply Z.pow_lt_mono_r; lia). lia.
  - discriminate.
  - destruct (SFmul_5_floor m e V Hm) as (Hk & Hge & Hlt).
    destruct (SF64mul _ _) as [s'|s'| |s' m' e']; cbn [flooredAtMost] in Hlt; try tauto.
    + exists 0. cbn [Num.Math_max]. split; [reflexivity|]. split; [reflexivity|].
      split; [exact Hk|]. split; [|lia].
      destruct (Z.le_gt_cases 1 (Z.shiftl (5 * Z.pos m) e)) as [H1|H0]; [|lia].
      destruct (Hge H1).
    + destruct Hlt as [-> Hlt]. eexists. cbn [Num.Math_max cond_Zopp].
      split; [reflexivity|]. split; [reflexivity|]. split; [exact Hk|]. split; [|exact Hlt].
      destruct (Z.le_gt_cases 1 (Z.shiftl (5 * Z.pos m) e)) as [H1|H0].
      * now destruct (Hge H1).
      * assert (0 ≤ Z.shiftl (Z.pos m') e') by (apply Z.shiftl_nonneg; lia). lia.
Qed.

(** X16 for the double nearest to 0.6, which is below 0.6: the exact
    product is below 3 and its floor is 2, the code computes 3. *)
Lemma exponent_near_exact_floor_witness :
  let mapping :=
    {| PrimeMappedEmbedding.prime := 2;
       PrimeMappedEmbedding.emoji := [55356; 57257];
       PrimeMappedEmbedding.activation := 1%float;
       PrimeMappedEmbedding.normalizedActivation := 0x1.3333333333333p-1%float;
       PrimeMappedEmbedding.rank := 1 |} in
  PrimFloat.leb (PrimFloat.abs (PrimeMappedEmbedding.normalizedActivation mapping)) 1 = true
  ∧ exactFloor5 (PrimeMappedEmbedding.normalizedActivation mapping) = 2
  ∧ exponentOf (Some mapping) = Num.IInt 3
  ∧ ∃ k, exponentOf (Some mapping) = Num.IInt (Z.max 1 k)
         ∧ exactFloor5 (PrimeMappedEmbedding.normalizedActivation mapping) ≤ k
           ≤ exactFloor5 (PrimeMappedEmbedding.normalizedActivation mapping) + 1.
Proof.
  cbv zeta. split; [reflexivity|]. split; [reflexivity|]. split; [reflexivity|].
  destruct (exponent_near_exact_floor
              {| PrimeMappedEmbedding.prime := 2;
                 PrimeMappedEmbedding.emoji := [55356; 57257];
                 PrimeMappedEmbedding.activation := 1%float;
                 PrimeMappedEmbedding.normalizedActivation := 0x1.3333333333333p-1%float;
                 PrimeMappedEmbedding.rank := 1 |} eq_refl) as (k & _ & He & _ & Hk).
  exists k. split; [exact He|exact Hk].
Defined.

(** ** Segments of the tape *)

Lemma splitBars_cons c s :
  splitBars (c :: s)
  = if decide (c = 124) then [] :: splitBars s
    else match splitBars s with
         | segment :: segments => (c :: segment) :: segments
         | [] => [[c]]
         end.
Proof.
  cbn [splitBars]. destruct (Z.eqb_spec c 124), (decide (c = 124)); first [reflexivity|tauto].
Qed.

Lemma splitBars_nonempty s : ∃ segment segments, splitBars s = segment :: segments.
Proof.
  induction s as [|c s (segment & segments & IH)]; [now exists [], []|].
  rewrite splitBars_cons, IH. destruct (decide (c = 124)); eauto.
Qed.

Lemma joinBars_cons segment segments :
  joinBars (segment :: segments)
  = match segments with
    | [] => segment
    | _ :: _ => segment ++ 124 :: joinBars segments
    end.
Proof.
  unfold joinBars. destruct segments as [|s' rest]; cbn [map concat].
  - apply app_nil_r.
  - reflexivity.
Qed.

Lemma joinBars_splitBars s : joinBars (splitBars s) = s.
Proof.
  induction s as [|c s IH]; [reflexivity|].
  rewrite splitBars_cons. destruct (splitBars_nonempty s) as (segment & segments & Hs).
  rewrite Hs in *. destruct (decide (c = 124)) as [->|_].
  - rewrite joinBars_cons. cbn [app]. now rewrite IH.
  - rewrite joinBars_cons in *. destruct segments; cbn [app]; now rewrite IH.
Qed.

Lemma splitBars_joinBars segments :
  segments ≠ [] → Forall (fun segment => 124 ∉ segment) segments →
  splitBars (joinBars segments) = segments.
Proof.
  intros Hne Hf. induction Hf as [|segment rest Hs Hf IH]; [contradiction|]. clear Hne.
  rewrite joinBars_cons.
  assert (Hrest : splitBars (match rest with [] => [] | _ :: _ => 124 :: joinBars rest end)
                  = match rest with [] => [[]] | _ => [] :: rest end).
  { destruct rest as [|s' rest']; [reflexivity|].
    rewrite splitBars_cons. destruct (decide (124 = 124)); [|contradiction].
    f_equal. now apply IH. }
  induction segment as [|c segment IHs].
  - destruct rest as [|s' rest']; [reflexivity|]. cbn [app]. exact Hrest.
  - apply not_elem_of_cons in Hs as [Hc Hs]. specialize (IHs Hs).
    assert (Heq : (match rest with
                   | [] => c :: segment
                   | _ :: _ => (c :: segment) ++ 124 :: joinBars rest
                   end)
                  = c :: match rest with
                         | [] => segment
                         | _ :: _ => segment ++ 124 :: joinBars rest
                         end).
    { now destruct rest. }
    rewrite Heq, splitBars_cons, IHs.
    destruct (decide (c = 124)); [congruence|reflexivity].
Qed.

Lemma splitBars_no_bar s : Forall (fun segment => 124 ∉ segment) (splitBars s).
Proof.
  induction s as [|c s IH]; [repeat constructor; apply not_elem_of_nil|].
  rewrite splitBars_cons. destruct (splitBars_nonempty s) as (segment & segments & Hs).
  rewrite Hs in *. apply Forall_cons in IH as [Hseg IH].
  destruct (decide (c = 124)) as [->|Hc].
  - repeat constructor; [apply not_elem_of_nil|exact Hseg|exact IH].
  - constructor; [|exact IH]. apply not_elem_of_cons. auto.
Qed.

Lemma concat_splitBars s : concat (splitBars s) = stripBars s.
Proof.
  induction s as [|c s IH]; [reflexivity|].
  rewrite splitBars_cons, stripBars_cons.
  destruct (splitBars_nonempty s) as (segment & segments & Hs). rewrite Hs in *.
  destruct (decide (c = 124)); cbn [concat app] in *; now rewrite IH.
Qed.

Lemma length_splitBars s :
  (length (stripBars s) + length (splitBars s) = length s + 1)%nat.
Proof.
  induction s as [|c s IH]; [reflexivity|].
  rewrite splitBars_cons, stripBars_cons.
  destruct (splitBars_nonempty s) as (segment & segments & Hs). rewrite Hs in *.
  destruct (decide (c = 124)); cbn [length] in *; lia.
Qed.

(** X17. Splitting the tape at its separators loses nothing: joining the
    segments with [|] gives the tape back, no segment contains a separator,
    the segments concatenated are the tape without separators, so that the
    total length shown plus the number of segments is the length of the
    tape plus one; and splitting what was joined from separator-free
    segments gives these segments back. *)
Theorem splitBars_round_trip tape :
  let segments := splitBars tape in
  joinBars segments = tape
  ∧ Forall (fun segment => 124 ∉ segment) segments
  ∧ concat segments = stripBars tape
  ∧ (length (stripBars tape) + length segments = length tape + 1)%nat
  ∧ ∀ segments', segments' ≠ [] → Forall (fun segment => 124 ∉ segment) segments' →
                 splitBars (joinBars segments') = segments'.
Proof.
  cbv zeta. split; [apply joinBars_splitBars|]. split; [apply splitBars_no_bar|].
  split; [apply concat_splitBars|]. split; [apply length_splitBars|].
  apply splitBars_joinBars.
Qed.

Lemma stripBars_no_bar segment : 124 ∉ segment → stripBars segment = segment.
Proof.
  induction segment as [|c segment IH]; [reflexivity|]. intros Hn.
  apply not_elem_of_cons in Hn as [Hc Hn]. rewrite stripBars_cons.
  destruct (decide (c = 124)); [congruence|]. now rewrite IH.
Qed.

(** On a well-formed tape the glyphs of the segments, read one segment
    after the other, are the glyphs of the tape without its separators. *)
Lemma codePoints_splitBars tape :
  wellFormed tape = true →
  concat (map codePoints (splitBars tape)) = filter (fun cp => cp ≠ [124]) (codePoints tape).
Proof.
  induction tape as [|c|c d rest Hp IH|c d rest Hp IH] using codePoints_ind; intros Hw.
  - reflexivity.
  - rewrite splitBars_cons. cbn [splitBars codePoints]. rewrite filter_cons.
    destruct (decide (c = 124)) as [->|Hc].
    + now destruct (decide ([124] ≠ [124])).
    + destruct (decide ([c] ≠ [124])) as [_|Hn]; [reflexivity|].
      exfalso. apply Hn. congruence.
  - rewrite wellFormed_cons_pair in Hw by exact Hp. specialize (IH Hw).
    rewrite codePoints_pair by exact Hp. rewrite filter_cons.
    destruct (decide ([c; d] ≠ [124])) as [_|Hn]; [|exfalso; apply Hn; congruence].
    rewrite <- IH. apply andb_true_iff in Hp as [Hc Hd].
    rewrite !splitBars_cons.
    destruct (decide (c = 124)) as [->|_]; [discriminate|].
    destruct (decide (d = 124)) as [->|_]; [discriminate|].
    destruct (splitBars_nonempty rest) as (segment & segments & ->).
    cbn [map concat]. rewrite codePoints_pair by (now rewrite Hc, Hd). reflexivity.
  - rewrite wellFormed_cons_single in Hw by exact Hp.
    apply andb_true_iff in Hw as [Hc Hw]. specialize (IH Hw).
    apply negb_true_iff, orb_false_iff in Hc as [Hc _].
    rewrite codePoints_single by exact Hp. rewrite filter_cons, <- IH.
    rewrite (splitBars_cons c).
    destruct (splitBars_nonempty (d :: rest)) as (segment & segments & ->).
    destruct (decide (c = 124)) as [->|Hne].
    + now destruct (decide ([124] ≠ [124])).
    + destruct (decide ([c] ≠ [124])) as [_|Hn]; [|exfalso; apply Hn; congruence].
      cbn [map concat]. now rewrite codePoints_cons_not_high by exact Hc.
Qed.

Lemma displayProduct_concat glyphss :
  displayProduct (concat glyphss) = productZ (map displayProduct glyphss).
Proof.
  induction glyphss as [|glyphs rest IH]; [reflexivity|].
  cbn [concat map productZ fold_right]. rewrite displayProduct_app, IH. reflexivity.
Qed.

(** X18. On a well-formed tape the glyphs shown segment by segment are the
    glyphs the display's Gödel number is computed from, and both Gödel
    numbers of the tape are the products of the Gödel numbers of its
    segments: the display's, and the core's for any list of prime mappings
    with which [encodeAsGodel] returns for the tape. *)
Theorem godelNumber_segments {E} tape primeMappings :
  wellFormed tape = true →
  let segments := splitBars tape in
  concat (map codePoints segments) = codePoints (stripBars tape)
  ∧ calculateGodelNumber tape = productZ (map calculateGodelNumber segments)
  ∧ ∀ r, encodeAsGodel (E := E) tape primeMappings = inr r →
         ∃ rs, Forall2 (fun segment r' => encodeAsGodel (E := E) segment primeMappings = inr r')
                       segments rs
               ∧ GodelEncoding.godelNumber r = productZ (map GodelEncoding.godelNumber rs).
Proof.
  intros Hw. cbv zeta.
  pose proof (codePoints_splitBars tape Hw) as Hs. split; [|split].
  - now rewrite (codePoints_stripBars _ Hw).
  - rewrite calculateGodelNumber_product, (codePoints_stripBars _ Hw), <- Hs.
    rewrite displayProduct_concat, map_map. f_equal.
    apply Forall_fmap_ext_1. eapply Forall_impl; [apply splitBars_no_bar|].
    intros segment Hn. cbn beta.
    now rewrite calculateGodelNumber_product, stripBars_no_bar.
  - intros r Hr. apply encodeAsGodel_inr in Hr as [Hr _].
    rewrite <- productOf_filter_bars, <- Hs in Hr. clear Hs Hw.
    revert Hr. generalize (GodelEncoding.godelNumber r). clear r.
    induction (splitBars tape) as [|segment rest IH]; intros P HP.
    + exists []. split; [constructor|]. cbn in HP. now inversion HP.
    + cbn [map concat] in HP. rewrite productOf_app in HP.
      destruct (productOf primeMappings (codePoints segment)) as [P1|] eqn:H1; [|discriminate].
      destruct (productOf primeMappings (concat (map codePoints rest))) as [P2|] eqn:H2;
        [|discriminate].
      inversion HP; subst P. destruct (IH P2 eq_refl) as (rs & Hrs & Heq).
      eexists (_ :: rs). split.
      * constructor; [apply (encodeAsGodel_productOf _ _ _ H1)|exact Hrs].
      * cbn [map productZ fold_right GodelEncoding.godelNumber]. now rewrite Heq.
Qed.

(** X18 on the default tape, whose three segments have the display
    numbers 870870, 211497 and 17298645. *)
Lemma godelNumber_segments_witness :
  wellFormed EMOJI_BLOCK_TAPE = true
  ∧ map calculateGodelNumber (splitBars EMOJI_BLOCK_TAPE) = [870870; 211497; 17298645]
  ∧ calculateGodelNumber EMOJI_BLOCK_TAPE = 870870 * (211497 * (17298645 * 1)).
Proof.
  destruct (godelNumber_segments (E := Empty_set) EMOJI_BLOCK_TAPE [] eq_refl) as (_ & Hd & _).
  split; [reflexivity|]. split; [vm_compute; reflexivity|].
  rewrite Hd. vm_compute. reflexivity.
Defined.

(** ** Reading the glyph counts off a Gödel number *)

Lemma getPrimeForEmoji_Some emoji p :
  getPrimeForEmoji emoji = Some p →
  p ∈ INTRINSIC_PRIMES ∧ EmojiPrimeMapping.emoji p = emoji
  ∧ primeMap !! emoji = Some (EmojiPrimeMapping.prime p).
Proof.
  intros H. apply find_some in H as [Hin He].
  apply bool_decide_eq_true in He. apply list_elem_of_In in Hin.
  split; [exact Hin|]. split; [exact He|]. subst emoji.
  pose proof registry_entries as Hr. rewrite Forall_forall in Hr.
  now apply Hr.
Qed.

Lemma getPrimeForEmoji_None emoji :
  getPrimeForEmoji emoji = None →
  isRegistryGlyph emoji = false ∧ primeMap !! emoji = None.
Proof.
  intros H.
  assert (Hg : isRegistryGlyph emoji = false).
  { apply not_true_iff_false. intros Ht. apply existsb_exists in Ht as (p & Hin & Hp).
    apply (find_none _ _ H) in Hin. congruence. }
  split; [exact Hg|].
  destruct (primeMap_cases emoji) as [(p & Hin & He & _)|[Hn _]]; [|exact Hn].
  exfalso. apply list_elem_of_In in Hin. apply (find_none _ _ H) in Hin.
  apply bool_decide_eq_false in Hin. contradiction.
Qed.

Lemma occurrences_cons glyph g glyphs :
  occurrences glyph (g :: glyphs)
  = if decide (g = glyph) then S (occurrences glyph glyphs) else occurrences glyph glyphs.
Proof. unfold occurrences. rewrite filter_cons. now destruct (decide (g = glyph)). Qed.

Lemma registry_NoDup : NoDup (map EmojiPrimeMapping.emoji INTRINSIC_PRIMES).
Proof. apply (bool_decide_unpack _). vm_compute. exact I. Qed.

(** The primes of two registry items with different glyphs are coprime. *)
Lemma registry_coprime :
  Forall (fun p => Forall (fun q => EmojiPrimeMapping.emoji q = EmojiPrimeMapping.emoji p
                                    ∨ Z.coprime (EmojiPrimeMapping.prime p)
                                                (EmojiPrimeMapping.prime q))
                          INTRINSIC_PRIMES)
         INTRINSIC_PRIMES.
Proof.
  assert (H : forallb (fun p =>
                forallb (fun q =>
                  bool_decide (EmojiPrimeMapping.emoji q = EmojiPrimeMapping.emoji p)
                  || (Z.gcd (EmojiPrimeMapping.prime p) (EmojiPrimeMapping.prime q) =? 1))
                  INTRINSIC_PRIMES) INTRINSIC_PRIMES = true) by (vm_compute; reflexivity).
  rewrite forallb_forall in H. apply Forall_forall. intros p Hp.
  apply list_elem_of_In, H in Hp. rewrite forallb_forall in Hp.
  apply Forall_forall. intros q Hq. apply list_elem_of_In, Hp in Hq.
  apply orb_true_iff in Hq as [Hq|Hq].
  - left. now apply bool_decide_eq_true in Hq.
  - right. now apply Z.eqb_eq in Hq.
Qed.

Lemma exact_power P k cofactor :
  2 ≤ P → 0 ≤ k → Z.coprime P cofactor →
  (P ^ k | P ^ k * cofactor) ∧ ¬ (P ^ (k + 1) | P ^ k * cofactor).
Proof.
  intros HP Hk Hc. split; [exists cofactor; lia|].
  rewrite Z.pow_add_r, Z.pow_1_r by lia. intros Hd.
  apply Z.mul_divide_cancel_l in Hd; [|apply Z.pow_nonzero; lia].
  assert (Hg : (P | Z.gcd P cofactor)) by (apply Z.gcd_greatest; [apply Z.divide_refl|exact Hd]).
  rewrite Hc in Hg. apply Z.divide_1_r in Hg. lia.
Qed.

Lemma exact_power_unique P k1 k2 N :
  2 ≤ P → 0 ≤ k1 → 0 ≤ k2 →
  (P ^ k1 | N) → ¬ (P ^ (k1 + 1) | N) → (P ^ k2 | N) → ¬ (P ^ (k2 + 1) | N) → k1 = k2.
Proof.
  intros HP H1 H2 Hd1 Hn1 Hd2 Hn2.
  destruct (Z.lt_trichotomy k1 k2) as [Hlt|[Heq|Hgt]]; [|exact Heq|].
  - exfalso. apply Hn1. etransitivity; [|exact Hd2].
    exists (P ^ (k2 - (k1 + 1))). rewrite <- Z.pow_add_r by lia. f_equal. lia.
  - exfalso. apply Hn2. etransitivity; [|exact Hd1].
    exists (P ^ (k1 - (k2 + 1))). rewrite <- Z.pow_add_r by lia. f_equal. lia.
Qed.

Section Weights.
Variable expo : Z → Z.
Hypothesis expo_positive : ∀ prime, 1 ≤ expo prime.

Lemma registryPower_step glyphs q registry :
  registryPower expo glyphs (q :: registry)
  = EmojiPrimeMapping.prime q
    ^ (expo (EmojiPrimeMapping.prime q)
       * Z.of_nat (occurrences (EmojiPrimeMapping.emoji q) glyphs))
    * registryPower expo glyphs registry.
Proof. reflexivity. Qed.

Lemma weightOf_step glyph q registry :
  weightOf expo (q :: registry) glyph
  = if decide (glyph = EmojiPrimeMapping.emoji q)
    then EmojiPrimeMapping.prime q ^ expo (EmojiPrimeMapping.prime q)
    else weightOf expo registry glyph.
Proof.
  unfold weightOf. cbn [find].
  destruct (decide (glyph = EmojiPrimeMapping.emoji q)) as [->|Hne].
  - now rewrite bool_decide_eq_true_2.
  - now rewrite bool_decide_eq_false_2 by congruence.
Qed.

Lemma registryPower_nil registry : registryPower expo [] registry = 1.
Proof.
  induction registry as [|q registry IH]; [reflexivity|].
  rewrite registryPower_step, IH. change (occurrences (EmojiPrimeMapping.emoji q) []) with 0%nat.
  now rewrite Z.mul_0_r.
Qed.

Lemma registryPower_stranger g glyphs registry :
  g ∉ map EmojiPrimeMapping.emoji registry →
  registryPower expo (g :: glyphs) registry = registryPower expo glyphs registry.
Proof.
  induction registry as [|q registry IH]; [reflexivity|]. cbn [map]. intros Hn.
  apply not_elem_of_cons in Hn as [Hq Hn]. rewrite !registryPower_step.
  rewrite occurrences_cons. destruct (decide (g = EmojiPrimeMapping.emoji q)); [contradiction|].
  f_equal. now apply IH.
Qed.

Lemma registryPower_cons g glyphs registry :
  NoDup (map EmojiPrimeMapping.emoji registry) →
  registryPower expo (g :: glyphs) registry
  = weightOf expo registry g * registryPower expo glyphs registry.
Proof.
  induction registry as [|q registry IH]; [reflexivity|]. cbn [map]. intros Hnd.
  apply NoDup_cons in Hnd as [Hq Hnd]. rewrite !registryPower_step, weightOf_step.
  rewrite occurrences_cons.
  pose proof (expo_positive (EmojiPrimeMapping.prime q)) as He.
  destruct (decide (g = EmojiPrimeMapping.emoji q)) as [->|Hne].
  - rewrite (registryPower_stranger _ _ _ Hq).
    rewrite Nat2Z.inj_succ, Z.mul_succ_r, Z.pow_add_r by lia. lia.
  - rewrite (IH Hnd). lia.
Qed.

(** The product of the factors, glyph by glyph, is the product of the
    registry primes, each to its exponent times the count of its glyph. *)
Lemma weightProduct_registryPower glyphs :
  weightProduct expo glyphs = registryPower expo glyphs INTRINSIC_PRIMES.
Proof.
  induction glyphs as [|g glyphs IH].
  - now rewrite registryPower_nil.
  - cbn [weightProduct fold_right]. fold (weightProduct expo glyphs).
    now rewrite IH, (registryPower_cons _ _ _ registry_NoDup).
Qed.

Lemma registryPower_coprime P glyphs registry :
  Forall (fun q => Z.coprime P (EmojiPrimeMapping.prime q)) registry →
  Z.coprime P (registryPower expo glyphs registry).
Proof.
  induction 1 as [|q registry Hq _ IH].
  - apply Z.coprime_1_r.
  - rewrite registryPower_step.
    apply Z.coprime_mul_r; [|exact IH]. apply Z.coprime_pow_r; [|exact Hq].
    pose proof (expo_positive (EmojiPrimeMapping.prime q)). nia.
Qed.

(** The number splits into the power of one registry prime and a cofactor
    coprime to it. *)
Lemma registryPower_split p glyphs registry :
  p ∈ registry →
  NoDup (map EmojiPrimeMapping.emoji registry) →
  Forall (fun q => EmojiPrimeMapping.emoji q = EmojiPrimeMapping.emoji p
                   ∨ Z.coprime (EmojiPrimeMapping.prime p) (EmojiPrimeMapping.prime q))
         registry →
  ∃ cofactor,
    registryPower expo glyphs registry
    = EmojiPrimeMapping.prime p
      ^ (expo (EmojiPrimeMapping.prime p)
         * Z.of_nat (occurrences (EmojiPrimeMapping.emoji p) glyphs)) * cofactor
    ∧ Z.coprime (EmojiPrimeMapping.prime p) cofactor.
Proof.
  induction registry as [|q registry IH]; intros Hin Hnd Hco; [now apply elem_of_nil in Hin|].
  cbn [map] in Hnd. apply NoDup_cons in Hnd as [Hq Hnd].
  apply Forall_cons in Hco as [Hqp Hco]. rewrite registryPower_step.
  destruct (decide (EmojiPrimeMapping.emoji q = EmojiPrimeMapping.emoji p)) as [Heq|Hne].
  - assert (q = p) as ->.
    { apply elem_of_cons in Hin as [->|Hin]; [reflexivity|].
      exfalso. apply Hq. rewrite Heq. now apply list_elem_of_fmap_2. }
    exists (registryPower expo glyphs registry). split; [reflexivity|].
    apply registryPower_coprime. rewrite Forall_forall in *. intros q' Hq'.
    destruct (Hco _ Hq') as [He|Hc]; [|exact Hc].
    exfalso. apply Hq. rewrite <- He. now apply list_elem_of_fmap_2.
  - apply elem_of_cons in Hin as [->|Hin]; [contradiction|].
    destruct (IH Hin Hnd Hco) as (cofactor & -> & Hc).
    destruct Hqp as [?|Hqp]; [contradiction|].
    eexists. split; [|apply Z.coprime_mul_r; [|exact Hc]].
    + rewrite Z.mul_assoc, (Z.mul_comm (_ ^ _) (EmojiPrimeMapping.prime p ^ _)),
        <- Z.mul_assoc. reflexivity.
    + apply Z.coprime_pow_r; [|exact Hqp].
      pose proof (expo_positive (EmojiPrimeMapping.prime q)). nia.
Qed.

Lemma weightProduct_multiplicity glyphs :
  Forall (fun p =>
            let k := expo (EmojiPrimeMapping.prime p)
                     * Z.of_nat (occurrences (EmojiPrimeMapping.emoji p) glyphs) in
            (EmojiPrimeMapping.prime p ^ k | weightProduct expo glyphs)
            ∧ ¬ (EmojiPrimeMapping.prime p ^ (k + 1) | weightProduct expo glyphs))
         INTRINSIC_PRIMES.
Proof.
  apply Forall_forall. intros p Hp. cbv zeta.
  rewrite weightProduct_registryPower.
  pose proof registry_coprime as Hco. rewrite Forall_forall in Hco.
  destruct (registryPower_split p glyphs INTRINSIC_PRIMES Hp registry_NoDup (Hco p Hp))
    as (cofactor & -> & Hc).
  pose proof registry_entries as Hr. rewrite Forall_forall in Hr.
  destruct (Hr p Hp) as (H2 & _).
  apply exact_power; [exact H2| |exact Hc].
  pose proof (expo_positive (EmojiPrimeMapping.prime p)). nia.
Qed.

Lemma weightProduct_injective glyphs1 glyphs2 :
  weightProduct expo glyphs1 = weightProduct expo glyphs2
  ↔ Forall (fun p => occurrences (EmojiPrimeMapping.emoji p) glyphs1
                     = occurrences (EmojiPrimeMapping.emoji p) glyphs2) INTRINSIC_PRIMES.
Proof.
  split.
  - intros Heq. apply Forall_forall. intros p Hp.
    pose proof (weightProduct_multiplicity glyphs1) as H1.
    pose proof (weightProduct_multiplicity glyphs2) as H2.
    rewrite Forall_forall in H1, H2. specialize (H1 p Hp). specialize (H2 p Hp).
    cbv zeta in H1, H2. rewrite Heq in H1. destruct H1 as [Hd1 Hn1], H2 as [Hd2 Hn2].
    pose proof registry_entries as Hr. rewrite Forall_forall in Hr.
    destruct (Hr p Hp) as (Hp2 & _).
    pose proof (expo_positive (EmojiPrimeMapping.prime p)) as He.
    assert (H1 : 0 ≤ expo (EmojiPrimeMapping.prime p)
                     * Z.of_nat (occurrences (EmojiPrimeMapping.emoji p) glyphs1)) by nia.
    assert (H2 : 0 ≤ expo (EmojiPrimeMapping.prime p)
                     * Z.of_nat (occurrences (EmojiPrimeMapping.emoji p) glyphs2)) by nia.
    pose proof (exact_power_unique _ _ _ _ Hp2 H1 H2 Hd1 Hn1 Hd2 Hn2) as Hk.
    apply Z.mul_reg_l in Hk; lia.
  - intros Hocc. rewrite !weightProduct_registryPower.
    induction Hocc as [|p registry Hp _ IH]; [reflexivity|].
    rewrite !registryPower_step. now rewrite Hp, IH.
Qed.

End Weights.

Lemma displayFactor_weightOf glyph :
  displayFactor glyph = weightOf (fun _ => 1) INTRINSIC_PRIMES glyph.
Proof.
  unfold displayFactor, weightOf. fold (getPrimeForEmoji glyph).
  destruct (getPrimeForEmoji glyph) as [p|] eqn:Hg.
  - apply getPrimeForEmoji_Some in Hg as (_ & _ & Hm). rewrite Hm.
    pose proof (primeMap_prime _ _ Hm). destruct (Z.eqb_spec (EmojiPrimeMapping.prime p) 0); lia.
  - now apply getPrimeForEmoji_None in Hg as [_ ->].
Qed.

Lemma displayProduct_weightProduct glyphs :
  displayProduct glyphs = weightProduct (fun _ => 1) glyphs.
Proof.
  induction glyphs as [|glyph rest IH]; [reflexivity|].
  cbn [displayProduct weightProduct fold_right]. fold (displayProduct rest).
  fold (weightProduct (fun _ => 1) rest). now rewrite displayFactor_weightOf, IH.
Qed.

Lemma exponentFor_positive primeMappings prime : 1 ≤ exponentFor primeMappings prime.
Proof.
  unfold exponentFor. destruct (exponentOf _) as [| |e] eqn:He; try lia.
  now apply exponentOf_positive in He.
Qed.

Lemma factorOf_weightOf primeMappings glyph f :
  factorOf primeMappings glyph = Some f →
  f = weightOf (exponentFor primeMappings) INTRINSIC_PRIMES glyph.
Proof.
  unfold factorOf, weightOf. fold (getPrimeForEmoji glyph).
  destruct (getPrimeForEmoji glyph) as [p|] eqn:Hg.
  - apply getPrimeForEmoji_Some in Hg as (_ & _ & Hm). rewrite Hm.
    pose proof (primeMap_prime _ _ Hm). destruct (Z.eqb_spec (EmojiPrimeMapping.prime p) 0); [lia|].
    unfold exponentFor. destruct (exponentOf _) as [| |e]; try discriminate.
    destruct (e <? 0); [discriminate|]. now intros [= <-].
  - apply getPrimeForEmoji_None in Hg as [_ ->]. now intros [= <-].
Qed.

Lemma productOf_weightProduct primeMappings glyphs P :
  productOf primeMappings glyphs = Some P →
  P = weightProduct (exponentFor primeMappings) glyphs.
Proof.
  revert P. induction glyphs as [|glyph rest IH]; intros P; cbn [productOf].
  - now intros [= <-].
  - destruct (factorOf primeMappings glyph) as [f|] eqn:Hf; [|discriminate].
    destruct (productOf primeMappings rest) as [P'|]; [|discriminate].
    intros [= <-]. cbn [weightProduct fold_right].
    fold (weightProduct (exponentFor primeMappings) rest).
    now rewrite (factorOf_weightOf _ _ _ Hf), (IH P' eq_refl).
Qed.

(** X19. The display's Gödel number holds the count of every registry
    glyph: for each registry item, the number of occurrences [n] of its
    glyph among the code points of the tape without separators is the
    multiplicity of its prime in [calculateGodelNumber(tape)], that is
    [prime ^ n] divides the number and [prime ^ (n + 1)] does not. *)
Theorem calculateGodelNumber_multiplicity tape :
  Forall (fun p =>
            let n := Z.of_nat (occurrences (EmojiPrimeMapping.emoji p)
                                           (codePoints (stripBars tape))) in
            (EmojiPrimeMapping.prime p ^ n | calculateGodelNumber tape)
            ∧ ¬ (EmojiPrimeMapping.prime p ^ (n + 1) | calculateGodelNumber tape))
         INTRINSIC_PRIMES.
Proof.
  rewrite calculateGodelNumber_product, displayProduct_weightProduct.
  eapply Forall_impl; [apply (weightProduct_multiplicity (fun _ => 1)); lia|].
  intros p. cbv beta zeta. now rewrite Z.mul_1_l.
Qed.

(** X20. Two tapes have the same display Gödel number exactly when every
    registry glyph occurs equally often in both (among the code points left
    when the separators are dropped): the number forgets the order and the
    other characters, and nothing else. *)
Theorem calculateGodelNumber_injective tape1 tape2 :
  calculateGodelNumber tape1 = calculateGodelNumber tape2
  ↔ Forall (fun p => occurrences (EmojiPrimeMapping.emoji p) (codePoints (stripBars tape1))
                     = occurrences (EmojiPrimeMapping.emoji p) (codePoints (stripBars tape2)))
           INTRINSIC_PRIMES.
Proof.
  rewrite !calculateGodelNumber_product, !displayProduct_weightProduct.
  apply weightProduct_injective. lia.
Qed.

(** X21. With one list of prime mappings, the Gödel numbers [encodeAsGodel]
    returns for two segments are equal exactly when every registry glyph
    occurs equally often among the code points of both. *)
Theorem godelNumber_injective {E} s1 s2 primeMappings r1 r2 :
  encodeAsGodel (E := E) s1 primeMappings = inr r1 →
  encodeAsGodel (E := E) s2 primeMappings = inr r2 →
  GodelEncoding.godelNumber r1 = GodelEncoding.godelNumber r2
  ↔ Forall (fun p => occurrences (EmojiPrimeMapping.emoji p) (codePoints s1)
                     = occurrences (EmojiPrimeMapping.emoji p) (codePoints s2))
           INTRINSIC_PRIMES.
Proof.
  intros H1 H2.
  apply encodeAsGodel_inr in H1 as [H1 _]. apply encodeAsGodel_inr in H2 as [H2 _].
  rewrite (productOf_weightProduct _ _ _ H1), (productOf_weightProduct _ _ _ H2).
  apply weightProduct_injective, exponentFor_positive.
Qed.

(** X21 with the ranked list of the example vector: the glyphs of the
    primes 2 and 3 in either order give the same number, and the glyph of
    prime 2 twice gives another. *)
Lemma godelNumber_injective_witness :
  let primeMappings := mapEmbeddingsToPrimes tanhStub (embeddingsOf examplePooled) in
  ∃ r1 r2 r3,
    encodeAsGodel (E := Empty_set) [55356; 57257; 55356; 57266] primeMappings = inr r1
    ∧ encodeAsGodel (E := Empty_set) [55356; 57266; 55356; 57257] primeMappings = inr r2
    ∧ encodeAsGodel (E := Empty_set) [55356; 57257; 55356; 57257] primeMappings = inr r3
    ∧ GodelEncoding.godelNumber r1 = GodelEncoding.godelNumber r2
    ∧ GodelEncoding.godelNumber r1 ≠ GodelEncoding.godelNumber r3.
Proof.
  cbv zeta.
  destruct (encodeAsGodel_withinOne (E := Empty_set) [55356; 57257; 55356; 57266] _
              examplePooled_withinOne) as [r1 H1].
  destruct (encodeAsGodel_withinOne (E := Empty_set) [55356; 57266; 55356; 57257] _
              examplePooled_withinOne) as [r2 H2].
  destruct (encodeAsGodel_withinOne (E := Empty_set) [55356; 57257; 55356; 57257] _
              examplePooled_withinOne) as [r3 H3].
  exists r1, r2, r3. split; [exact H1|]. split; [exact H2|]. split; [exact H3|]. split.
  - apply (godelNumber_injective _ _ _ _ _ H1 H2).
    repeat (apply List.Forall_cons; [reflexivity|]). apply List.Forall_nil.
  - intros Heq. apply (godelNumber_injective _ _ _ _ _ H1 H3) in Heq.
    apply Forall_cons in Heq as [Heq _]. vm_compute in Heq. discriminate.
Defined.

(** ** Lookups and classes of the display *)

(** X22. The two ways the code looks a glyph up agree on every string:
    [getPrimeForEmoji] (the first registry item with that glyph) finds an
    item exactly when the [Map] of the Gödel encoders has the string as a
    key, and then the item has that glyph and the prime the [Map] gives;
    every registry item is found by its own glyph. *)
Theorem getPrimeForEmoji_primeMap emoji :
  primeMap !! emoji = EmojiPrimeMapping.prime <$> getPrimeForEmoji emoji
  ∧ match getPrimeForEmoji emoji with
    | Some p => p ∈ INTRINSIC_PRIMES ∧ EmojiPrimeMapping.emoji p = emoji
    | None => isRegistryGlyph emoji = false
    end
  ∧ Forall (fun p => getPrimeForEmoji (EmojiPrimeMapping.emoji p) = Some p) INTRINSIC_PRIMES.
Proof.
  split; [|split].
  - destruct (getPrimeForEmoji emoji) as [p|] eqn:H.
    + now apply getPrimeForEmoji_Some in H as (_ & _ & ->).
    + now apply getPrimeForEmoji_None in H as [_ ->].
  - destruct (getPrimeForEmoji emoji) as [p|] eqn:H.
    + apply getPrimeForEmoji_Some in H. tauto.
    + now apply getPrimeForEmoji_None in H.
  - repeat (apply List.Forall_cons; [reflexivity|]). apply List.Forall_nil.
Qed.

(** X23. [getEmojiColor] gives the glyph of the registry prime [p] the
    class [text-prime-p] and every other string the muted class; the muted
    class is given to no registry glyph, and the fallback [text-foreground]
    is never returned. *)
Theorem getEmojiColor_classes emoji :
  match getPrimeForEmoji emoji with
  | Some p => getEmojiColor emoji = "text-prime-" +:+ pretty (EmojiPrimeMapping.prime p)
  | None => getEmojiColor emoji = "text-muted-foreground"
  end
  ∧ (getEmojiColor emoji = "text-muted-foreground" ↔ isRegistryGlyph emoji = false)
  ∧ getEmojiColor emoji ≠ "text-foreground".
Proof.
  assert (Hreg : ∀ p, p ∈ INTRINSIC_PRIMES →
            match colorMap !! EmojiPrimeMapping.prime p with
            | Some color => if decide (color = "") then "text-foreground" else color
            | None => "text-foreground"
            end = "text-prime-" +:+ pretty (EmojiPrimeMapping.prime p)
            ∧ "text-prime-" +:+ pretty (EmojiPrimeMapping.prime p) ≠ "text-muted-foreground"
            ∧ "text-prime-" +:+ pretty (EmojiPrimeMapping.prime p) ≠ "text-foreground").
  { apply Forall_forall.
    repeat (apply List.Forall_cons; [vm_compute; repeat split; discriminate|]).
    apply List.Forall_nil. }
  unfold getEmojiColor. destruct (getPrimeForEmoji emoji) as [p|] eqn:Hg.
  - pose proof (getPrimeForEmoji_Some _ _ Hg) as (Hin & He & _).
    destruct (Hreg p Hin) as (-> & Hm & Hf). split; [reflexivity|]. split; [|exact Hf].
    split; [contradiction|]. intros Hn. exfalso.
    assert (isRegistryGlyph emoji = true); [|congruence].
    apply existsb_exists. exists p. split; [now apply list_elem_of_In|].
    now apply bool_decide_eq_true.
  - apply getPrimeForEmoji_None in Hg as [Hn _]. split; [reflexivity|].
    split; [tauto|discriminate].
Qed.

Lemma abs_opp x : PrimFloat.abs (PrimFloat.opp x) = PrimFloat.abs x.
Proof.
  apply Prim2SF_inj. rewrite !abs_spec, opp_spec. now destruct (Prim2SF x).
Qed.

Lemma ltb_nan_r t x : PrimFloat.is_nan x = true → PrimFloat.ltb t (PrimFloat.abs x) = false.
Proof.
  rewrite is_nan_Prim2SF, ltb_spec, abs_spec.
  destruct (Prim2SF x); try discriminate. intros _. now destruct (Prim2SF t).
Qed.

Lemma ltb_abs_magnitude t x :
  isUnsigned (Prim2SF t) = true → PrimFloat.is_nan x = false →
  PrimFloat.ltb t (PrimFloat.abs x)
  = (magnitude (Prim2SF t) <? magnitude (SFabs (Prim2SF x))).
Proof.
  intros Ht Hx. destruct (abs_unsigned x Hx) as [Hv Hu].
  rewrite ltb_spec, abs_spec. unfold SFltb.
  rewrite (SFcompare_magnitude _ _ (Prim2SF_valid t) Hv Ht Hu).
  unfold Z.ltb. now destruct (_ ?= _).
Qed.

Lemma leb_abs_magnitude x y :
  PrimFloat.leb (PrimFloat.abs x) (PrimFloat.abs y) = true →
  PrimFloat.is_nan x = false ∧ PrimFloat.is_nan y = false
  ∧ magnitude (SFabs (Prim2SF x)) ≤ magnitude (SFabs (Prim2SF y)).
Proof.
  intros H.
  assert (Hx : PrimFloat.is_nan x = false).
  { rewrite <- abs_not_nan. exact (leb_not_nan _ _ H). }
  assert (Hy : PrimFloat.is_nan y = false).
  { rewrite is_nan_Prim2SF. rewrite leb_spec, !abs_spec in H.
    destruct (Prim2SF y); try reflexivity. now destruct (Prim2SF x). }
  split; [exact Hx|]. split; [exact Hy|].
  destruct (abs_unsigned x Hx) as [Hvx Hux], (abs_unsigned y Hy) as [Hvy Huy].
  rewrite leb_spec, !abs_spec in H. unfold SFleb in H.
  rewrite (SFcompare_magnitude _ _ Hvx Hvy Hux Huy) in H.
  destruct (Z.compare_spec (magnitude (SFabs (Prim2SF x))) (magnitude (SFabs (Prim2SF y))));
    [lia|lia|discriminate].
Qed.

(** X24. The class [getPrimeActivationColor] gives an activation depends
    on its magnitude only and grows with it: an activation and its negation
    get the same class, [NaN] gets the muted class, and of two activations
    the one of larger (or equal) magnitude gets the hotter (or the same)
    class. *)
Theorem getPrimeActivationColor_magnitude x y :
  getPrimeActivationColor (PrimFloat.opp x) = getPrimeActivationColor x
  ∧ (PrimFloat.is_nan x = true → getPrimeActivationColor x = "text-muted-foreground")
  ∧ (PrimFloat.leb (PrimFloat.abs x) (PrimFloat.abs y) = true →
     (heat (getPrimeActivationColor x) ≤ heat (getPrimeActivationColor y))%nat).
Proof.
  split; [|split].
  - unfold getPrimeActivationColor. now rewrite abs_opp.
  - intros Hn. unfold getPrimeActivationColor. cbv zeta. now rewrite !ltb_nan_r.
  - intros H. apply leb_abs_magnitude in H as (Hx & Hy & Hle).
    unfold getPrimeActivationColor. cbv zeta.
    rewrite !ltb_abs_magnitude by (first [reflexivity|assumption]).
    repeat match goal with |- context [?a <? ?b] => destruct (Z.ltb_spec a b) end;
      first [lia|vm_compute; lia].
Qed.

(** X25. The variance [calculatePrime2Variance] returns is never negative:
    it is [NaN] or at least 0, for every list of results; for the empty
    list it is [NaN]. *)
Theorem prime2Variance_not_negative results :
  let variance := calculatePrime2Variance results in
  (PrimFloat.is_nan variance = true ∨ PrimFloat.leb 0 variance = true)
  ∧ (results = [] → PrimFloat.is_nan variance = true).
Proof.
  cbv zeta. split.
  - apply signIs_not_negative. unfold calculatePrime2Variance. cbv zeta.
    rewrite div_spec. apply SFdiv_signIs; [|apply ofNat_signIs].
    apply sum_of_squares_signIs; [|reflexivity].
    intros x. unfold Num.Math_pow2. rewrite mul_spec. apply SFmul_square_signIs.
  - intros ->. reflexivity.
Qed.
